(** * A shallow embedding of the S3 storage driver
    (registry/storage/driver/s3-aws/s3.go)

    The driver's pure helpers are Rocq functions over [string] and [Z]; every
    call to the S3 client goes through a record of answer functions indexed by
    the history of requests issued so far, and the history is threaded through
    the driver's operations so that theorems can speak about the requests a
    call issues, in order. *)

From Stdlib Require Import ZArith Lia Bool Ascii String List DecimalString DecimalZ DecimalPos.
From Stdlib Require Strings.Byte.
From stdpp Require Import base tactics option list sorting strings gmap.

Local Open Scope Z_scope.

(** ** Go integers *)

(** [int64] arithmetic wraps around; [int] is 64 bits wide on the platforms the
    registry is built for. *)
Definition wrap64 (z : Z) : Z := (z + 2 ^ 63) mod 2 ^ 64 - 2 ^ 63.

Definition int64_min : Z := - 2 ^ 63.
Definition int64_max : Z := 2 ^ 63 - 1.

Definition in_int64 (z : Z) : Prop := int64_min <= z <= int64_max.

(** [len(s)] of a slice, as a Go [int]. *)
Definition len {A : Type} (l : list A) : Z := Z.of_nat (length l).

(** ** Go strings (byte strings) and the [strings] package *)

Definition slen (s : string) : Z := Z.of_nat (String.length s).

Definition HasPrefix (s pre : string) : bool := String.prefix pre s.

Fixpoint string_rev_onto (s acc : string) : string :=
  match s with
  | EmptyString => acc
  | String c s' => string_rev_onto s' (String c acc)
  end.

Definition string_rev (s : string) : string := string_rev_onto s EmptyString.

Definition HasSuffix (s suf : string) : bool :=
  String.prefix (string_rev suf) (string_rev s).

(** Membership of a byte in a cutset, as [strings.TrimLeft] and
    [strings.TrimRight] test it. *)
Fixpoint in_cutset (c : ascii) (cutset : string) : bool :=
  match cutset with
  | EmptyString => false
  | String k rest => if Ascii.eqb c k then true else in_cutset c rest
  end.

(** [strings.TrimLeft(s, cutset)]: drop every leading byte that is in
    [cutset]. *)
Fixpoint TrimLeft (s cutset : string) : string :=
  match s with
  | EmptyString => EmptyString
  | String c s' => if in_cutset c cutset then TrimLeft s' cutset else s
  end.

(** [strings.TrimRight(s, cutset)]: drop every trailing byte that is in
    [cutset]. *)
Fixpoint TrimRight (s cutset : string) : string :=
  match s with
  | EmptyString => EmptyString
  | String c s' =>
      match TrimRight s' cutset with
      | EmptyString => if in_cutset c cutset then EmptyString else String c EmptyString
      | t => String c t
      end
  end.

Fixpoint string_drop (n : nat) (s : string) : string :=
  match n, s with
  | O, _ => s
  | S n', String _ s' => string_drop n' s'
  | S _, EmptyString => EmptyString
  end.

(** [strings.Replace(s, old, new, 1)]: the first occurrence of [old] is
    replaced; an empty [old] matches at the beginning of [s]. *)
Fixpoint Replace1 (s old new : string) : string :=
  if String.prefix old s then new +:+ string_drop (String.length old) s
  else match s with
       | EmptyString => EmptyString
       | String c s' => String c (Replace1 s' old new)
       end.

(** [strconv.FormatInt(z, 10)]. *)
Definition FormatInt (z : Z) : string := NilZero.string_of_int (Z.to_int z).

(** ** [path/filepath] on a Unix host *)

(** The elements of a path between separators, in order. *)
Fixpoint split_slash (s cur : string) : list string :=
  match s with
  | EmptyString => [string_rev cur]
  | String c s' =>
      if Ascii.eqb c "/"%char then string_rev cur :: split_slash s' EmptyString
      else split_slash s' (String c cur)
  end.

(** One element of the path processed by [filepath.Clean]; [stack] holds the
    elements kept so far, the most recent first. *)
Definition clean_step (rooted : bool) (stack : list string) (el : string) : list string :=
  if String.eqb el "" then stack
  else if String.eqb el "." then stack
  else if String.eqb el ".." then
    match stack with
    | top :: rest => if String.eqb top ".." then el :: stack else rest
    | [] => if rooted then [] else [el]
    end
  else el :: stack.

Fixpoint join_slash (els : list string) : string :=
  match els with
  | [] => EmptyString
  | [e] => e
  | e :: rest => e +:+ "/" +:+ join_slash rest
  end.

(** [filepath.Clean]. *)
Definition Clean (path : string) : string :=
  match path with
  | EmptyString => "."
  | String c _ =>
      let rooted := Ascii.eqb c "/"%char in
      let kept := rev (fold_left (clean_step rooted) (split_slash path EmptyString) []) in
      let body := join_slash kept in
      if rooted then String "/"%char body
      else if String.eqb body "" then "." else body
  end.

(** The prefix of [s] up to and including its last separator (empty if there
    is none). *)
Fixpoint upto_last_slash (s : string) : string :=
  match s with
  | EmptyString => EmptyString
  | String c s' =>
      match upto_last_slash s' with
      | EmptyString => if Ascii.eqb c "/"%char then String c EmptyString else EmptyString
      | t => String c t
      end
  end.

(** [filepath.Dir]. *)
Definition Dir (path : string) : string := Clean (upto_last_slash path).

(** ** Errors *)

(** Go [error] values the driver handles: the SDK's [awserr.Error] (with its
    code), the storage driver's own error kinds, the [ErrSkipDir] sentinel of
    Walk callbacks, and any other error value (those built by [fmt.Errorf] and
    [errors.New], I/O errors). *)
Inductive error : Type :=
| AwsError (code message : string)
| PathNotFoundError (path : string)
| QuotaExceededError
| ErrUnsupportedMethod
| ErrSkipDir
| OtherError (message : string).

Definition error_eqb (a b : error) : bool :=
  match a, b with
  | AwsError c m, AwsError c' m' => String.eqb c c' && String.eqb m m'
  | PathNotFoundError p, PathNotFoundError p' => String.eqb p p'
  | QuotaExceededError, QuotaExceededError => true
  | ErrUnsupportedMethod, ErrUnsupportedMethod => true
  | ErrSkipDir, ErrSkipDir => true
  | OtherError m, OtherError m' => String.eqb m m'
  | _, _ => false
  end.

(** A Go runtime panic (index out of range, division by zero) ends the call
    without a result. *)
Inductive outcome (A : Type) : Type :=
| Returned (a : A)
| Panicked (reason : string).
Arguments Returned {A} a.
Arguments Panicked {A} reason.

Definition parseError (path : string) (err : error) : error :=
  match err with
  | AwsError code _ =>
      if String.eqb code "NoSuchKey" then PathNotFoundError path
      else if String.eqb code "QuotaExceeded" then QuotaExceededError
      else err
  | _ => err
  end.

(** ** The S3 client *)

Abbreviation bytes := (list Byte.byte).

(** The body of a GetObject answer: the bytes [ioutil.ReadAll] obtains from it
    and the error, if any, that ends the read. *)
Record Body : Type := mkBody {
  body_data : bytes;
  body_err : option error
}.

Record GetObjectInput : Type := mkGetObjectInput {
  goi_Bucket : string;
  goi_Key : string;
  goi_Range : option string
}.

Record HeadObjectInput : Type := mkHeadObjectInput {
  hoi_Bucket : string;
  hoi_Key : string
}.

Record HeadObjectOutput : Type := mkHeadObjectOutput {
  hoo_ContentLength : option Z;
  hoo_LastModified : option Z
}.

Record ListObjectsInput : Type := mkListObjectsInput {
  loi_Bucket : string;
  loi_Prefix : string;
  loi_Delimiter : option string;
  loi_MaxKeys : option Z;
  loi_Marker : option string
}.

Record Object : Type := mkObject {
  obj_Key : string;
  obj_Size : Z;
  obj_LastModified : Z
}.

Record ListObjectsOutput : Type := mkListObjectsOutput {
  loo_Contents : list Object;
  loo_CommonPrefixes : list string;
  loo_IsTruncated : bool;
  loo_NextMarker : option string
}.

Record ListObjectsV2Input : Type := mkListObjectsV2Input {
  lvi_Bucket : string;
  lvi_Prefix : string;
  lvi_MaxKeys : Z
}.

(** What the SDK's paginator hands to the page callback: the pages it can
    fetch, in order, and the error that ends paging if a fetch fails. *)
Record ListObjectsV2Pages : Type := mkListObjectsV2Pages {
  lvp_pages : list (list Object);
  lvp_err : option error
}.

Record CopyObjectInput : Type := mkCopyObjectInput {
  coi_Bucket : string;
  coi_Key : string;
  coi_ContentType : option string;
  coi_ACL : option string;
  coi_ServerSideEncryption : option string;
  coi_SSEKMSKeyId : option string;
  coi_StorageClass : option string;
  coi_CopySource : string
}.

Record CreateMultipartUploadInput : Type := mkCreateMultipartUploadInput {
  cmi_Bucket : string;
  cmi_Key : string;
  cmi_ContentType : option string;
  cmi_ACL : option string;
  cmi_ServerSideEncryption : option string;
  cmi_SSEKMSKeyId : option string;
  cmi_StorageClass : option string
}.

Record UploadPartCopyInput : Type := mkUploadPartCopyInput {
  upc_Bucket : string;
  upc_CopySource : string;
  upc_Key : string;
  upc_PartNumber : Z;
  upc_UploadId : string;
  upc_CopySourceRange : option string
}.

Record UploadPartInput : Type := mkUploadPartInput {
  upi_Bucket : string;
  upi_Key : string;
  upi_PartNumber : Z;
  upi_UploadId : string;
  upi_Body : bytes
}.

Record CompletedPart : Type := mkCompletedPart {
  cp_ETag : string;
  cp_PartNumber : Z
}.

Record CompleteMultipartUploadInput : Type := mkCompleteMultipartUploadInput {
  cui_Bucket : string;
  cui_Key : string;
  cui_UploadId : string;
  cui_Parts : list (option CompletedPart)
}.

Record AbortMultipartUploadInput : Type := mkAbortMultipartUploadInput {
  ami_Bucket : string;
  ami_Key : string;
  ami_UploadId : string
}.

(** [s3.Part], as ListParts reports it and as the writer records it. *)
Record Part : Type := mkPart {
  part_ETag : string;
  part_PartNumber : Z;
  part_Size : Z
}.

Inductive request : Type :=
| ReqGetObject (i : GetObjectInput)
| ReqHeadObject (i : HeadObjectInput)
| ReqListObjects (i : ListObjectsInput)
| ReqListObjectsV2Pages (i : ListObjectsV2Input)
| ReqCopyObject (i : CopyObjectInput)
| ReqCreateMultipartUpload (i : CreateMultipartUploadInput)
| ReqUploadPartCopy (i : UploadPartCopyInput)
| ReqUploadPart (i : UploadPartInput)
| ReqCompleteMultipartUpload (i : CompleteMultipartUploadInput)
| ReqAbortMultipartUpload (i : AbortMultipartUploadInput).

(** The requests issued so far, oldest first. *)
Abbreviation history := (list request).

(** The backend: what it answers to a request, given everything it was asked
    before.  [inl] is the SDK call's error, [inr] its output (the upload id of
    CreateMultipartUpload, the ETag of UploadPart and UploadPartCopy). *)
Record S3 : Type := mkS3 {
  GetObject : history -> GetObjectInput -> error + Body;
  HeadObject : history -> HeadObjectInput -> error + HeadObjectOutput;
  ListObjects : history -> ListObjectsInput -> error + ListObjectsOutput;
  ListObjectsV2PagesWithContext : history -> ListObjectsV2Input -> ListObjectsV2Pages;
  CopyObject : history -> CopyObjectInput -> error + unit;
  CreateMultipartUpload : history -> CreateMultipartUploadInput -> error + string;
  UploadPartCopy : history -> UploadPartCopyInput -> error + string;
  UploadPart : history -> UploadPartInput -> error + string;
  CompleteMultipartUpload : history -> CompleteMultipartUploadInput -> error + unit;
  AbortMultipartUpload : history -> AbortMultipartUploadInput -> error + unit
}.

(** ** The driver *)

Definition minChunkSize : Z := Z.shiftl 5 20.
Definition maxChunkSize : Z := Z.shiftl 5 30.
Definition defaultChunkSize : Z := 2 * minChunkSize.
Definition defaultMultipartCopyChunkSize : Z := Z.shiftl 32 20.
Definition defaultMultipartCopyMaxConcurrency : Z := 100.
Definition defaultMultipartCopyThresholdSize : Z := Z.shiftl 32 20.
Definition listMax : Z := 1000.
Definition noStorageClass : string := "NONE".

Record driver : Type := mkDriver {
  S3client : S3;
  Bucket : string;
  ChunkSize : Z;
  Encrypt : bool;
  KeyID : string;
  MultipartCopyChunkSize : Z;
  MultipartCopyMaxConcurrency : Z;
  MultipartCopyThresholdSize : Z;
  RootDirectory : string;
  StorageClass : string;
  ObjectACL : string
}.

Definition s3Path (d : driver) (path : string) : string :=
  TrimLeft (TrimRight (RootDirectory d) "/" +:+ path) "/".

Definition getEncryptionMode (d : driver) : option string :=
  if negb (Encrypt d) then None
  else if String.eqb (KeyID d) "" then Some "AES256"
  else Some "aws:kms".

Definition getSSEKMSKeyID (d : driver) : option string :=
  if negb (String.eqb (KeyID d) "") then Some (KeyID d) else None.

Definition getContentType (d : driver) : option string :=
  Some "application/octet-stream".

Definition getACL (d : driver) : option string := Some (ObjectACL d).

Definition getStorageClass (d : driver) : option string :=
  if String.eqb (StorageClass d) noStorageClass then None
  else Some (StorageClass d).

(** ** Reader *)

(** An [io.ReadCloser]: the bytes the caller reads from it. *)
Definition Reader (d : driver) (path : string) (offset : Z) (h : history)
  : (option Body * option error) * history :=
  let input := mkGetObjectInput (Bucket d) (s3Path d path)
                 (Some ("bytes=" +:+ FormatInt offset +:+ "-")) in
  let h' := h ++ [ReqGetObject input] in
  match GetObject (S3client d) h input with
  | inl err =>
      match err with
      | AwsError code _ =>
          if String.eqb code "InvalidRange"
          then (Some (mkBody [] None), None, h')
          else (None, Some (parseError path err), h')
      | _ => (None, Some (parseError path err), h')
      end
  | inr body => (Some body, None, h')
  end.

(** ** Stat *)

Record FileInfo : Type := mkFileInfo {
  fi_Path : string;
  fi_Size : Z;
  fi_ModTime : Z;
  fi_IsDir : bool
}.

Definition Stat (d : driver) (path : string) (h : history)
  : (error + FileInfo) * history :=
  let hinput := mkHeadObjectInput (Bucket d) (s3Path d path) in
  let h1 := h ++ [ReqHeadObject hinput] in
  let viaList :=
    let linput := mkListObjectsInput (Bucket d) (s3Path d path) None (Some 1) None in
    let h2 := h1 ++ [ReqListObjects linput] in
    match ListObjects (S3client d) h1 linput with
    | inl err => (inl err, h2)
    | inr resp =>
        match loo_Contents resp with
        | [o] =>
            if negb (String.eqb (obj_Key o) (s3Path d path))
            then (inr (mkFileInfo path 0 0 true), h2)
            else (inr (mkFileInfo path (obj_Size o) (obj_LastModified o) false), h2)
        | _ =>
            match loo_CommonPrefixes resp with
            | [_] => (inr (mkFileInfo path 0 0 true), h2)
            | _ => (inl (PathNotFoundError path), h2)
            end
        end
    end in
  match HeadObject (S3client d) h hinput with
  | inr headResp =>
      match hoo_ContentLength headResp with
      | Some n =>
          let mtime := match hoo_LastModified headResp with Some t => t | None => 0 end in
          (inr (mkFileInfo path n mtime false), h1)
      | None => viaList
      end
  | inl _ => viaList
  end.

(** ** List *)

Fixpoint last_byte (s : string) : option ascii :=
  match s with
  | EmptyString => None
  | String c EmptyString => Some c
  | String _ s' => last_byte s'
  end.

(** [s[0:len(s)-1]]; the slice expression panics on the empty string. *)
Fixpoint drop_last_byte (s : string) : option string :=
  match s with
  | EmptyString => None
  | String c EmptyString => Some EmptyString
  | String c s' => option_map (String c) (drop_last_byte s')
  end.

(** The directory entries of one page, appended to [directories]; [None] when
    a common prefix is empty and the slice expression panics. *)
Fixpoint appendCommonPrefixes (root prefix : string) (cps : list string)
    (directories : list string) : option (list string) :=
  match cps with
  | [] => Some directories
  | commonPrefix :: rest =>
      match drop_last_byte commonPrefix with
      | None => None
      | Some cut =>
          appendCommonPrefixes root prefix rest (directories ++ [Replace1 cut root prefix])
      end
  end.

Definition listInput (d : driver) (path : string) (marker : option string)
  : ListObjectsInput :=
  mkListObjectsInput (Bucket d) (s3Path d path) (Some "/"%string) (Some listMax) marker.

(** The paging loop of List: one iteration per page. *)
Fixpoint listPages (fuel : nat) (d : driver) (path prefix : string)
    (resp : ListObjectsOutput) (files directories : list string) (h : history)
  : option (outcome (error + (list string * list string)) * history) :=
  match fuel with
  | O => None
  | S fuel' =>
      let files' :=
        files ++ map (fun key => Replace1 (obj_Key key) (s3Path d "") prefix)
                     (loo_Contents resp) in
      match appendCommonPrefixes (s3Path d "") prefix (loo_CommonPrefixes resp) directories with
      | None => Some (Panicked "slice bounds out of range", h)
      | Some directories' =>
          if loo_IsTruncated resp then
            let input := listInput d path (loo_NextMarker resp) in
            let h' := h ++ [ReqListObjects input] in
            match ListObjects (S3client d) h input with
            | inl err => Some (Returned (inl err), h')
            | inr resp' => listPages fuel' d path prefix resp' files' directories' h'
            end
          else Some (Returned (inr (files', directories')), h)
      end
  end.

(** List up to its final check: the first request and the paging loop. *)
Definition listAll (fuel : nat) (d : driver) (opath : string) (h : history)
  : option (outcome (error + (list string * list string)) * history) :=
  match last_byte opath with
  | None => Some (Panicked "index out of range", h)
  | Some c =>
      let path :=
        if negb (String.eqb opath "/") && negb (Ascii.eqb c "/"%char)
        then opath +:+ "/" else opath in
      let prefix := if String.eqb (s3Path d "") "" then "/"%string else ""%string in
      let input := listInput d path None in
      let h1 := h ++ [ReqListObjects input] in
      match ListObjects (S3client d) h input with
      | inl err => Some (Returned (inl (parseError opath err)), h1)
      | inr resp => listPages fuel d path prefix resp [] [] h1
      end
  end.

Definition List (fuel : nat) (d : driver) (opath : string) (h : history)
  : option (outcome (error + list string) * history) :=
  match listAll fuel d opath h with
  | None => None
  | Some (Panicked msg, h2) => Some (Panicked msg, h2)
  | Some (Returned (inl err), h2) => Some (Returned (inl err), h2)
  | Some (Returned (inr (files, directories)), h2) =>
      if negb (String.eqb opath "/")
         && (len files =? 0) && (len directories =? 0)
      then Some (Returned (inl (PathNotFoundError opath)), h2)
      else Some (Returned (inr (files ++ directories)), h2)
  end.

(** ** copy *)

Definition add64 (a b : Z) : Z := wrap64 (a + b).
Definition sub64 (a b : Z) : Z := wrap64 (a - b).
Definition mul64 (a b : Z) : Z := wrap64 (a * b).
Definition div64 (a b : Z) : Z := wrap64 (Z.quot a b).

(** The request goroutine [i] of a multipart copy issues. *)
Definition copyPartInput (d : driver) (sourcePath destPath uploadId : string)
    (size : Z) (i : Z) : UploadPartCopyInput :=
  let firstByte := mul64 i (MultipartCopyChunkSize d) in
  let lastByte := sub64 (add64 firstByte (MultipartCopyChunkSize d)) 1 in
  let lastByte := if lastByte >=? size then sub64 size 1 else lastByte in
  mkUploadPartCopyInput (Bucket d)
    (Bucket d +:+ "/" +:+ s3Path d sourcePath)
    (s3Path d destPath)
    (add64 i 1)
    uploadId
    (Some ("bytes=" +:+ FormatInt firstByte +:+ "-" +:+ FormatInt lastByte)).

(** The goroutines of a multipart copy, run in the order [sched] reaches
    their request: each issues its UploadPartCopy, fills its own slot of
    [completedParts] on success and sends its error on [errChan]. *)
Fixpoint copyParts (d : driver) (sourcePath destPath uploadId : string) (size : Z)
    (sched : list nat) (completedParts : list (option CompletedPart))
    (errChan : list (option error)) (h : history)
  : list (option CompletedPart) * list (option error) * history :=
  match sched with
  | [] => (completedParts, errChan, h)
  | i :: rest =>
      let input := copyPartInput d sourcePath destPath uploadId size (Z.of_nat i) in
      let h' := h ++ [ReqUploadPartCopy input] in
      match UploadPartCopy (S3client d) h input with
      | inr etag =>
          copyParts d sourcePath destPath uploadId size rest
            (<[i := Some (mkCompletedPart etag (add64 (Z.of_nat i) 1))]> completedParts)
            (errChan ++ [None]) h'
      | inl err =>
          copyParts d sourcePath destPath uploadId size rest
            completedParts (errChan ++ [Some err]) h'
      end
  end.

(** The drain loop of copy: the first error received, if any. *)
Fixpoint firstError (errChan : list (option error)) : option error :=
  match errChan with
  | [] => None
  | Some err :: _ => Some err
  | None :: rest => firstError rest
  end.

(** copy.  [sched n] is the order in which the [n] goroutines of a multipart
    copy get to run; the Go scheduler picks it.  Every goroutine sends to
    [limiter], a channel of capacity [MultipartCopyMaxConcurrency], before
    its request and receives from it afterwards: making the channel panics
    for a negative capacity, and with capacity 0 no send ever gets through,
    so that no goroutine issues its request and copy waits on [errChan] for
    ever.  The result [None] is a copy that does not return; the history
    holds the requests issued. *)
Definition copy (sched : nat -> list nat) (d : driver) (sourcePath destPath : string)
    (h : history) : option (outcome (option error)) * history :=
  match Stat d sourcePath h with
  | (inl err, h1) => (Some (Returned (Some (parseError sourcePath err))), h1)
  | (inr fileInfo, h1) =>
      if fi_Size fileInfo <=? MultipartCopyThresholdSize d then
        let input := mkCopyObjectInput (Bucket d) (s3Path d destPath)
                       (getContentType d) (getACL d) (getEncryptionMode d)
                       (getSSEKMSKeyID d) (getStorageClass d)
                       (Bucket d +:+ "/" +:+ s3Path d sourcePath) in
        let h2 := h1 ++ [ReqCopyObject input] in
        match CopyObject (S3client d) h1 input with
        | inl err => (Some (Returned (Some (parseError sourcePath err))), h2)
        | inr _ => (Some (Returned None), h2)
        end
      else
        let cinput := mkCreateMultipartUploadInput (Bucket d) (s3Path d destPath)
                        (getContentType d) (getACL d) (getEncryptionMode d)
                        (getSSEKMSKeyID d) (getStorageClass d) in
        let h2 := h1 ++ [ReqCreateMultipartUpload cinput] in
        match CreateMultipartUpload (S3client d) h1 cinput with
        | inl err => (Some (Returned (Some err)), h2)
        | inr uploadId =>
            if MultipartCopyChunkSize d =? 0
            then (Some (Panicked "integer divide by zero"), h2)
            else
              let numParts :=
                div64 (sub64 (add64 (fi_Size fileInfo) (MultipartCopyChunkSize d)) 1)
                      (MultipartCopyChunkSize d) in
              if numParts <? 0 then (Some (Panicked "makeslice: len out of range"), h2)
              else if MultipartCopyMaxConcurrency d <? 0
              then (Some (Panicked "makechan: size out of range"), h2)
              else if (MultipartCopyMaxConcurrency d =? 0) && (0 <? numParts)
              then (None, h2)
              else
                let n := Z.to_nat numParts in
                let '(completedParts, errChan, h3) :=
                  copyParts d sourcePath destPath uploadId (fi_Size fileInfo)
                    (sched n) (replicate n None) [] h2 in
                match firstError errChan with
                | Some err => (Some (Returned (Some err)), h3)
                | None =>
                    let input := mkCompleteMultipartUploadInput (Bucket d)
                                   (s3Path d destPath) uploadId completedParts in
                    let h4 := h3 ++ [ReqCompleteMultipartUpload input] in
                    match CompleteMultipartUpload (S3client d) h3 input with
                    | inl err => (Some (Returned (Some err)), h4)
                    | inr _ => (Some (Returned None), h4)
                    end
                end
        end
  end.

(** ** Walk *)

(** The loop of directoryDiff.  It ends only when the parent chain reaches
    ["/"], [prev] or a prefix of [prev]; [None] is a loop that has not ended
    within [fuel] iterations. *)
Fixpoint directoryDiff_loop (fuel : nat) (prev parent : string) (paths : list string)
  : option (list string) :=
  match fuel with
  | O => None
  | S fuel' =>
      let parent := Dir parent in
      if String.eqb parent "/" || String.eqb parent prev || HasPrefix prev parent
      then Some paths
      else directoryDiff_loop fuel' prev parent (paths ++ [parent])
  end.

Definition directoryDiff (fuel : nat) (prev current : string) : option (list string) :=
  if String.eqb prev "" || String.eqb current "" then Some []
  else option_map reverse (directoryDiff_loop fuel prev current []).

(** A Walk callback; it may keep state, so its answer can depend on the
    events it was given before. *)
Definition WalkFn : Type := list FileInfo -> FileInfo -> option error.

(** The variables the page callback of doWalk closes over. *)
Record walkState : Type := mkWalkState {
  ws_prevDir : string;
  ws_prevSkipDir : string;
  ws_retError : option error;
  ws_objectCount : Z;
  ws_events : list FileInfo
}.

(** First loop of the page callback: the walk infos of a page. *)
Fixpoint pageWalkInfos (fuel : nat) (root prefix : string) (contents : list Object)
    (prevDir : string) (walkInfos : list FileInfo)
  : option (string * list FileInfo) :=
  match contents with
  | [] => Some (prevDir, walkInfos)
  | file :: rest =>
      let filePath := Replace1 (obj_Key file) root prefix in
      match directoryDiff fuel prevDir filePath with
      | None => None
      | Some dirs =>
          let walkInfos1 := walkInfos ++ map (fun dir => mkFileInfo dir 0 0 true) dirs in
          let prevDir1 := List.last dirs prevDir in
          pageWalkInfos fuel root prefix rest prevDir1
            (walkInfos1 ++ [mkFileInfo filePath (obj_Size file) (obj_LastModified file) false])
      end
  end.

(** Second loop of the page callback: deliver the walk infos to [f].  The
    boolean is the callback's result (whether paging goes on). *)
Fixpoint deliver (f : WalkFn) (walkInfos : list FileInfo) (st : walkState)
  : bool * walkState :=
  match walkInfos with
  | [] => (true, st)
  | walkInfo :: rest =>
      if negb (String.eqb (ws_prevSkipDir st) "")
         && HasPrefix (fi_Path walkInfo) (ws_prevSkipDir st)
      then deliver f rest st
      else
        let err := f (ws_events st) walkInfo in
        let st1 := mkWalkState (ws_prevDir st) (ws_prevSkipDir st) (ws_retError st)
                     (add64 (ws_objectCount st) 1) (ws_events st ++ [walkInfo]) in
        match err with
        | None => deliver f rest st1
        | Some ErrSkipDir =>
            if fi_IsDir walkInfo
            then deliver f rest
                   (mkWalkState (ws_prevDir st1) (fi_Path walkInfo) (ws_retError st1)
                      (ws_objectCount st1) (ws_events st1))
            else (false, st1)
        | Some e =>
            (false, mkWalkState (ws_prevDir st1) (ws_prevSkipDir st1) (Some e)
                      (ws_objectCount st1) (ws_events st1))
        end
  end.

(** The paginator: pages are handed to the callback until it returns false;
    the listing error is reported when the pages run out. *)
Fixpoint walkPages (fuel : nat) (f : WalkFn) (root prefix : string)
    (pages : list (list Object)) (listErr : option error) (st : walkState)
  : option (option error * walkState) :=
  match pages with
  | [] => Some (listErr, st)
  | page :: rest =>
      match pageWalkInfos fuel root prefix page (ws_prevDir st) [] with
      | None => None
      | Some (prevDir', walkInfos) =>
          let st0 := mkWalkState prevDir' (ws_prevSkipDir st) (ws_retError st)
                       (ws_objectCount st) (ws_events st) in
          match deliver f walkInfos st0 with
          | (true, st1) => walkPages fuel f root prefix rest listErr st1
          | (false, st1) => Some (None, st1)
          end
      end
  end.

Definition doWalk (fuel : nat) (d : driver) (objectCount : Z) (path prefix : string)
    (f : WalkFn) (h : history) : option (option error * Z * list FileInfo * history) :=
  let prevDir := prefix +:+ path in
  let input := mkListObjectsV2Input (Bucket d) path listMax in
  let h' := h ++ [ReqListObjectsV2Pages input] in
  let listing := ListObjectsV2PagesWithContext (S3client d) h input in
  match walkPages fuel f (s3Path d "") prefix (lvp_pages listing) (lvp_err listing)
          (mkWalkState prevDir "" None objectCount []) with
  | None => None
  | Some (listObjectErr, st) =>
      match ws_retError st with
      | Some retError => Some (Some retError, ws_objectCount st, ws_events st, h')
      | None =>
          match listObjectErr with
          | Some e => Some (Some e, ws_objectCount st, ws_events st, h')
          | None => Some (None, ws_objectCount st, ws_events st, h')
          end
      end
  end.

(** Walk returns its error together with the events it delivered to [f]. *)
Definition Walk (fuel : nat) (d : driver) (from : string) (f : WalkFn) (h : history)
  : option (option error * list FileInfo * history) :=
  let path := if negb (HasSuffix from "/") then from +:+ "/" else from in
  let prefix := if String.eqb (s3Path d "") "" then "/"%string else ""%string in
  match doWalk fuel d 0 (s3Path d path) prefix f h with
  | None => None
  | Some (Some err, _, events, h') => Some (Some err, events, h')
  | Some (None, objectCount, events, h') =>
      if objectCount =? 0
      then Some (Some (PathNotFoundError from), events, h')
      else Some (None, events, h')
  end.

(** ** The writer *)

Record writer : Type := mkWriter {
  w_driver : driver;
  w_key : string;
  w_uploadID : string;
  w_parts : list Part;
  w_size : Z;
  w_readyPart : bytes;
  w_pendingPart : bytes;
  w_closed : bool;
  w_committed : bool;
  w_cancelled : bool
}.

Definition with_uploadID (v : string) (w : writer) : writer :=
  mkWriter (w_driver w) (w_key w) v (w_parts w) (w_size w) (w_readyPart w)
    (w_pendingPart w) (w_closed w) (w_committed w) (w_cancelled w).
Definition with_parts (v : list Part) (w : writer) : writer :=
  mkWriter (w_driver w) (w_key w) (w_uploadID w) v (w_size w) (w_readyPart w)
    (w_pendingPart w) (w_closed w) (w_committed w) (w_cancelled w).
Definition with_size (v : Z) (w : writer) : writer :=
  mkWriter (w_driver w) (w_key w) (w_uploadID w) (w_parts w) v (w_readyPart w)
    (w_pendingPart w) (w_closed w) (w_committed w) (w_cancelled w).
Definition with_readyPart (v : bytes) (w : writer) : writer :=
  mkWriter (w_driver w) (w_key w) (w_uploadID w) (w_parts w) (w_size w) v
    (w_pendingPart w) (w_closed w) (w_committed w) (w_cancelled w).
Definition with_pendingPart (v : bytes) (w : writer) : writer :=
  mkWriter (w_driver w) (w_key w) (w_uploadID w) (w_parts w) (w_size w) (w_readyPart w)
    v (w_closed w) (w_committed w) (w_cancelled w).
Definition with_closed (v : bool) (w : writer) : writer :=
  mkWriter (w_driver w) (w_key w) (w_uploadID w) (w_parts w) (w_size w) (w_readyPart w)
    (w_pendingPart w) v (w_committed w) (w_cancelled w).
Definition with_committed (v : bool) (w : writer) : writer :=
  mkWriter (w_driver w) (w_key w) (w_uploadID w) (w_parts w) (w_size w) (w_readyPart w)
    (w_pendingPart w) (w_closed w) v (w_cancelled w).
Definition with_cancelled (v : bool) (w : writer) : writer :=
  mkWriter (w_driver w) (w_key w) (w_uploadID w) (w_parts w) (w_size w) (w_readyPart w)
    (w_pendingPart w) (w_closed w) (w_committed w) v.

Definition newWriter (d : driver) (key uploadID : string) (parts : list Part) : writer :=
  let size := fold_left (fun size part => add64 size (part_Size part)) parts 0 in
  mkWriter d key uploadID parts size [] [] false false false.

(** [sort.Sort(completedParts)]: ascending part numbers. *)
Definition part_le (a b : CompletedPart) : Prop := cp_PartNumber a <= cp_PartNumber b.

#[global] Instance part_le_dec (a b : CompletedPart) : Decision (part_le a b).
Proof. unfold part_le. apply _. Defined.

Definition sortParts (l : list CompletedPart) : list CompletedPart :=
  merge_sort part_le l.

Definition completedOf (ps : list Part) : list CompletedPart :=
  map (fun part => mkCompletedPart (part_ETag part) (part_PartNumber part)) ps.

Definition already (what : string) : error := OtherError ("already " +:+ what).

(** flushPart flushes buffers to write a part to S3. *)
Definition flushPart (w : writer) (h : history) : option error * writer * history :=
  if (len (w_readyPart w) =? 0) && (len (w_pendingPart w) =? 0) then (None, w, h)
  else
    let d := w_driver w in
    let w1 :=
      if len (w_pendingPart w) <? ChunkSize d
      then with_pendingPart [] (with_readyPart (w_readyPart w ++ w_pendingPart w) w)
      else w in
    let partNumber := len (w_parts w1) + 1 in
    let input := mkUploadPartInput (Bucket d) (w_key w1) partNumber (w_uploadID w1)
                   (w_readyPart w1) in
    let h' := h ++ [ReqUploadPart input] in
    match UploadPart (S3client d) h input with
    | inl err => (Some (parseError (w_key w1) err), w1, h')
    | inr etag =>
        (None,
         with_pendingPart []
           (with_readyPart (w_pendingPart w1)
              (with_parts (w_parts w1 ++ [mkPart etag partNumber (len (w_readyPart w1))]) w1)),
         h')
    end.

(** The condition under which Write rebuilds the upload: there are parts and
    the [Size] of the last one is below [minChunkSize]. *)
Definition lastPartShort (w : writer) : bool :=
  match last (w_parts w) with
  | Some part => part_Size part <? minChunkSize
  | None => false
  end.

(** The body of that conditional: complete the upload, start a new one and
    carry the completed object over into it. *)
Definition smallTailRecovery (w : writer) (h : history)
  : option error * writer * history :=
  let d := w_driver w in
  let completedUploadedParts := sortParts (completedOf (w_parts w)) in
  let cinput := mkCompleteMultipartUploadInput (Bucket d) (w_key w) (w_uploadID w)
                  (map Some completedUploadedParts) in
  let h1 := h ++ [ReqCompleteMultipartUpload cinput] in
  match CompleteMultipartUpload (S3client d) h cinput with
  | inl err =>
      let ainput := mkAbortMultipartUploadInput (Bucket d) (w_key w) (w_uploadID w) in
      (Some (parseError (w_key w) err), w, h1 ++ [ReqAbortMultipartUpload ainput])
  | inr _ =>
      let minput := mkCreateMultipartUploadInput (Bucket d) (w_key w)
                      (getContentType d) (getACL d) (getEncryptionMode d) None
                      (getStorageClass d) in
      let h2 := h1 ++ [ReqCreateMultipartUpload minput] in
      match CreateMultipartUpload (S3client d) h1 minput with
      | inl err => (Some (parseError (w_key w) err), w, h2)
      | inr newID =>
          let w1 := with_uploadID newID w in
          if w_size w1 <? minChunkSize then
            let ginput := mkGetObjectInput (Bucket d) (w_key w1) None in
            let h3 := h2 ++ [ReqGetObject ginput] in
            match GetObject (S3client d) h2 ginput with
            | inl err => (Some (parseError (w_key w1) err), w1, h3)
            | inr body =>
                let w2 := with_readyPart (body_data body) (with_parts [] w1) in
                match body_err body with
                | Some err => (Some err, w2, h3)
                | None => (None, w2, h3)
                end
            end
          else
            let pinput := mkUploadPartCopyInput (Bucket d)
                            (Bucket d +:+ "/" +:+ w_key w1) (w_key w1) 1 newID None in
            let h3 := h2 ++ [ReqUploadPartCopy pinput] in
            match UploadPartCopy (S3client d) h2 pinput with
            | inl err => (Some (parseError (w_key w1) err), w1, h3)
            | inr etag => (None, with_parts [mkPart etag 1 (w_size w1)] w1, h3)
            end
      end
  end.

(** The first conditional of the loop body of Write: fill [readyPart] up to
    the chunk size.  It yields the writer, the count [n] and what is left of
    [p]. *)
Definition fillReady (p : bytes) (n : Z) (w : writer) : writer * Z * bytes :=
  let neededBytes := ChunkSize (w_driver w) - len (w_readyPart w) in
  if neededBytes >? 0 then
    if len p >=? neededBytes
    then (with_readyPart (w_readyPart w ++ take (Z.to_nat neededBytes) p) w,
          n + neededBytes, drop (Z.to_nat neededBytes) p)
    else (with_readyPart (w_readyPart w ++ p) w, n + len p, [])
  else (w, n, p).

(** The buffering loop of Write, [for len(p) > 0 { ... }], with the update of
    [w.size] at both of its exits; [n] counts the bytes taken from [p].
    [None] is a loop that has not ended within [fuel] iterations. *)
Fixpoint writeLoop (fuel : nat) (p : bytes) (n : Z) (w : writer) (h : history)
  : option ((Z * option error) * writer * history) :=
  if len p >? 0 then
    match fuel with
    | O => None
    | S fuel' =>
        let '(w1, n1, p1) := fillReady p n w in
        let neededBytes := ChunkSize (w_driver w1) - len (w_pendingPart w1) in
        if neededBytes >? 0 then
          if len p1 >=? neededBytes then
            let w2 := with_pendingPart
                        (w_pendingPart w1 ++ take (Z.to_nat neededBytes) p1) w1 in
            let n2 := n1 + neededBytes in
            let p2 := drop (Z.to_nat neededBytes) p1 in
            match flushPart w2 h with
            | (Some err, w3, h3) =>
                Some ((n2, Some err), with_size (add64 (w_size w3) n2) w3, h3)
            | (None, w3, h3) => writeLoop fuel' p2 n2 w3 h3
            end
          else
            writeLoop fuel' [] (n1 + len p1)
              (with_pendingPart (w_pendingPart w1 ++ p1) w1) h
        else writeLoop fuel' p1 n1 w1 h
    end
  else Some ((n, None), with_size (add64 (w_size w) n) w, h).

Definition Write (fuel : nat) (p : bytes) (w : writer) (h : history)
  : option ((Z * option error) * writer * history) :=
  if w_closed w then Some ((0, Some (already "closed")), w, h)
  else if w_committed w then Some ((0, Some (already "committed")), w, h)
  else if w_cancelled w then Some ((0, Some (already "cancelled")), w, h)
  else
    match (if lastPartShort w then smallTailRecovery w h else (None, w, h)) with
    | (Some err, w1, h1) => Some ((0, Some err), w1, h1)
    | (None, w1, h1) => writeLoop fuel p 0 w1 h1
    end.

Definition Size (w : writer) : Z := w_size w.

Definition Close (w : writer) (h : history) : option error * writer * history :=
  if w_closed w then (Some (already "closed"), w, h)
  else flushPart (with_closed true w) h.

Definition Cancel (w : writer) (h : history) : option error * writer * history :=
  if w_closed w then (Some (already "closed"), w, h)
  else if w_committed w then (Some (already "committed"), w, h)
  else
    let d := w_driver w in
    let w1 := with_cancelled true w in
    let input := mkAbortMultipartUploadInput (Bucket d) (w_key w1) (w_uploadID w1) in
    let h' := h ++ [ReqAbortMultipartUpload input] in
    match AbortMultipartUpload (S3client d) h input with
    | inl err => (Some (parseError (w_key w1) err), w1, h')
    | inr _ => (None, w1, h')
    end.

Definition Commit (w : writer) (h : history) : option error * writer * history :=
  if w_closed w then (Some (already "closed"), w, h)
  else if w_committed w then (Some (already "committed"), w, h)
  else if w_cancelled w then (Some (already "cancelled"), w, h)
  else
    match flushPart w h with
    | (Some err, w1, h1) => (Some err, w1, h1)
    | (None, w1, h1) =>
        let d := w_driver w1 in
        let w2 := with_committed true w1 in
        let completedUploadedParts := sortParts (completedOf (w_parts w2)) in
        let input := mkCompleteMultipartUploadInput (Bucket d) (w_key w2) (w_uploadID w2)
                       (map Some completedUploadedParts) in
        let h2 := h1 ++ [ReqCompleteMultipartUpload input] in
        match CompleteMultipartUpload (S3client d) h1 input with
        | inl err =>
            let ainput := mkAbortMultipartUploadInput (Bucket d) (w_key w2) (w_uploadID w2) in
            (Some (parseError (w_key w2) err), w2, h2 ++ [ReqAbortMultipartUpload ainput])
        | inr _ => (None, w2, h2)
        end
    end.

(** The public calls of a FileWriter, and a sequence of them run on one
    writer. *)
Inductive call : Type :=
| CallWrite (p : bytes)
| CallClose
| CallCancel
| CallCommit.

Definition exec (fuel : nat) (c : call) (w : writer) (h : history)
  : option (option error * writer * history) :=
  match c with
  | CallWrite p =>
      match Write fuel p w h with
      | Some ((_, err), w', h') => Some (err, w', h')
      | None => None
      end
  | CallClose => Some (Close w h)
  | CallCancel => Some (Cancel w h)
  | CallCommit => Some (Commit w h)
  end.

Fixpoint run (fuel : nat) (cs : list call) (w : writer) (h : history)
  : option (writer * history) :=
  match cs with
  | [] => Some (w, h)
  | c :: rest =>
      match exec fuel c w h with
      | Some (_, w', h') => run fuel rest w' h'
      | None => None
      end
  end.

(** ** Auxiliary definitions used in the statements *)

(** A run of [k] separators. *)
Fixpoint slashes (k : nat) : string :=
  match k with
  | O => EmptyString
  | S k' => String "/"%char (slashes k')
  end.

Definition first_byte (s : string) : option ascii :=
  match s with
  | EmptyString => None
  | String c _ => Some c
  end.

(** The loop of directoryDiff with the stop test as the specification words
    it: the parent is ["/"], is [prev], or [prev] starts with the parent
    followed by a separator. *)
Fixpoint directoryDiff_claimed_loop (fuel : nat) (prev parent : string)
    (paths : list string) : option (list string) :=
  match fuel with
  | O => None
  | S fuel' =>
      let parent := Dir parent in
      if String.eqb parent "/" || String.eqb parent prev
         || HasPrefix prev (parent +:+ "/")
      then Some paths
      else directoryDiff_claimed_loop fuel' prev parent (paths ++ [parent])
  end.

Definition directoryDiff_claimed (fuel : nat) (prev current : string)
  : option (list string) :=
  if String.eqb prev "" || String.eqb current "" then Some []
  else option_map reverse (directoryDiff_claimed_loop fuel prev current []).

(** ** Example backends and drivers *)

(** A backend that holds nothing: reads and HEADs fail with NoSuchKey,
    listings are empty, and every other request succeeds; upload ids and
    ETags are numbered by the length of the history. *)
Definition emptyS3 : S3 :=
  mkS3 (fun _ _ => inl (AwsError "NoSuchKey" ""))
       (fun _ _ => inl (AwsError "NotFound" ""))
       (fun _ _ => inr (mkListObjectsOutput [] [] false None))
       (fun _ _ => mkListObjectsV2Pages [] None)
       (fun _ _ => inr tt)
       (fun h _ => inr ("upload-" +:+ FormatInt (len h)))
       (fun h _ => inr ("etag-" +:+ FormatInt (len h)))
       (fun h _ => inr ("etag-" +:+ FormatInt (len h)))
       (fun _ _ => inr tt)
       (fun _ _ => inr tt).

Definition exampleDriver (s3 : S3) (chunk : Z) (root : string) : driver :=
  mkDriver s3 "bucket" chunk false "" defaultMultipartCopyChunkSize
    defaultMultipartCopyMaxConcurrency defaultMultipartCopyThresholdSize
    root "STANDARD" "private".

(** A bucket with the two objects [a-b/c] and [a/x], in the order S3 lists
    them (byte order: ['-'] sorts before ['/']). *)
Definition siblingS3 : S3 :=
  mkS3 (GetObject emptyS3) (HeadObject emptyS3) (ListObjects emptyS3)
       (fun _ _ => mkListObjectsV2Pages
                     [[mkObject "a-b/c" 1 0; mkObject "a/x" 1 0]] None)
       (CopyObject emptyS3) (CreateMultipartUpload emptyS3)
       (UploadPartCopy emptyS3) (UploadPart emptyS3)
       (CompleteMultipartUpload emptyS3) (AbortMultipartUpload emptyS3).

(** A callback that accepts every event. *)
Definition acceptAll : WalkFn := fun _ _ => None.

(** A bucket in which every object is 100 MiB long. *)
Definition bigObjectS3 : S3 :=
  mkS3 (GetObject emptyS3)
       (fun _ _ => inr (mkHeadObjectOutput (Some (100 * 2 ^ 20)) (Some 0)))
       (ListObjects emptyS3) (ListObjectsV2PagesWithContext emptyS3)
       (CopyObject emptyS3) (CreateMultipartUpload emptyS3)
       (UploadPartCopy emptyS3) (UploadPart emptyS3)
       (CompleteMultipartUpload emptyS3) (AbortMultipartUpload emptyS3).

(** A schedule that runs the goroutines of a copy last to first. *)
Definition lastFirst (n : nat) : list nat := reverse (seq 0 n).

(** The part numbers listed by a completion request, slot by slot. *)
Definition partNumbers (l : list (option CompletedPart)) : list (option Z) :=
  fmap (M := list) (fmap (M := option) cp_PartNumber) l.

(** What the page callback of doWalk maintains: the counter is the number of
    events delivered to [f], and a recorded callback error was returned by
    [f] for one of them. *)
Definition walk_inv (f : WalkFn) (st : walkState) : Prop :=
  ws_objectCount st = wrap64 (len (ws_events st))
  /\ (forall e, ws_retError st = Some e ->
        ws_events st <> [] /\ exists evs ev, f evs ev = Some e).

(** ** Predicates on writers used in the statements *)

(** The three status flags of a writer. *)
Definition flags (w : writer) : bool * bool * bool :=
  (w_closed w, w_committed w, w_cancelled w).

Definition terminated (w : writer) : bool :=
  w_closed w || w_committed w || w_cancelled w.

(** The sum of the sizes of the uploaded parts. *)
Definition sumSizes (ps : list Part) : Z :=
  foldr (fun part acc => part_Size part + acc) 0 ps.

(** The buffer bounds and the size equation of the writer. *)
Definition writer_inv (w : writer) : Prop :=
  len (w_readyPart w) <= ChunkSize (w_driver w)
  /\ len (w_pendingPart w) <= ChunkSize (w_driver w)
  /\ w_size w = sumSizes (w_parts w) + len (w_readyPart w) + len (w_pendingPart w).

(** The errors with which a terminated writer rejects a call. *)
Definition already_terminated (e : error) : Prop :=
  e = already "closed" \/ e = already "committed" \/ e = already "cancelled".

Definition is_UploadPart (r : request) : Prop :=
  match r with ReqUploadPart _ => True | _ => False end.

(** A backend on which every UploadPart fails. *)
Definition failingUploadS3 : S3 :=
  mkS3 (GetObject emptyS3) (HeadObject emptyS3) (ListObjects emptyS3)
       (ListObjectsV2PagesWithContext emptyS3) (CopyObject emptyS3)
       (CreateMultipartUpload emptyS3) (UploadPartCopy emptyS3)
       (fun _ _ => inl (AwsError "InternalError" ""))
       (CompleteMultipartUpload emptyS3) (AbortMultipartUpload emptyS3).

(** A backend that holds a 3-byte object under every key. *)
Definition abcS3 : S3 :=
  mkS3 (fun _ _ => inr (mkBody [Byte.x61; Byte.x62; Byte.x63] None))
       (HeadObject emptyS3) (ListObjects emptyS3)
       (ListObjectsV2PagesWithContext emptyS3) (CopyObject emptyS3)
       (CreateMultipartUpload emptyS3) (UploadPartCopy emptyS3)
       (UploadPart emptyS3)
       (CompleteMultipartUpload emptyS3) (AbortMultipartUpload emptyS3).

Definition abc : bytes := [Byte.x61; Byte.x62; Byte.x63].
Definition def : bytes := [Byte.x64; Byte.x65; Byte.x66].

(** Every UploadPart among the requests [reqs], issued after the history [h],
    was answered with an ETag. *)
Definition answered_ok (s3 : S3) (h : history) (reqs : list request) : Prop :=
  forall pre input post,
    reqs = pre ++ ReqUploadPart input :: post ->
    exists etag, UploadPart s3 (h ++ pre) input = inr etag.

(** The loop invariant of Write.  The loop was entered with the input [p],
    the count [n], the writer [w] and the history [h]; it has since taken the
    bytes [taken] from [p], uploaded the parts [new] with the requests [reqs],
    and is now left with [p2], [n2], [w2] and [h2]. *)
Record progress (p : bytes) (n : Z) (w : writer) (h : history)
    (taken : bytes) (new : list Part) (reqs : list request)
    (p2 : bytes) (n2 : Z) (w2 : writer) (h2 : history) : Prop := mkProgress {
  pg_driver : w_driver w2 = w_driver w;
  pg_key : w_key w2 = w_key w;
  pg_uploadID : w_uploadID w2 = w_uploadID w;
  pg_flags : flags w2 = flags w;
  pg_size : w_size w2 = w_size w;
  pg_taken : p = taken ++ p2;
  pg_count : n2 = n + len taken;
  pg_parts : w_parts w2 = w_parts w ++ new;
  pg_part_sizes : Forall (fun part => ChunkSize (w_driver w) <= part_Size part) new;
  pg_sum :
    sumSizes new + len (w_readyPart w2) + len (w_pendingPart w2)
    = len (w_readyPart w) + len (w_pendingPart w) + len taken;
  pg_history : h2 = h ++ reqs;
  pg_requests : Forall is_UploadPart reqs;
  pg_answered : answered_ok (S3client (w_driver w)) h reqs;
  pg_one_request_per_part : length new = length reqs;
  pg_ready_bound :
    len (w_readyPart w) <= ChunkSize (w_driver w) ->
    len (w_readyPart w2) <= ChunkSize (w_driver w);
  pg_part_exact :
    len (w_readyPart w) <= ChunkSize (w_driver w) ->
    Forall (fun part => part_Size part = ChunkSize (w_driver w)) new;
  pg_order :
    w_pendingPart w = [] \/ ChunkSize (w_driver w) <= len (w_readyPart w) ->
    (w_pendingPart w2 = [] \/ ChunkSize (w_driver w) <= len (w_readyPart w2))
    /\ exists uploaded,
         w_readyPart w ++ w_pendingPart w ++ taken
         = uploaded ++ w_readyPart w2 ++ w_pendingPart w2
         /\ len uploaded = sumSizes new
}.

(** The number of bytes a sequence of calls writes. *)
Definition written (cs : list call) : Z :=
  foldr (fun c acc => match c with CallWrite p => len p + acc | _ => acc end) 0 cs.

(** [fuel] covers the loop of every Write of the sequence. *)
Definition fits (fuel : nat) (c : call) : Prop :=
  match c with
  | CallWrite p => (length p <= fuel)%nat
  | _ => True
  end.

(** The invariant together with what keeps it inductive along a sequence of
    calls on a backend that accepts every part: [pendingPart] is strictly
    below the chunk size, and a writer that is still open and whose last part
    is short holds nothing in its buffers and still has the size [size0] it
    was created with. *)
Definition writer_ok (d : driver) (size0 : Z) (w : writer) : Prop :=
  writer_inv w
  /\ w_driver w = d
  /\ len (w_pendingPart w) < ChunkSize d
  /\ 0 <= w_size w
  /\ (terminated w = false -> lastPartShort w = true ->
      w_readyPart w = [] /\ w_pendingPart w = [] /\ w_size w = size0).

(** A backend that answers every GetObject with InvalidRange. *)
Definition invalidRangeS3 : S3 :=
  mkS3 (fun _ _ => inl (AwsError "InvalidRange" "The requested range is not satisfiable"))
       (HeadObject emptyS3) (ListObjects emptyS3)
       (ListObjectsV2PagesWithContext emptyS3) (CopyObject emptyS3)
       (CreateMultipartUpload emptyS3) (UploadPartCopy emptyS3)
       (UploadPart emptyS3)
       (CompleteMultipartUpload emptyS3) (AbortMultipartUpload emptyS3).

(** A writer resumed on an upload whose only part holds the 3 bytes [abc]. *)
Definition resumedWriter : writer :=
  newWriter (exampleDriver abcS3 defaultChunkSize "") "key" "upload-0"
    [mkPart "etag-a" 1 3].

(** A fresh writer with a chunk size of 4 bytes on a backend that fails every
    UploadPart, and 8 bytes to write to it. *)
Definition smallChunkWriter : writer :=
  newWriter (exampleDriver failingUploadS3 4 "") "key" "upload-0" [].

Definition eightBytes : bytes := abc ++ def ++ [Byte.x67; Byte.x68].


(** ** reverse *)

(** [s[i]] on a slice; an index out of range panics ([None]). *)
Definition index {A : Type} (s : list A) (i : Z) : option A :=
  if i <? 0 then None else s !! Z.to_nat i.

(** [s[i], s[j] = s[j], s[i]]: both operands are read, then [s[i]] and
    [s[j]] are assigned in this order. *)
Definition swap {A : Type} (s : list A) (i j : Z) : option (list A) :=
  match index s j, index s i with
  | Some b, Some a => Some (<[Z.to_nat j := a]> (<[Z.to_nat i := b]> s))
  | _, _ => None
  end.

(** The loop of [reverse], [for i, j := 0, len(s)-1; i < j; i, j = i+1, j-1];
    [None] is a loop that has not ended within [fuel] iterations. *)
Fixpoint reverse_loop (fuel : nat) (s : list string) (i j : Z)
  : option (outcome (list string)) :=
  if i <? j then
    match fuel with
    | O => None
    | S fuel' =>
        match swap s i j with
        | None => Some (Panicked "index out of range")
        | Some s' => reverse_loop fuel' s' (i + 1) (j - 1)
        end
    end
  else Some (Returned s).

(** [reverse] of s3.go, which reverses a slice of strings in place (named
    apart from the list function of the same name). *)
Definition reverse_slice (fuel : nat) (s : list string) : option (outcome (list string)) :=
  reverse_loop fuel s 0 (len s - 1).

(** ** Measures used for [filepath.Clean] *)

(** The length of the elements [els] joined by separators, plus one. *)
Fixpoint weight (els : list string) : nat :=
  match els with
  | [] => 0
  | e :: rest => S (String.length e) + weight rest
  end.

(** The same, counting only the non-empty elements. *)
Fixpoint kept_weight (els : list string) : nat :=
  match els with
  | [] => 0
  | e :: rest => (if String.eqb e "" then 0 else S (String.length e)) + kept_weight rest
  end.


(** An absolute path: it begins with a separator. *)
Definition rooted (s : string) : Prop := first_byte s = Some "/"%char.

(** What directoryDiff guarantees of a directory [dir] it returns for the
    paths [prev] and [current]. *)
Definition diffDir (prev current dir : string) : Prop :=
  rooted dir /\ dir <> "/"%string /\ HasPrefix prev dir = false
  /\ (String.length dir < String.length current)%nat.

Definition shorter (a b : string) : Prop := (String.length a < String.length b)%nat.

(** ** Walk: auxiliary definitions *)

(** The name under which List and Walk report a key. *)
Definition listedName (d : driver) (key : string) : string :=
  Replace1 key (s3Path d "") (if String.eqb (s3Path d "") "" then "/" else "").

(** The event Walk delivers for a listed object. *)
Definition fileEvent (d : driver) (o : Object) : FileInfo :=
  mkFileInfo (listedName d (obj_Key o)) (obj_Size o) (obj_LastModified o) false.

(** A listing that Walk gets through with [fuel] iterations of the loop of
    directoryDiff per object: every reported name is absolute and at most
    [fuel] bytes long. *)
Definition walkable (fuel : nat) (d : driver) (pages : list (list Object)) : Prop :=
  Forall (Forall (fun o => rooted (listedName d (obj_Key o))
                           /\ (String.length (listedName d (obj_Key o)) <= fuel)%nat))
         pages.

(** The request Walk sends for the path [from]. *)
Definition walkInput (d : driver) (from : string) : ListObjectsV2Input :=
  mkListObjectsV2Input (Bucket d)
    (s3Path d (if negb (HasSuffix from "/") then from +:+ "/" else from)) listMax.

(** The answer of the callback to the event [ev], given after the events
    [evs], lets the walk go on: it is nil, or ErrSkipDir for a directory. *)
Definition goes_on (f : WalkFn) (evs : list FileInfo) (ev : FileInfo) : Prop :=
  f evs ev = None \/ (f evs ev = Some ErrSkipDir /\ fi_IsDir ev = true).

(** The directory most recently skipped by the callback among the events
    [evs], delivered after the events [before]; [dir] if there is none. *)
Fixpoint skipped (f : WalkFn) (before evs : list FileInfo) (dir : string) : string :=
  match evs with
  | [] => dir
  | ev :: rest =>
      skipped f (before ++ [ev]) rest
        (match f before ev with
         | Some ErrSkipDir => if fi_IsDir ev then fi_Path ev else dir
         | _ => dir
         end)
  end.

(** Every event delivered so far let the walk go on. *)
Definition walk_steady (f : WalkFn) (st : walkState) : Prop :=
  ws_retError st = None
  /\ forall evs ev rest, ws_events st = evs ++ ev :: rest -> goes_on f evs ev.

(** The callback has ended the walk at the last event delivered. *)
Definition walk_stopped (f : WalkFn) (st : walkState) : Prop :=
  exists evs ev e,
    ws_events st = evs ++ [ev]
    /\ (forall pre x post, evs = pre ++ x :: post -> goes_on f pre x)
    /\ f evs ev = Some e
    /\ ((e = ErrSkipDir /\ fi_IsDir ev = false /\ ws_retError st = None)
        \/ (e <> ErrSkipDir /\ ws_retError st = Some e)).

(** No event was delivered under the directory skipped most recently before
    it. *)
Definition walk_skips (f : WalkFn) (st : walkState) : Prop :=
  ws_prevSkipDir st = skipped f [] (ws_events st) ""
  /\ forall evs ev rest,
       ws_events st = evs ++ ev :: rest ->
       skipped f [] evs "" = ""%string
       \/ HasPrefix (fi_Path ev) (skipped f [] evs "") = false.

(** ** The writer: auxiliary definitions for the uploaded data *)

(** The UploadPart requests of an upload for the bodies [bodies], numbered
    from [k]. *)
Fixpoint uploadInputs (d : driver) (key uploadID : string) (k : Z) (bodies : list bytes)
  : list UploadPartInput :=
  match bodies with
  | [] => []
  | body :: rest =>
      mkUploadPartInput (Bucket d) key k uploadID body
      :: uploadInputs d key uploadID (k + 1) rest
  end.

(** The parts a writer records when the requests [inputs], issued one after
    the other from the history [h], are each answered with an ETag; [None]
    if one of them fails. *)
Fixpoint answeredParts (s3 : S3) (h : history) (inputs : list UploadPartInput)
  : option (list Part) :=
  match inputs with
  | [] => Some []
  | input :: rest =>
      match UploadPart s3 h input with
      | inl _ => None
      | inr etag =>
          option_map (cons (mkPart etag (upi_PartNumber input) (len (upi_Body input))))
            (answeredParts s3 (h ++ [ReqUploadPart input]) rest)
      end
  end.

(** The state of the buffers between two calls on a writer none of whose
    uploads has failed: [pendingPart] holds bytes only while [readyPart] is
    full, and is itself never full. *)
Definition buffers_ordered (w : writer) : Prop :=
  (w_pendingPart w = [] \/ ChunkSize (w_driver w) <= len (w_readyPart w))
  /\ len (w_readyPart w) <= ChunkSize (w_driver w)
  /\ len (w_pendingPart w) < ChunkSize (w_driver w).

(** What a writer created on the upload [(key, uploadID)] at the history
    [h0] has done with the bytes [data] written to it so far: the requests
    it has issued are the uploads of the bodies [bodies], numbered from 1 and
    each answered with an ETag; the parts it has recorded are those uploads;
    and the bodies followed by the two buffers are [data]. *)
Definition upload_so_far (d : driver) (key uploadID : string) (h0 : history)
    (data : bytes) (w : writer) (h : history) : Prop :=
  exists bodies,
    h = h0 ++ map ReqUploadPart (uploadInputs d key uploadID 1 bodies)
    /\ answeredParts (S3client d) h0 (uploadInputs d key uploadID 1 bodies)
       = Some (w_parts w)
    /\ concat bodies ++ w_readyPart w ++ w_pendingPart w = data
    /\ Forall (fun body => len body = ChunkSize d) bodies
    /\ buffers_ordered w
    /\ w_driver w = d /\ w_key w = key /\ w_uploadID w = uploadID
    /\ terminated w = false
    /\ w_size w = wrap64 (len data).


(** Walk callbacks used as examples: one that skips every directory, and one
    that fails at the first file. *)
Definition skipDirs : WalkFn :=
  fun _ ev => if fi_IsDir ev then Some ErrSkipDir else None.

Definition stopAtFile : WalkFn :=
  fun _ ev => if fi_IsDir ev then None else Some (OtherError "stop").





(** ** More of the S3 client

    The calls of the client that PutContent, Writer and Delete add to those
    above.  Their requests are kept in a log of their own, next to the
    history, and a call of this group is answered given both.  Within one
    operation of the driver the calls of the first group all come before the
    calls of this group, so that nothing an operation can observe is lost by
    keeping the two apart. *)

Record PutObjectInput : Type := mkPutObjectInput {
  poi_Bucket : string;
  poi_Key : string;
  poi_ContentType : option string;
  poi_ACL : option string;
  poi_ServerSideEncryption : option string;
  poi_SSEKMSKeyId : option string;
  poi_StorageClass : option string;
  poi_Body : bytes
}.

Record ListMultipartUploadsInput : Type := mkListMultipartUploadsInput {
  lmi_Bucket : string;
  lmi_Prefix : string
}.

Record MultipartUpload : Type := mkMultipartUpload {
  mu_Key : string;
  mu_UploadId : string
}.

Record ListPartsInput : Type := mkListPartsInput {
  lpi_Bucket : string;
  lpi_Key : string;
  lpi_UploadId : string
}.

Record DeleteObjectsInput : Type := mkDeleteObjectsInput {
  doi_Bucket : string;
  doi_Objects : list string;
  doi_Quiet : bool
}.

(** The [Errors] of a DeleteObjects answer, by their codes. *)
Record DeleteObjectsOutput : Type := mkDeleteObjectsOutput {
  deo_Errors : list string
}.

Inductive request2 : Type :=
| ReqPutObject (i : PutObjectInput)
| ReqListMultipartUploads (i : ListMultipartUploadsInput)
| ReqListParts (i : ListPartsInput)
| ReqDeleteObjects (i : DeleteObjectsInput).

(** The requests of this group issued so far, oldest first. *)
Abbreviation log := (list request2).

Record S3more : Type := mkS3more {
  PutObject : history -> log -> PutObjectInput -> error + unit;
  ListMultipartUploads :
    history -> log -> ListMultipartUploadsInput -> error + list MultipartUpload;
  ListParts : history -> log -> ListPartsInput -> error + list Part;
  DeleteObjects : history -> log -> DeleteObjectsInput -> error + DeleteObjectsOutput
}.

(** ** GetContent and PutContent *)

(** [ioutil.ReadAll] on the reader: the bytes read and the error, if any,
    that ended the read. *)
Definition GetContent (d : driver) (path : string) (h : history)
  : (bytes * option error) * history :=
  match Reader d path 0 h with
  | (_, Some err, h') => ([], Some err, h')
  | (Some reader, None, h') => (body_data reader, body_err reader, h')
  | (None, None, h') => ([], None, h')
  end.

Definition PutContent (x : S3more) (d : driver) (path : string) (contents : bytes)
    (h : history) (l : log) : option error * log :=
  let input := mkPutObjectInput (Bucket d) (s3Path d path) (getContentType d)
                 (getACL d) (getEncryptionMode d) (getSSEKMSKeyID d)
                 (getStorageClass d) contents in
  match PutObject x h l input with
  | inl err => (Some (parseError path err), l ++ [ReqPutObject input])
  | inr _ => (None, l ++ [ReqPutObject input])
  end.

(** ** Writer *)

(** The loop of Writer over the uploads listed: the first upload whose key
    is [key] is resumed. *)
Fixpoint resumeUpload (x : S3more) (d : driver) (path key : string)
    (uploads : list MultipartUpload) (h : history) (l : log)
  : (error + writer) * log :=
  match uploads with
  | [] => (inl (PathNotFoundError path), l)
  | multi :: rest =>
      if negb (String.eqb key (mu_Key multi)) then resumeUpload x d path key rest h l
      else
        let input := mkListPartsInput (Bucket d) key (mu_UploadId multi) in
        match ListParts x h l input with
        | inl err => (inl (parseError path err), l ++ [ReqListParts input])
        | inr parts =>
            (inr (newWriter d key (mu_UploadId multi) parts), l ++ [ReqListParts input])
        end
  end.

Definition Writer (x : S3more) (d : driver) (path : string) (append : bool)
    (h : history) (l : log) : (error + writer) * history * log :=
  let key := s3Path d path in
  if negb append then
    let input := mkCreateMultipartUploadInput (Bucket d) key (getContentType d)
                   (getACL d) (getEncryptionMode d) (getSSEKMSKeyID d)
                   (getStorageClass d) in
    match CreateMultipartUpload (S3client d) h input with
    | inl err => (inl err, h ++ [ReqCreateMultipartUpload input], l)
    | inr uploadId =>
        (inr (newWriter d key uploadId []), h ++ [ReqCreateMultipartUpload input], l)
    end
  else
    let input := mkListMultipartUploadsInput (Bucket d) key in
    match ListMultipartUploads x h l input with
    | inl err => (inl (parseError path err), h, l ++ [ReqListMultipartUploads input])
    | inr uploads =>
        let '(r, l') := resumeUpload x d path key uploads h
                          (l ++ [ReqListMultipartUploads input]) in
        (r, h, l')
    end.

(** ** Delete and Move *)

Definition min (a b : Z) : Z := if a <? b then a else b.

(** The listing loop of Delete, [ListLoop]; it ends at a listing error, at
    an empty page and at a page that is not truncated.  [None] is a loop that
    has not ended within [fuel] pages. *)
Fixpoint deleteListLoop (fuel : nat) (d : driver) (prefix : string)
    (marker : option string) (s3Objects : list string) (h : history)
  : option (list string * history) :=
  match fuel with
  | O => None
  | S fuel' =>
      let input := mkListObjectsInput (Bucket d) prefix None None marker in
      let h' := h ++ [ReqListObjects input] in
      match ListObjects (S3client d) h input with
      | inl _ => Some (s3Objects, h')
      | inr resp =>
          match last (loo_Contents resp) with
          | None => Some (s3Objects, h')
          | Some lastKey =>
              let s3Objects' := s3Objects ++ map obj_Key (loo_Contents resp) in
              if loo_IsTruncated resp
              then deleteListLoop fuel' d prefix (Some (obj_Key lastKey)) s3Objects' h'
              else Some (s3Objects', h')
          end
      end
  end.

(** [s[lo:hi]] for indices in range. *)
Definition slice {A : Type} (s : list A) (lo hi : Z) : list A :=
  take (Z.to_nat (hi - lo)) (drop (Z.to_nat lo) s).

(** The deletion loop of Delete, [for i := 0; i < total; i += 1000]. *)
Fixpoint deleteBatches (fuel : nat) (x : S3more) (d : driver) (s3Objects : list string)
    (i : Z) (h : history) (l : log) : option (option error * log) :=
  let total := len s3Objects in
  if i <? total then
    match fuel with
    | O => None
    | S fuel' =>
        let input := mkDeleteObjectsInput (Bucket d)
                       (slice s3Objects i (min (i + 1000) total)) false in
        let l' := l ++ [ReqDeleteObjects input] in
        match DeleteObjects x h l input with
        | inl err => Some (Some err, l')
        | inr output =>
            match deo_Errors output with
            | code :: _ => Some (Some (OtherError code), l')
            | [] => deleteBatches fuel' x d s3Objects (i + 1000) h l'
            end
        end
    end
  else Some (None, l).

Definition Delete (fuel : nat) (x : S3more) (d : driver) (path : string)
    (h : history) (l : log) : option (option error * history * log) :=
  match Stat d path h with
  | (inl err, h1) => Some (Some err, h1, l)
  | (inr stat, h1) =>
      let s3Objects := if negb (fi_IsDir stat) then [s3Path d path] else [] in
      match deleteListLoop fuel d (s3Path d path +:+ "/") None s3Objects h1 with
      | None => None
      | Some (s3Objects, h2) =>
          if len s3Objects =? 0 then Some (Some (PathNotFoundError path), h2, l)
          else
            match deleteBatches fuel x d s3Objects 0 h2 l with
            | None => None
            | Some (err, l') => Some (err, h2, l')
            end
      end
  end.

(** Move: copy, then Delete of the source.  [None] is a Move that does not
    return, because its copy does not or because a loop of Delete has not
    ended within [fuel] iterations. *)
Definition Move (fuel : nat) (sched : nat -> list nat) (x : S3more) (d : driver)
    (sourcePath destPath : string) (h : history) (l : log)
  : option (outcome (option error) * history * log) :=
  match copy sched d sourcePath destPath h with
  | (None, _) => None
  | (Some (Panicked reason), h1) => Some (Panicked reason, h1, l)
  | (Some (Returned (Some err)), h1) => Some (Returned (Some err), h1, l)
  | (Some (Returned None), h1) =>
      match Delete fuel x d sourcePath h1 l with
      | None => None
      | Some (err, h2, l') => Some (Returned err, h2, l')
      end
  end.

(** The DeleteObjects request of Delete for the keys [batch]. *)
Definition deleteRequest (d : driver) (batch : list string) : request2 :=
  ReqDeleteObjects (mkDeleteObjectsInput (Bucket d) batch false).

(** A client whose calls of the second group all succeed and list
    nothing. *)
Definition acceptingMore : S3more :=
  mkS3more (fun _ _ _ => inr tt)
           (fun _ _ _ => inr [])
           (fun _ _ _ => inr [])
           (fun _ _ _ => inr (mkDeleteObjectsOutput [])).

(** A bucket in which every object is 100 MiB long and every listing
    fails. *)
Definition failingListS3 : S3 :=
  mkS3 (GetObject emptyS3) (HeadObject bigObjectS3)
       (fun _ _ => inl (AwsError "InternalError" ""))
       (ListObjectsV2PagesWithContext emptyS3)
       (CopyObject emptyS3) (CreateMultipartUpload emptyS3)
       (UploadPartCopy emptyS3) (UploadPart emptyS3)
       (CompleteMultipartUpload emptyS3) (AbortMultipartUpload emptyS3).

(** A bucket in which every object is 3 bytes long and nothing is listed. *)
Definition smallObjectS3 : S3 :=
  mkS3 (GetObject abcS3)
       (fun _ _ => inr (mkHeadObjectOutput (Some 3) (Some 0)))
       (ListObjects emptyS3) (ListObjectsV2PagesWithContext emptyS3)
       (CopyObject emptyS3) (CreateMultipartUpload emptyS3)
       (UploadPartCopy emptyS3) (UploadPart emptyS3)
       (CompleteMultipartUpload emptyS3) (AbortMultipartUpload emptyS3).


(** ** Driver parameters *)

(** A value of the parameters map, by its dynamic type; [ParamOther] stands
    for a value of any other type. *)
Inductive parameter : Type :=
| ParamString (v : string)
| ParamInt64 (v : Z)
| ParamInt (v : Z)
| ParamUint (v : Z)
| ParamInt32 (v : Z)
| ParamUint32 (v : Z)
| ParamUint64 (v : Z)
| ParamOther (repr : string).

(** The three errors of getParameterAsInt64, with the values their messages
    are formatted from. *)
Inductive parameterError : Type :=
| MustBeInteger (name : string) (param : parameter)
| InvalidValue (name : string) (param : parameter)
| OutOfRange (name : string) (rv min max : Z).

(** getParameterAsInt64; [ParseInt v] is [strconv.ParseInt(v, 0, 64)],
    [None] when it returns an error.  A key that is absent from the map
    reads as nil. *)
Definition getParameterAsInt64 (ParseInt : string -> option Z)
    (parameters : gmap string parameter) (name : string) (defaultt min max : Z)
  : parameterError + Z :=
  let param := parameters !! name in
  let converted : parameterError + Z :=
    match param with
    | Some (ParamString v) =>
        match ParseInt v with
        | None => inl (MustBeInteger name (ParamString v))
        | Some vv => inr vv
        end
    | Some (ParamInt64 v) => inr v
    | Some (ParamInt v) | Some (ParamUint v) | Some (ParamInt32 v)
    | Some (ParamUint32 v) | Some (ParamUint64 v) => inr (wrap64 v)
    | None => inr defaultt
    | Some (ParamOther repr) => inl (InvalidValue name (ParamOther repr))
    end in
  match converted with
  | inl err => inl err
  | inr rv =>
      if (rv <? min) || (rv >? max) then inl (OutOfRange name rv min max)
      else inr rv
  end.

(** The four integer parameters FromParameters reads. *)
Definition chunkSizeParameter (ParseInt : string -> option Z)
    (parameters : gmap string parameter) : parameterError + Z :=
  getParameterAsInt64 ParseInt parameters "chunksize"
    defaultChunkSize minChunkSize maxChunkSize.

Definition multipartCopyChunkSizeParameter (ParseInt : string -> option Z)
    (parameters : gmap string parameter) : parameterError + Z :=
  getParameterAsInt64 ParseInt parameters "multipartcopychunksize"
    defaultMultipartCopyChunkSize minChunkSize maxChunkSize.

Definition multipartCopyMaxConcurrencyParameter (ParseInt : string -> option Z)
    (parameters : gmap string parameter) : parameterError + Z :=
  getParameterAsInt64 ParseInt parameters "multipartcopymaxconcurrency"
    defaultMultipartCopyMaxConcurrency 1 int64_max.

Definition multipartCopyThresholdSizeParameter (ParseInt : string -> option Z)
    (parameters : gmap string parameter) : parameterError + Z :=
  getParameterAsInt64 ParseInt parameters "multipartcopythresholdsize"
    defaultMultipartCopyThresholdSize 0 maxChunkSize.

(** ** Listings served in pages *)

(** The path List lists under: the path given, with a separator added
    unless it is the root or ends in one already. *)
Definition listPath (opath : string) : string :=
  match last_byte opath with
  | Some c =>
      if negb (String.eqb opath "/") && negb (Ascii.eqb c "/"%char)
      then opath +:+ "/" else opath
  | None => opath
  end.

(** The name under which List reports a common prefix: the prefix without
    its last byte, named as a key is. *)
Definition listedDirectory (d : driver) (commonPrefix : string) : option string :=
  option_map (listedName d) (drop_last_byte commonPrefix).

(** The pages [rest] follow the page [page] of a listing of [path]: [page]
    is truncated exactly when a page follows, and the backend answers the
    request for the next page, made at the history [h] with the NextMarker of
    [page], with the first of [rest]; and so on. *)
Fixpoint followsPage (d : driver) (path : string) (h : history)
    (page : ListObjectsOutput) (rest : list ListObjectsOutput) : Prop :=
  match rest with
  | [] => loo_IsTruncated page = false
  | next :: rest' =>
      loo_IsTruncated page = true
      /\ ListObjects (S3client d) h (listInput d path (loo_NextMarker page)) = inr next
      /\ followsPage d path
           (h ++ [ReqListObjects (listInput d path (loo_NextMarker page))]) next rest'
  end.

(** The requests by which List fetches the pages [pages], the first with the
    marker [marker]. *)
Fixpoint listRequests (d : driver) (path : string) (marker : option string)
    (pages : list ListObjectsOutput) : list request :=
  match pages with
  | [] => []
  | page :: rest =>
      ReqListObjects (listInput d path marker)
      :: listRequests d path (loo_NextMarker page) rest
  end.

(** The same for the listing loop of Delete, which lists without delimiter
    and page size and continues from the last key of the page before. *)
Definition deleteInput (d : driver) (prefix : string) (marker : option string)
  : ListObjectsInput :=
  mkListObjectsInput (Bucket d) prefix None None marker.

Definition lastKey (page : ListObjectsOutput) : option string :=
  option_map obj_Key (last (loo_Contents page)).

Fixpoint followsDeletePage (d : driver) (prefix : string) (h : history)
    (page : ListObjectsOutput) (rest : list ListObjectsOutput) : Prop :=
  loo_Contents page <> []
  /\ match rest with
     | [] => loo_IsTruncated page = false
     | next :: rest' =>
         loo_IsTruncated page = true
         /\ ListObjects (S3client d) h (deleteInput d prefix (lastKey page)) = inr next
         /\ followsDeletePage d prefix
              (h ++ [ReqListObjects (deleteInput d prefix (lastKey page))]) next rest'
     end.

Fixpoint deleteListRequests (d : driver) (prefix : string) (marker : option string)
    (pages : list ListObjectsOutput) : list request :=
  match pages with
  | [] => []
  | page :: rest =>
      ReqListObjects (deleteInput d prefix marker)
      :: deleteListRequests d prefix (lastKey page) rest
  end.

(** A bucket that lists the file [a/f] and the directory [a/b/] on a first
    page and the file [a/g] on a second one. *)
Definition firstPage : ListObjectsOutput :=
  mkListObjectsOutput [mkObject "a/f" 1 0] ["a/b/"%string] true (Some "a/f"%string).

Definition secondPage : ListObjectsOutput :=
  mkListObjectsOutput [mkObject "a/g" 2 0] [] false None.

Definition twoPageS3 : S3 :=
  mkS3 (GetObject emptyS3)
       (fun _ _ => inr (mkHeadObjectOutput None None))
       (fun _ i => match loi_Marker i with
                   | None => inr firstPage
                   | Some _ => inr secondPage
                   end)
       (ListObjectsV2PagesWithContext emptyS3)
       (CopyObject emptyS3) (CreateMultipartUpload emptyS3)
       (UploadPartCopy emptyS3) (UploadPart emptyS3)
       (CompleteMultipartUpload emptyS3) (AbortMultipartUpload emptyS3).

(** A key under the root of the driver: any key when the root has no key of
    its own, and otherwise a key that begins with the key of the root
    followed by a separator. *)
Definition underRoot (d : driver) (key : string) : Prop :=
  if String.eqb (s3Path d "") "" then True
  else HasPrefix key (s3Path d "" +:+ "/") = true.

(** ** Writers resumed on an upload *)


(** A driver that encrypts with the KMS key [key-1]. *)
Definition kmsDriver : driver :=
  mkDriver emptyS3 "bucket" defaultChunkSize true "key-1" defaultMultipartCopyChunkSize
    defaultMultipartCopyMaxConcurrency defaultMultipartCopyThresholdSize
    "" "STANDARD" "private".

Definition is_CreateMultipartUpload (r : request) : Prop :=
  match r with ReqCreateMultipartUpload _ => True | _ => False end.
(** What DeleteObjects has answered when Delete returns the error [e]: an
    error of the call itself, or an output with error entries, of which the
    code of the first one is returned. *)
Definition deleteFailed (answer : error + DeleteObjectsOutput) (e : error) : Prop :=
  answer = inl e
  \/ exists output code codes,
       answer = inr output /\ deo_Errors output = code :: codes
       /\ e = OtherError code.

(** DeleteObjects has accepted a batch: the call succeeded and its output
    has no error entry. *)
Definition deleteAccepted (answer : error + DeleteObjectsOutput) : Prop :=
  exists output, answer = inr output /\ deo_Errors output = [].

(** A client of the second group whose first DeleteObjects reports the two
    error entries [AccessDenied] and [InternalError], and whose later ones
    succeed. *)
Definition refusingMore : S3more :=
  mkS3more (PutObject acceptingMore) (ListMultipartUploads acceptingMore)
           (ListParts acceptingMore)
           (fun _ l _ => match l with
                         | [] => inr (mkDeleteObjectsOutput
                                        ["AccessDenied"%string; "InternalError"%string])
                         | _ => inr (mkDeleteObjectsOutput [])
                         end).

(** A bucket that holds the file [a] and lists 1000 objects under it. *)
Definition thousandKeysS3 : S3 :=
  mkS3 (GetObject emptyS3)
       (fun _ _ => inr (mkHeadObjectOutput (Some 3) (Some 0)))
       (fun _ _ => inr (mkListObjectsOutput (replicate 1000 (mkObject "a/k" 1 0))
                          [] false None))
       (ListObjectsV2PagesWithContext emptyS3)
       (CopyObject emptyS3) (CreateMultipartUpload emptyS3)
       (UploadPartCopy emptyS3) (UploadPart emptyS3)
       (CompleteMultipartUpload emptyS3) (AbortMultipartUpload emptyS3).

(** A bucket with the single object [ab]; it lists the object under every
    prefix of its key. *)
Definition abKeyS3 : S3 :=
  mkS3 (GetObject emptyS3) (HeadObject emptyS3)
       (fun _ i => inr (mkListObjectsOutput
                          (if HasPrefix "ab" (loi_Prefix i) then [mkObject "ab" 7 0]
                           else [])
                          [] false None))
       (ListObjectsV2PagesWithContext emptyS3)
       (CopyObject emptyS3) (CreateMultipartUpload emptyS3)
       (UploadPartCopy emptyS3) (UploadPart emptyS3)
       (CompleteMultipartUpload emptyS3) (AbortMultipartUpload emptyS3).
(** ** Walk under a root directory *)

(** The directories above [path], the nearest first, up to the root
    excluded: [Dir path], [Dir (Dir path)], ... *)
Fixpoint ancestors_loop (fuel : nat) (path : string) : list string :=
  match fuel with
  | O => []
  | S fuel' =>
      let parent := Dir path in
      if String.eqb parent "/" then [] else parent :: ancestors_loop fuel' parent
  end.

Definition ancestors (path : string) : list string :=
  ancestors_loop (String.length path) path.

(** The event Walk delivers for a directory. *)
Definition dirEvent (dir : string) : FileInfo := mkFileInfo dir 0 0 true.

(** A bucket that holds the single object [r/a/b/f]. *)
Definition nestedS3 : S3 :=
  mkS3 (GetObject emptyS3) (HeadObject emptyS3) (ListObjects emptyS3)
       (fun _ _ => mkListObjectsV2Pages [[mkObject "r/a/b/f" 1 0]] None)
       (CopyObject emptyS3) (CreateMultipartUpload emptyS3)
       (UploadPartCopy emptyS3) (UploadPart emptyS3)
       (CompleteMultipartUpload emptyS3) (AbortMultipartUpload emptyS3).

(** A backend on which the first UploadPart succeeds and every later one
    fails. *)
Definition secondUploadFailsS3 : S3 :=
  mkS3 (GetObject emptyS3) (HeadObject emptyS3) (ListObjects emptyS3)
       (ListObjectsV2PagesWithContext emptyS3) (CopyObject emptyS3)
       (CreateMultipartUpload emptyS3) (UploadPartCopy emptyS3)
       (fun h _ => if len h =? 0 then inr "etag-0"%string
                   else inl (AwsError "InternalError" ""))
       (CompleteMultipartUpload emptyS3) (AbortMultipartUpload emptyS3).

Definition twelveBytes : bytes := abc ++ def ++ abc ++ def.

(** * Theorems *)

(** ** Integers and strings *)

Lemma wrap64_id (z : Z) : in_int64 z -> wrap64 z = z.
Proof.
  unfold in_int64, int64_min, int64_max, wrap64. intros Hz.
  rewrite Z.mod_small by lia. lia.
Qed.


Lemma len_app {A} (l k : list A) : len (l ++ k) = len l + len k.
Proof. unfold len. rewrite length_app. lia. Qed.

Lemma len_nonneg {A} (l : list A) : 0 <= len l.
Proof. unfold len. lia. Qed.

Lemma len_nil {A} : len (@nil A) = 0.
Proof. reflexivity. Qed.

Lemma TrimLeft_slash_spec (s : string) :
  exists k, s = slashes k +:+ TrimLeft s "/"
            /\ first_byte (TrimLeft s "/") <> Some "/"%char.
Proof.
  induction s as [|c s IH].
  - exists 0%nat. split; [reflexivity | discriminate].
  - cbn [TrimLeft in_cutset]. destruct (Ascii.eqb_spec c "/"%char) as [->|Hc].
    + destruct IH as (k & Hk & Hf). exists (S k). split; [|exact Hf].
      change (String "/" s = String "/" (slashes k +:+ TrimLeft s "/")).
      by f_equal.
    + exists 0%nat. split; [reflexivity|]. cbn. congruence.
Qed.

Lemma last_byte_cons (c : ascii) (s : string) :
  s <> EmptyString -> last_byte (String c s) = last_byte s.
Proof. destruct s; [congruence | reflexivity]. Qed.

Lemma TrimRight_slash_spec (s : string) :
  exists k, s = TrimRight s "/" +:+ slashes k
            /\ last_byte (TrimRight s "/") <> Some "/"%char.
Proof.
  induction s as [|c s IH].
  - exists 0%nat. split; [reflexivity | discriminate].
  - destruct IH as (k & Hk & Hl). cbn [TrimRight].
    destruct (TrimRight s "/") as [|c' t] eqn:Ht.
    + cbn [in_cutset]. destruct (Ascii.eqb_spec c "/"%char) as [->|Hc].
      * exists (S k). split; [|discriminate].
        change (String "/" s = String "/" (slashes k)). by f_equal.
      * exists k. split; [|cbn; congruence].
        change (String c s = String c (slashes k)). by f_equal.
    + exists k. split.
      * change (String c s = String c (String c' t +:+ slashes k)). by f_equal.
      * rewrite last_byte_cons by discriminate. exact Hl.
Qed.

(** ** C7: the path mapper *)

(** C7. The key of a logical path is [root_trimmed + path] without its leading
    separators, where [root_trimmed] is the configured root without its
    trailing separators: the root is [root_trimmed] followed by separators
    only and [root_trimmed] does not end in one; [root_trimmed + path] is
    separators only followed by the key, and the key does not begin with one.
    With an empty root the key of ["/a/b"] is ["a/b"], and with root ["/r"] it
    is ["r/a/b"]. *)
Theorem s3Path_to_key :
  (forall (d : driver) (path : string),
     exists (root_trimmed : string) (k j : nat),
       RootDirectory d = root_trimmed +:+ slashes k
       /\ last_byte root_trimmed <> Some "/"%char
       /\ root_trimmed +:+ path = slashes j +:+ s3Path d path
       /\ first_byte (s3Path d path) <> Some "/"%char)
  /\ (forall d : driver, RootDirectory d = ""%string -> s3Path d "/a/b" = "a/b"%string)
  /\ (forall d : driver, RootDirectory d = "/r"%string -> s3Path d "/a/b" = "r/a/b"%string).
Proof.
  split; [|split].
  - intros d path. unfold s3Path.
    destruct (TrimRight_slash_spec (RootDirectory d)) as (k & Hk & Hl).
    destruct (TrimLeft_slash_spec (TrimRight (RootDirectory d) "/" +:+ path))
      as (j & Hj & Hf).
    exists (TrimRight (RootDirectory d) "/"), k, j. auto.
  - intros d Hd. unfold s3Path. rewrite Hd. reflexivity.
  - intros d Hd. unfold s3Path. rewrite Hd. reflexivity.
Qed.

(** ** C9: Reader *)

Lemma FormatInt_parses (z : Z) :
  option_map Z.of_int (NilZero.int_of_string (FormatInt z)) = Some z.
Proof.
  unfold FormatInt. rewrite NilZero.isi.
  - cbn. by rewrite DecimalZ.of_to.
  - destruct z; cbn; try discriminate.
    intros [=H]. by apply DecimalPos.Unsigned.to_uint_nonnil in H.
  - destruct z; cbn; try discriminate.
    intros [=H]. by apply DecimalPos.Unsigned.to_uint_nonnil in H.
Qed.

(** C9. Reader issues exactly one request, a GetObject on the key of the path
    whose range header is ["bytes=<offset>-"] with the offset in decimal (it
    parses back to the offset); when the backend answers with an error whose
    code is InvalidRange, Reader returns an empty stream and no error. *)
Theorem Reader_ranged_get (d : driver) (path : string) (offset : Z) (h : history) :
  let input := mkGetObjectInput (Bucket d) (s3Path d path)
                 (Some ("bytes=" +:+ FormatInt offset +:+ "-")) in
  snd (Reader d path offset h) = h ++ [ReqGetObject input]
  /\ option_map Z.of_int (NilZero.int_of_string (FormatInt offset)) = Some offset
  /\ (forall message,
        GetObject (S3client d) h input = inl (AwsError "InvalidRange" message) ->
        fst (Reader d path offset h) = (Some (mkBody [] None), None))
  /\ (forall body,
        GetObject (S3client d) h input = inr body ->
        fst (Reader d path offset h) = (Some body, None)).
Proof.
  intros input. unfold Reader. fold input.
  split; [|split; [apply FormatInt_parses|split]].
  - destruct (GetObject (S3client d) h input) as [[c m| | | | |]|]; try reflexivity.
    destruct (String.eqb c "InvalidRange"); reflexivity.
  - intros message ->. reflexivity.
  - intros body ->. reflexivity.
Qed.

(** ** C5: directoryDiff *)

(** C5. With [prev = "/a-b"] and [current = "/a/x"] the parent ["/a"] is
    neither ["/"] nor [prev], and [prev] does not start with ["/a/"], so the
    claimed walk collects ["/a"]; the code stops there, because it tests
    whether [prev] starts with the parent itself, and returns no directory.
    A Walk over the keys [a-b/c] and [a/x] therefore never reports the
    directory ["/a"]. *)
Theorem directoryDiff_stops_at_sibling_prefix :
  directoryDiff 3 "/a-b" "/a/x" = Some []
  /\ directoryDiff_claimed 3 "/a-b" "/a/x" = Some ["/a"%string]
  /\ Walk 3 (exampleDriver siblingS3 defaultChunkSize "") "/" acceptAll []
     = Some (None,
             [mkFileInfo "/a-b" 0 0 true;
              mkFileInfo "/a-b/c" 1 0 false;
              mkFileInfo "/a/x" 1 0 false],
             [ReqListObjectsV2Pages (mkListObjectsV2Input "bucket" "" listMax)]).
Proof. split; [|split]; vm_compute; reflexivity. Qed.

(** ** C6: copy *)

Section CopyParts.
Variables (d : driver) (sourcePath destPath uploadId : string) (size : Z).

Hypothesis part_copies_succeed :
  forall h i, exists etag, UploadPartCopy (S3client d) h i = inr etag.

Let input (i : nat) := copyPartInput d sourcePath destPath uploadId size (Z.of_nat i).

Lemma copyParts_success (sched : list nat) :
  forall (slots : list (option CompletedPart)) (errChan : list (option error))
         (h : history),
  exists slots',
    copyParts d sourcePath destPath uploadId size sched slots errChan h
    = (slots', errChan ++ replicate (length sched) None,
       h ++ map (fun i => ReqUploadPartCopy (input i)) sched)
    /\ partNumbers slots'
       = foldl (fun s i => <[i := Some (add64 (Z.of_nat i) 1)]> s)
               (partNumbers slots) sched.
Proof.
  induction sched as [|i rest IH]; intros slots errChan h.
  - exists slots. cbn. by rewrite !app_nil_r.
  - cbn [copyParts].
    destruct (part_copies_succeed h (input i)) as [etag Hetag].
    fold (input i). rewrite Hetag.
    destruct (IH (<[i := Some (mkCompletedPart etag (add64 (Z.of_nat i) 1))]> slots)
                 (errChan ++ [None]) (h ++ [ReqUploadPartCopy (input i)]))
      as (slots' & Hrun & Hnum).
    exists slots'. split.
    + rewrite Hrun. cbn [length replicate map].
      by rewrite <- !app_assoc.
    + rewrite Hnum. cbn [foldl]. unfold partNumbers.
      by rewrite list_fmap_insert.
Qed.
End CopyParts.

Lemma foldl_insert_length {A} (g : nat -> A) (sched : list nat) :
  forall s : list A, length (foldl (fun s i => <[i := g i]> s) s sched) = length s.
Proof.
  induction sched as [|i rest IH]; intros s; [reflexivity|].
  cbn [foldl]. by rewrite IH, length_insert.
Qed.

Lemma foldl_insert_lookup {A} (g : nat -> A) (sched : list nat) :
  forall (s : list A) (j : nat),
    j ∈ sched -> (j < length s)%nat ->
    foldl (fun s i => <[i := g i]> s) s sched !! j = Some (g j).
Proof.
  induction sched as [|i rest IH]; intros s j Hin Hlt.
  - by apply elem_of_nil in Hin.
  - cbn [foldl]. destruct (decide (j ∈ rest)) as [Hr|Hr].
    + apply IH; [done|]. by rewrite length_insert.
    + apply elem_of_cons in Hin as [->|?]; [|done].
      clear IH. revert s Hlt. induction rest as [|k rest IH']; intros s Hlt.
      * cbn. by apply list_lookup_insert_eq.
      * cbn [foldl]. apply not_elem_of_cons in Hr as [Hne Hr].
        rewrite list_insert_insert_ne by done.
        apply IH'; [done|]. by rewrite length_insert.
Qed.

Lemma firstError_all_nil (n : nat) : firstError (replicate n None) = None.
Proof. induction n; [reflexivity | exact IHn]. Qed.

Lemma ceil_parts (size chunk : Z) :
  0 < chunk -> 0 < size ->
  let n := (size + chunk - 1) / chunk in
  0 < n /\ (n - 1) * chunk < size /\ size <= n * chunk.
Proof.
  intros Hc Hs n.
  pose proof (Z.mul_div_le (size + chunk - 1) chunk Hc) as Hle.
  pose proof (Z.mul_succ_div_gt (size + chunk - 1) chunk Hc) as Hgt.
  fold n in Hle, Hgt. nia.
Qed.

Lemma copyPartInput_range (d : driver) (sourcePath destPath uploadId : string)
    (size : Z) (i : nat) :
  let chunk := MultipartCopyChunkSize d in
  0 < chunk -> 0 < size -> size + chunk <= int64_max ->
  Z.of_nat i < (size + chunk - 1) / chunk ->
  copyPartInput d sourcePath destPath uploadId size (Z.of_nat i)
  = mkUploadPartCopyInput (Bucket d) (Bucket d +:+ "/" +:+ s3Path d sourcePath)
      (s3Path d destPath) (Z.of_nat i + 1) uploadId
      (Some ("bytes=" +:+ FormatInt (Z.of_nat i * chunk) +:+ "-"
             +:+ FormatInt (Z.min ((Z.of_nat i + 1) * chunk - 1) (size - 1)))).
Proof.
  intros chunk Hc Hs Hmax Hi.
  destruct (ceil_parts size chunk Hc Hs) as (Hn & Hlo & Hhi).
  set (n := (size + chunk - 1) / chunk) in *.
  assert (Hfirst : 0 <= Z.of_nat i * chunk < size) by nia.
  unfold copyPartInput, mul64, add64, sub64. fold chunk.
  unfold int64_max in Hmax.
  rewrite (wrap64_id (Z.of_nat i * chunk))
    by (unfold in_int64, int64_min, int64_max; lia).
  rewrite (wrap64_id (Z.of_nat i * chunk + chunk))
    by (unfold in_int64, int64_min, int64_max; lia).
  rewrite (wrap64_id (Z.of_nat i * chunk + chunk - 1))
    by (unfold in_int64, int64_min, int64_max; lia).
  rewrite (wrap64_id (size - 1))
    by (unfold in_int64, int64_min, int64_max; lia).
  rewrite (wrap64_id (Z.of_nat i + 1))
    by (unfold in_int64, int64_min, int64_max; nia).
  replace ((Z.of_nat i + 1) * chunk - 1) with (Z.of_nat i * chunk + chunk - 1) by lia.
  destruct (Z.geb_spec (Z.of_nat i * chunk + chunk - 1) size).
  - rewrite Z.min_r by lia. reflexivity.
  - rewrite Z.min_l by lia. reflexivity.
Qed.

Lemma partNumbers_in_order (n : nat) (sched : list nat) :
  sched ≡ₚ seq 0 n -> Z.of_nat n <= int64_max ->
  foldl (fun s i => <[i := Some (add64 (Z.of_nat i) 1)]> s)
        (partNumbers (replicate n None)) sched
  = map (fun i => Some (Z.of_nat i + 1)) (seq 0 n).
Proof.
  intros Hperm Hn. apply list_eq. intros j.
  destruct (decide (j < n)%nat) as [Hj|Hj].
  - rewrite (foldl_insert_lookup (fun i => Some (add64 (Z.of_nat i) 1))).
    + change (map ?f ?l) with (f <$> l).
      rewrite list_lookup_fmap, lookup_seq_lt by done. cbn.
      unfold add64. rewrite wrap64_id; [done|].
      unfold in_int64, int64_min, int64_max in *. lia.
    + rewrite Hperm. apply elem_of_seq. lia.
    + unfold partNumbers. by rewrite length_fmap, length_replicate.
  - rewrite !lookup_ge_None_2; [done| |].
    + rewrite length_map, length_seq. lia.
    + rewrite foldl_insert_length. unfold partNumbers.
      rewrite length_fmap, length_replicate. lia.
Qed.

(** C6. Let [size] be the size Stat reports for the source.  When
    [size <= MultipartCopyThresholdSize], copy issues one CopyObject and
    nothing else.  When [size] is above the threshold, the backend accepts
    the requests and [MultipartCopyMaxConcurrency] is positive (with 0 no
    goroutine gets past the limiter, and a negative value makes the limiter
    panic), copy creates a multipart upload on the destination, issues
    [numParts = ceil(size / chunk)] UploadPartCopy requests, one per goroutine
    in whatever order they are scheduled, where part [i] (0-based) carries
    part number [i + 1] and the range
    [bytes=i*chunk-min((i+1)*chunk-1, size-1)], and then completes the upload
    with the parts numbered [1..numParts] in order.  With [size = 100 MiB] and
    [chunk = 32 MiB] there are 4 parts, of 32, 32, 32 and 4 MiB. *)
Theorem copy_multipart_layout (sched : nat -> list nat) (d : driver)
    (sourcePath destPath uploadId : string) (h h1 : history) (fileInfo : FileInfo) :
  let size := fi_Size fileInfo in
  let chunk := MultipartCopyChunkSize d in
  let numParts := (size + chunk - 1) / chunk in
  let source := Bucket d +:+ "/" +:+ s3Path d sourcePath in
  let create := mkCreateMultipartUploadInput (Bucket d) (s3Path d destPath)
                  (getContentType d) (getACL d) (getEncryptionMode d)
                  (getSSEKMSKeyID d) (getStorageClass d) in
  let part (i : nat) :=
    mkUploadPartCopyInput (Bucket d) source (s3Path d destPath) (Z.of_nat i + 1) uploadId
      (Some ("bytes=" +:+ FormatInt (Z.of_nat i * chunk) +:+ "-"
             +:+ FormatInt (Z.min ((Z.of_nat i + 1) * chunk - 1) (size - 1)))) in
  Stat d sourcePath h = (inr fileInfo, h1) ->
  0 <= MultipartCopyThresholdSize d ->
  0 < chunk ->
  size + chunk <= int64_max ->
  (forall n, sched n ≡ₚ seq 0 n) ->
  CreateMultipartUpload (S3client d) h1 create = inr uploadId ->
  (forall h' i, exists etag, UploadPartCopy (S3client d) h' i = inr etag) ->
  (size <= MultipartCopyThresholdSize d ->
     exists err,
       copy sched d sourcePath destPath h
       = (Some (Returned err),
          h1 ++ [ReqCopyObject
                   (mkCopyObjectInput (Bucket d) (s3Path d destPath) (getContentType d)
                      (getACL d) (getEncryptionMode d) (getSSEKMSKeyID d)
                      (getStorageClass d) source)]))
  /\ (MultipartCopyThresholdSize d < size ->
      0 < MultipartCopyMaxConcurrency d ->
      exists err (parts : list (option CompletedPart)),
        copy sched d sourcePath destPath h
        = (Some (Returned err),
           h1 ++ [ReqCreateMultipartUpload create]
              ++ map (fun i => ReqUploadPartCopy (part i)) (sched (Z.to_nat numParts))
              ++ [ReqCompleteMultipartUpload
                    (mkCompleteMultipartUploadInput (Bucket d) (s3Path d destPath)
                       uploadId parts)])
        /\ length (sched (Z.to_nat numParts)) = Z.to_nat numParts
        /\ partNumbers parts
           = map (fun i => Some (Z.of_nat i + 1)) (seq 0 (Z.to_nat numParts)))
  /\ (size = 100 * 2 ^ 20 -> chunk = 32 * 2 ^ 20 ->
      numParts = 4
      /\ map (fun i => upc_CopySourceRange (part i)) (seq 0 4)
         = [Some "bytes=0-33554431"%string; Some "bytes=33554432-67108863"%string;
            Some "bytes=67108864-100663295"%string;
            Some "bytes=100663296-104857599"%string]
      /\ [33554431 - 0 + 1; 67108863 - 33554432 + 1; 100663295 - 67108864 + 1;
          104857599 - 100663296 + 1]
         = [32 * 2 ^ 20; 32 * 2 ^ 20; 32 * 2 ^ 20; 4 * 2 ^ 20]).
Proof.
  intros size chunk numParts source create part HStat Hthr Hchunk Hmax Hsched Hcreate Hparts.
  split; [|split].
  - intros Hsmall. unfold copy. rewrite HStat. fold size.
    destruct (Z.leb_spec size (MultipartCopyThresholdSize d)); [|lia].
    fold source. destruct (CopyObject _ _ _); by eexists.
  - intros Hbig Hconc. assert (Hsize : 0 < size) by lia.
    destruct (ceil_parts size chunk Hchunk Hsize) as (Hn & Hlo & Hhi).
    fold numParts in Hn, Hlo, Hhi.
    unfold copy. rewrite HStat. fold size.
    destruct (Z.leb_spec size (MultipartCopyThresholdSize d)); [lia|].
    fold create. rewrite Hcreate. fold chunk.
    destruct (Z.eqb_spec chunk 0); [lia|].
    assert (HnumParts : div64 (sub64 (add64 size chunk) 1) chunk = numParts).
    { unfold div64, sub64, add64. unfold int64_max in Hmax.
      rewrite (wrap64_id (size + chunk))
        by (unfold in_int64, int64_min, int64_max; lia).
      rewrite (wrap64_id (size + chunk - 1))
        by (unfold in_int64, int64_min, int64_max; lia).
      rewrite Z.quot_div_nonneg by lia. fold numParts.
      apply wrap64_id. unfold in_int64, int64_min, int64_max. nia. }
    rewrite HnumParts.
    destruct (Z.ltb_spec numParts 0); [lia|].
    destruct (Z.ltb_spec (MultipartCopyMaxConcurrency d) 0); [lia|].
    destruct (Z.eqb_spec (MultipartCopyMaxConcurrency d) 0); [lia|]. cbn [andb].
    destruct (copyParts_success d sourcePath destPath uploadId size Hparts
                (sched (Z.to_nat numParts)) (replicate (Z.to_nat numParts) None) []
                (h1 ++ [ReqCreateMultipartUpload create]))
      as (slots' & Hrun & Hnum).
    rewrite Hrun. cbn [app]. rewrite firstError_all_nil.
    assert (Hreqs :
      map (fun i => ReqUploadPartCopy
                      (copyPartInput d sourcePath destPath uploadId size (Z.of_nat i)))
          (sched (Z.to_nat numParts))
      = map (fun i => ReqUploadPartCopy (part i)) (sched (Z.to_nat numParts))).
    { apply map_ext_in. intros i Hi. f_equal.
      apply list_elem_of_In in Hi. rewrite Hsched in Hi.
      apply elem_of_seq in Hi.
      apply copyPartInput_range; try done. fold chunk size numParts. lia. }
    rewrite Hreqs.
    assert (Hnumbers : partNumbers slots'
                       = map (fun i => Some (Z.of_nat i + 1)) (seq 0 (Z.to_nat numParts))).
    { rewrite Hnum. apply partNumbers_in_order; [apply Hsched|].
      unfold int64_max in *. nia. }
    destruct (CompleteMultipartUpload _ _ _); eexists _, slots';
      (split; [by rewrite <- !app_assoc|]);
      (split; [by rewrite Hsched, length_seq | exact Hnumbers]).
  - intros Hs Hc. subst part. cbn beta. rewrite Hs, Hc.
    subst numParts. rewrite Hs, Hc.
    split; [|split]; vm_compute; reflexivity.
Qed.

(** ** C8: empty listings *)

Lemma wrap64_add_l (a b : Z) : wrap64 (wrap64 a + b) = wrap64 (a + b).
Proof.
  unfold wrap64. f_equal.
  replace ((a + 2 ^ 63) mod 2 ^ 64 - 2 ^ 63 + b + 2 ^ 63)
    with ((a + 2 ^ 63) mod 2 ^ 64 + b) by lia.
  rewrite Zplus_mod_idemp_l. f_equal. lia.
Qed.

Section WalkEvents.
Variable f : WalkFn.

Lemma deliver_inv (walkInfos : list FileInfo) :
  forall st b st',
    walk_inv f st -> deliver f walkInfos st = (b, st') -> walk_inv f st'.
Proof.
  induction walkInfos as [|walkInfo rest IH]; intros st b st' Hinv Hrun.
  - cbn in Hrun. by inversion Hrun; subst.
  - cbn [deliver] in Hrun.
    destruct (negb (String.eqb (ws_prevSkipDir st) "")
              && HasPrefix (fi_Path walkInfo) (ws_prevSkipDir st)).
    { by eapply IH. }
    destruct Hinv as [Hcount Herr].
    assert (Hcount' : add64 (ws_objectCount st) 1
                      = wrap64 (len (ws_events st ++ [walkInfo]))).
    { unfold add64. rewrite Hcount, wrap64_add_l, len_app. reflexivity. }
    assert (Hne : ws_events st ++ [walkInfo] <> []).
    { intros Hnil. by apply app_eq_nil in Hnil as [_ ?]. }
    destruct (f (ws_events st) walkInfo) as [e|] eqn:Hf.
    + destruct e; try (inversion Hrun; subst; split; cbn;
        [exact Hcount' | intros e' [= <-]; split; [exact Hne | eauto]]).
      destruct (fi_IsDir walkInfo).
      * eapply IH; [|exact Hrun]. split; cbn; [exact Hcount'|].
        intros e' He'. destruct (Herr e' He') as [_ Hex]. by split.
      * inversion Hrun; subst. split; cbn; [exact Hcount'|].
        intros e' He'. destruct (Herr e' He') as [_ Hex]. by split.
    + eapply IH; [|exact Hrun]. split; cbn; [exact Hcount'|].
      intros e' He'. destruct (Herr e' He') as [_ Hex]. by split.
Qed.

Lemma walkPages_inv (fuel : nat) (root prefix : string) (listErr : option error)
    (pages : list (list Object)) :
  forall st err st',
    walk_inv f st ->
    walkPages fuel f root prefix pages listErr st = Some (err, st') ->
    walk_inv f st' /\ (err = None \/ err = listErr).
Proof.
  induction pages as [|page rest IH]; intros st err st' Hinv Hrun.
  - cbn in Hrun. inversion Hrun; subst. auto.
  - cbn [walkPages] in Hrun.
    destruct (pageWalkInfos fuel root prefix page (ws_prevDir st) [])
      as [[prevDir' walkInfos]|]; [|discriminate].
    destruct (deliver f walkInfos _) as [[] st1] eqn:Hdel.
    + eapply IH; [|exact Hrun]. eapply deliver_inv; [|exact Hdel]. exact Hinv.
    + inversion Hrun; subst. split; [|by left].
      eapply deliver_inv; [|exact Hdel]. exact Hinv.
Qed.

End WalkEvents.

Lemma len_zero_iff {A} (l : list A) : len l = 0 <-> l = [].
Proof.
  unfold len. split; [|by intros ->].
  destruct l; [done | cbn; lia].
Qed.

Lemma last_byte_None (s : string) : last_byte s = None -> s = ""%string.
Proof.
  induction s as [|a s IH]; [done|]. cbn.
  destruct s; [discriminate|]. intros H. specialize (IH H). discriminate.
Qed.

(** ** The writer: what each operation leaves unchanged *)

Lemma flushPart_frame (w : writer) (h : history) :
  forall e w' h',
    flushPart w h = (e, w', h') ->
    w_driver w' = w_driver w /\ w_key w' = w_key w /\ w_uploadID w' = w_uploadID w
    /\ w_size w' = w_size w /\ flags w' = flags w.
Proof.
  intros e w' h'. unfold flushPart.
  destruct (_ && _); [by intros [= <- <- <-]|].
  destruct (len (w_pendingPart w) <? ChunkSize (w_driver w));
    destruct (UploadPart _ _ _); by intros [= <- <- <-].
Qed.

Lemma smallTailRecovery_frame (w : writer) (h : history) :
  forall e w' h',
    smallTailRecovery w h = (e, w', h') ->
    w_driver w' = w_driver w /\ w_key w' = w_key w
    /\ w_size w' = w_size w /\ flags w' = flags w
    /\ w_pendingPart w' = w_pendingPart w.
Proof.
  intros e w' h'. unfold smallTailRecovery.
  destruct (CompleteMultipartUpload _ _ _); [by intros [= <- <- <-]|].
  destruct (CreateMultipartUpload _ _ _) as [|newID]; [by intros [= <- <- <-]|].
  destruct (w_size (with_uploadID newID w) <? minChunkSize).
  - destruct (GetObject _ _ _) as [|body]; [by intros [= <- <- <-]|].
    destruct (body_err body); by intros [= <- <- <-].
  - destruct (UploadPartCopy _ _ _); by intros [= <- <- <-].
Qed.

(** ** The buffering loop of Write *)

Lemma sumSizes_app (a b : list Part) : sumSizes (a ++ b) = sumSizes a + sumSizes b.
Proof.
  induction a as [|x a IH]; [reflexivity|].
  change (part_Size x + sumSizes (a ++ b) = part_Size x + sumSizes a + sumSizes b).
  lia.
Qed.

Lemma len_take {A} (k : Z) (l : list A) :
  0 <= k <= len l -> len (take (Z.to_nat k) l) = k.
Proof. unfold len. intros Hk. rewrite length_take. lia. Qed.

Lemma with_readyPart_id (w : writer) : with_readyPart (w_readyPart w) w = w.
Proof. by destruct w. Qed.
Lemma progress_refl (p : bytes) (n : Z) (w : writer) (h : history) :
  progress p n w h [] [] [] p n w h.
Proof.
  constructor; try done; try (unfold len; cbn; lia).
  - by rewrite app_nil_r.
  - by rewrite app_nil_r.
  - intros pre input post Heq. by destruct pre.
  - intros Hord. split; [done|]. exists []. by rewrite !app_nil_r.
Qed.

(** The effect of the first conditional on one iteration. *)
Lemma fillReady_spec (p : bytes) (n : Z) (w : writer) :
  exists t rest,
    p = t ++ rest
    /\ fillReady p n w = (with_readyPart (w_readyPart w ++ t) w, n + len t, rest)
    /\ (t <> [] -> len (w_readyPart w) < ChunkSize (w_driver w))
    /\ (rest <> [] -> ChunkSize (w_driver w) <= len (w_readyPart w) + len t)
    /\ (len (w_readyPart w) <= ChunkSize (w_driver w) ->
        len (w_readyPart w) + len t <= ChunkSize (w_driver w)).
Proof.
  unfold fillReady. set (chunk := ChunkSize (w_driver w)).
  pose proof (len_nonneg (w_readyPart w)) as Hr.
  destruct (Z.gtb_spec (chunk - len (w_readyPart w)) 0) as [Hneed|Hneed].
  - destruct (Z.geb_spec (len p) (chunk - len (w_readyPart w))) as [Hp|Hp].
    + exists (take (Z.to_nat (chunk - len (w_readyPart w))) p),
             (drop (Z.to_nat (chunk - len (w_readyPart w))) p).
      rewrite len_take by lia.
      split; [by rewrite take_drop|]. split; [done|].
      split; [lia|]. split; lia.
    + exists p, []. split; [by rewrite app_nil_r|]. split; [done|].
      split; [lia|]. split; [done|lia].
  - exists [], p. split; [done|]. rewrite app_nil_r, with_readyPart_id, len_nil.
    split; [by rewrite Z.add_0_r|]. split; [done|]. split; lia.
Qed.

Lemma snoc_decompose {A} (l pre post : list A) (x y : A) :
  l ++ [x] = pre ++ y :: post ->
  (post = [] /\ pre = l /\ y = x)
  \/ exists post', post = post' ++ [x] /\ l = pre ++ y :: post'.
Proof.
  destruct post as [|z post _] using rev_ind.
  - intros Heq. left. apply app_inj_tail in Heq as [-> ->]. done.
  - intros Heq. right. exists post.
    rewrite app_comm_cons, app_assoc in Heq.
    apply app_inj_tail in Heq as [-> ->]. done.
Qed.

Lemma flushPart_full (w : writer) (h : history) :
  let d := w_driver w in
  let partNumber := len (w_parts w) + 1 in
  let input := mkUploadPartInput (Bucket d) (w_key w) partNumber (w_uploadID w)
                 (w_readyPart w) in
  ChunkSize d <= len (w_pendingPart w) -> 0 < ChunkSize d ->
  flushPart w h
  = match UploadPart (S3client d) h input with
    | inl err => (Some (parseError (w_key w) err), w, h ++ [ReqUploadPart input])
    | inr etag =>
        (None,
         with_pendingPart []
           (with_readyPart (w_pendingPart w)
              (with_parts (w_parts w ++ [mkPart etag partNumber (len (w_readyPart w))]) w)),
         h ++ [ReqUploadPart input])
    end.
Proof.
  intros d partNumber input Hfull Hpos. unfold flushPart. fold d.
  destruct (Z.eqb_spec (len (w_pendingPart w)) 0) as [H0|_]; [lia|].
  rewrite andb_false_r.
  destruct (Z.ltb_spec (len (w_pendingPart w)) (ChunkSize d)); [lia|].
  reflexivity.
Qed.

Section WriteLoop.
Variables (p : bytes) (n : Z) (w : writer) (h : history).
Let chunk := ChunkSize (w_driver w).

Lemma progress_fillReady taken new reqs p2 n2 w2 h2 (t rest : bytes) :
  progress p n w h taken new reqs p2 n2 w2 h2 ->
  p2 = t ++ rest ->
  (t <> [] -> len (w_readyPart w2) < chunk) ->
  (len (w_readyPart w2) <= chunk -> len (w_readyPart w2) + len t <= chunk) ->
  progress p n w h (taken ++ t) new reqs rest (n2 + len t)
    (with_readyPart (w_readyPart w2 ++ t) w2) h2.
Proof.
  unfold chunk in *. intros [] -> Ht Hb. constructor; cbn; try done.
  - by rewrite <- app_assoc.
  - rewrite len_app. lia.
  - rewrite !len_app. lia.
  - intros Hr. rewrite len_app. lia.
  - intros Hord. destruct (pg_order0 Hord) as [Hord2 (U & HU & HlenU)].
    split.
    + destruct Hord2 as [?|?]; [by left|right]. rewrite len_app.
      pose proof (len_nonneg t). lia.
    + exists U. split; [|done].
      destruct t as [|b t]; [by rewrite !app_nil_r|].
      destruct Hord2 as [Hq|Hfull]; [|specialize (Ht ltac:(done)); lia].
      transitivity ((w_readyPart w ++ w_pendingPart w ++ taken) ++ b :: t);
        [by rewrite <- !app_assoc|].
      rewrite HU, Hq, !app_nil_r. by rewrite <- !app_assoc.
Qed.

Lemma progress_fillPending taken new reqs p2 n2 w2 h2 (t rest : bytes) :
  progress p n w h taken new reqs p2 n2 w2 h2 ->
  p2 = t ++ rest ->
  (t <> [] -> chunk <= len (w_readyPart w2)) ->
  progress p n w h (taken ++ t) new reqs rest (n2 + len t)
    (with_pendingPart (w_pendingPart w2 ++ t) w2) h2.
Proof.
  unfold chunk in *. intros [] -> Ht. constructor; cbn; try done.
  - by rewrite <- app_assoc.
  - rewrite len_app. lia.
  - rewrite !len_app. lia.
  - intros Hord. destruct (pg_order0 Hord) as [Hord2 (U & HU & HlenU)].
    split.
    + destruct t as [|b t]; [by rewrite app_nil_r|]. right. by apply Ht.
    + exists U. split; [|done].
      transitivity ((w_readyPart w ++ w_pendingPart w ++ taken) ++ t);
        [by rewrite <- !app_assoc|].
      rewrite HU. by rewrite <- !app_assoc.
Qed.

Lemma progress_flush taken new reqs p2 n2 w2 h2 (etag : string) :
  let partNumber := len (w_parts w2) + 1 in
  let input := mkUploadPartInput (Bucket (w_driver w2)) (w_key w2) partNumber
                 (w_uploadID w2) (w_readyPart w2) in
  progress p n w h taken new reqs p2 n2 w2 h2 ->
  len (w_pendingPart w2) = chunk ->
  chunk <= len (w_readyPart w2) ->
  UploadPart (S3client (w_driver w2)) h2 input = inr etag ->
  progress p n w h taken
    (new ++ [mkPart etag partNumber (len (w_readyPart w2))])
    (reqs ++ [ReqUploadPart input]) p2 n2
    (with_pendingPart []
       (with_readyPart (w_pendingPart w2)
          (with_parts (w_parts w2 ++ [mkPart etag partNumber (len (w_readyPart w2))]) w2)))
    (h2 ++ [ReqUploadPart input]).
Proof.
  intros partNumber input. unfold chunk in *. intros [] Hq Hr Hup.
  constructor; cbn; try done.
  - by rewrite pg_parts0, <- app_assoc.
  - apply Forall_app. split; [done|]. by repeat constructor.
  - rewrite sumSizes_app. cbn. unfold len in *. cbn. lia.
  - by rewrite pg_history0, <- app_assoc.
  - apply Forall_app. split; [done|]. by repeat constructor.
  - intros pre i post Heq. apply snoc_decompose in Heq
      as [(-> & -> & [= ->])|(post' & -> & Heq)].
    + exists etag. rewrite <- pg_history0, <- pg_driver0. exact Hup.
    + by eapply pg_answered0.
  - rewrite !length_app. cbn. lia.
  - intros _. lia.
  - intros Hb. apply Forall_app. split; [by apply pg_part_exact0|].
    repeat constructor. cbn. specialize (pg_ready_bound0 Hb). lia.
  - intros Hord. destruct (pg_order0 Hord) as [_ (U & HU & HlenU)].
    split; [by left|]. exists (U ++ w_readyPart w2).
    split; [by rewrite HU, app_nil_r, <- app_assoc|].
    rewrite len_app, sumSizes_app. cbn. lia.
Qed.
End WriteLoop.

Lemma len_pos_nonnil {A} (l : list A) : 0 < len l -> l <> [].
Proof. intros H ->. unfold len in H. cbn in H. lia. Qed.

Lemma len_nonpos_nil {A} (l : list A) : len l <= 0 -> l = [].
Proof. destruct l; [done|]. unfold len. cbn. lia. Qed.

Section WriteLoopExit.
Variables (p : bytes) (n : Z) (w : writer) (h : history).

Lemma writeLoop_exit (fuel : nat) :
  forall taken new reqs p2 n2 w2 h2 r w' h',
    progress p n w h taken new reqs p2 n2 w2 h2 ->
    (len (w_pendingPart w) < ChunkSize (w_driver w) ->
     len (w_pendingPart w2) < ChunkSize (w_driver w)) ->
    writeLoop fuel p2 n2 w2 h2 = Some (r, w', h') ->
    exists taken' new' reqs' rest n' w3 h3,
      progress p n w h taken' new' reqs' rest n' w3 h3
      /\ w' = with_size (add64 (w_size w3) n') w3
      /\ ((r = (n', None) /\ rest = [] /\ h' = h3
           /\ (len (w_pendingPart w) < ChunkSize (w_driver w) ->
               len (w_pendingPart w3) < ChunkSize (w_driver w)))
          \/ (exists input aerr,
                r = (n', Some (parseError (w_key w) aerr))
                /\ h' = h3 ++ [ReqUploadPart input]
                /\ UploadPart (S3client (w_driver w)) h3 input = inl aerr
                /\ upi_Body input = w_readyPart w3
                /\ len (w_pendingPart w3) = ChunkSize (w_driver w)
                /\ ChunkSize (w_driver w) <= len (w_readyPart w3)
                /\ n < n'
                /\ 0 < ChunkSize (w_driver w))).
Proof.
  assert (Hexit : forall taken new reqs p2 n2 w2 h2 r w' h',
    progress p n w h taken new reqs p2 n2 w2 h2 ->
    (len (w_pendingPart w) < ChunkSize (w_driver w) ->
     len (w_pendingPart w2) < ChunkSize (w_driver w)) ->
    len p2 <= 0 ->
    Some ((n2, None), with_size (add64 (w_size w2) n2) w2, h2) = Some (r, w', h') ->
    exists taken' new' reqs' rest n' w3 h3,
      progress p n w h taken' new' reqs' rest n' w3 h3
      /\ w' = with_size (add64 (w_size w3) n') w3
      /\ ((r = (n', None) /\ rest = [] /\ h' = h3
           /\ (len (w_pendingPart w) < ChunkSize (w_driver w) ->
               len (w_pendingPart w3) < ChunkSize (w_driver w)))
          \/ (exists input aerr,
                r = (n', Some (parseError (w_key w) aerr))
                /\ h' = h3 ++ [ReqUploadPart input]
                /\ UploadPart (S3client (w_driver w)) h3 input = inl aerr
                /\ upi_Body input = w_readyPart w3
                /\ len (w_pendingPart w3) = ChunkSize (w_driver w)
                /\ ChunkSize (w_driver w) <= len (w_readyPart w3)
                /\ n < n'
                /\ 0 < ChunkSize (w_driver w)))).
  { intros taken new reqs p2 n2 w2 h2 r w' h' Hpg Hq Hp2 Hrun.
    apply len_nonpos_nil in Hp2. subst p2. inversion Hrun; subst r w' h'.
    exists taken, new, reqs, [], n2, w2, h2.
    split; [exact Hpg|]. split; [reflexivity|]. left. by repeat split. }
  induction fuel as [|fuel IH];
    intros taken new reqs p2 n2 w2 h2 r w' h' Hpg Hq;
    cbn [writeLoop];
    destruct (Z.gtb_spec (len p2) 0) as [Hp2|Hp2]; intros Hrun;
    try discriminate;
    try (by eapply Hexit).
  clear Hexit.
  destruct (fillReady_spec p2 n2 w2) as (t & rest & Hsplit & Hfill & Ht & Hrest & Hb).
  rewrite Hfill in Hrun. cbn [w_driver w_pendingPart with_readyPart] in Hrun.
  pose proof (pg_driver _ _ _ _ _ _ _ _ _ _ _ Hpg) as Hd.
  assert (Hc : ChunkSize (w_driver w2) = ChunkSize (w_driver w)) by (by rewrite Hd).
  rewrite Hc in Ht, Hrest, Hb.
  revert Hrun.
  assert (Hpg1 := progress_fillReady p n w h taken new reqs p2 n2 w2 h2 t rest
                    Hpg Hsplit Ht Hb).
  pose proof (len_nonneg (w_pendingPart w2)) as Hq2.
  set (needed := ChunkSize (w_driver w2) - len (w_pendingPart w2)).
  assert (Hneeded : needed = ChunkSize (w_driver w) - len (w_pendingPart w2))
    by (unfold needed; by rewrite Hc).
  destruct (Z.gtb_spec needed 0) as [Hneed|Hneed].
  - destruct (Z.geb_spec (len rest) needed) as [Hlen|Hlen]; intros Hrun.
    + set (k := Z.to_nat needed) in *.
      assert (Hk : len (take k rest) = needed) by (apply len_take; lia).
      assert (Hrest_ne : rest <> []) by (apply len_pos_nonnil; lia).
      assert (Hpg2 := progress_fillPending p n w h _ _ _ _ _ _ _
                        (take k rest) (drop k rest) Hpg1
                        (eq_sym (take_drop k rest))).
      cbn [w_readyPart w_pendingPart with_readyPart] in Hpg2.
      specialize (Hpg2 ltac:(intros _; rewrite len_app; by apply Hrest)).
      rewrite Hk in Hpg2.
      match type of Hrun with
      | context [flushPart ?x h2] => set (w2b := x) in *
      end.
      assert (Hfullq : len (w_pendingPart w2b) = ChunkSize (w_driver w)).
      { subst w2b. cbn. rewrite len_app, Hk. lia. }
      assert (Hfullr : ChunkSize (w_driver w) <= len (w_readyPart w2b)).
      { subst w2b. cbn. rewrite len_app. by apply Hrest. }
      assert (Hdb : w_driver w2b = w_driver w) by (subst w2b; cbn; exact Hd).
      rewrite flushPart_full in Hrun by (rewrite Hdb; lia).
      match type of Hrun with
      | context [UploadPart _ h2 ?i] => set (input := i) in *
      end.
      destruct (UploadPart (S3client (w_driver w2b)) h2 input) as [aerr|etag] eqn:Hup.
      * inversion Hrun; subst r w' h'. clear Hrun.
        eexists _, _, _, _, _, w2b, h2. split; [exact Hpg2|]. split; [done|].
        right. exists input, aerr.
        assert (Hup' : UploadPart (S3client (w_driver w)) h2 input = inl aerr)
          by (rewrite <- Hdb; exact Hup).
        change (w_key w2b) with (w_key w2).
        rewrite (pg_key _ _ _ _ _ _ _ _ _ _ _ Hpg).
        repeat split; try done; [|lia].
        rewrite (pg_count _ _ _ _ _ _ _ _ _ _ _ Hpg1).
        pose proof (len_nonneg (taken ++ t)). lia.
      * eapply IH in Hrun; cycle 1.
        -- eapply progress_flush; [exact Hpg2|done|done|exact Hup].
        -- intros _. cbn. unfold len. cbn. lia.
        -- exact Hrun.
    + assert (Hpg2 := progress_fillPending p n w h _ _ _ _ _ _ _
                        rest [] Hpg1 (eq_sym (app_nil_r rest))).
      cbn [w_readyPart w_pendingPart with_readyPart] in Hpg2.
      specialize (Hpg2 ltac:(intros Hne; rewrite len_app; by apply Hrest)).
      eapply IH in Hrun; cycle 1; [exact Hpg2| |exact Hrun].
      intros Hlt. cbn. rewrite len_app. lia.
  - intros Hrun. eapply IH in Hrun; cycle 1; [exact Hpg1| |exact Hrun].
    intros Hlt. cbn. by apply Hq.
Qed.
End WriteLoopExit.

Lemma writeLoop_terminates (fuel : nat) :
  forall p n w h,
    len (w_pendingPart w) < ChunkSize (w_driver w) ->
    (length p <= fuel)%nat ->
    exists r, writeLoop fuel p n w h = Some r.
Proof.
  induction fuel as [|fuel IH]; intros p n w h Hq Hfuel; cbn [writeLoop];
    destruct (Z.gtb_spec (len p) 0) as [Hp|Hp]; try by eexists.
  { unfold len in Hp. lia. }
  destruct (fillReady_spec p n w) as (t & rest & Hsplit & Hfill & Ht & Hrest & Hb).
  rewrite Hfill. cbn [w_driver w_pendingPart with_readyPart].
  assert (Hlen : (length rest <= length p)%nat).
  { rewrite Hsplit, length_app. lia. }
  pose proof (len_nonneg (w_pendingPart w)) as Hq0.
  set (needed := ChunkSize (w_driver w) - len (w_pendingPart w)).
  destruct (Z.gtb_spec needed 0) as [Hneed|Hneed]; [|unfold needed in Hneed; lia].
  destruct (Z.geb_spec (len rest) needed) as [Hge|Hlt].
  - rewrite flushPart_full; cbn [w_driver w_pendingPart with_pendingPart with_readyPart].
    + destruct (UploadPart _ _ _); [by eexists|].
      apply IH; cbn; [unfold len; cbn; lia|].
      rewrite length_drop. unfold len in *. lia.
    + rewrite len_app, len_take by lia. unfold needed. lia.
    + lia.
  - apply IH; cbn; [|lia]. rewrite len_app. unfold needed in Hlt. lia.
Qed.

(** ** C1: small-tail recovery *)






(** ** C2 and C3: the status flags *)

Lemma writeLoop_frame (fuel : nat) (p : bytes) (n : Z) (w : writer) (h : history) :
  forall r w' h',
    writeLoop fuel p n w h = Some (r, w', h') ->
    w_driver w' = w_driver w /\ w_key w' = w_key w /\ flags w' = flags w.
Proof.
  intros r w' h' Hrun.
  eapply writeLoop_exit in Hrun; [|apply progress_refl|done].
  destruct Hrun as (taken & new & reqs & rest & n' & w3 & h3 & Hpg & -> & _).
  destruct Hpg. by repeat split.
Qed.

Lemma Write_frame (fuel : nat) (p : bytes) (w : writer) (h : history) :
  forall r w' h',
    Write fuel p w h = Some (r, w', h') ->
    w_driver w' = w_driver w /\ w_key w' = w_key w /\ flags w' = flags w.
Proof.
  intros r w' h'. unfold Write.
  destruct (w_closed w); [by intros [= <- <- <-]|].
  destruct (w_committed w); [by intros [= <- <- <-]|].
  destruct (w_cancelled w); [by intros [= <- <- <-]|].
  destruct (if lastPartShort w then smallTailRecovery w h else (None, w, h))
    as [[[err|] w1] h1] eqn:Hrec.
  - intros [= <- <- <-].
    destruct (lastPartShort w); [|by inversion Hrec].
    apply smallTailRecovery_frame in Hrec. tauto.
  - intros Hloop. apply writeLoop_frame in Hloop.
    destruct (lastPartShort w); [|by inversion Hrec; subst].
    apply smallTailRecovery_frame in Hrec.
    destruct Hloop as (-> & -> & ->). tauto.
Qed.

Lemma Write_terminated (w : writer) :
  terminated w = true ->
  forall fuel p h,
    exists e, already_terminated e /\ Write fuel p w h = Some ((0, Some e), w, h).
Proof.
  unfold terminated, Write, already_terminated. intros Hterm fuel p h.
  destruct (w_closed w); [eauto|].
  destruct (w_committed w); [eauto|].
  destruct (w_cancelled w); [eauto 6|discriminate].
Qed.

Lemma flags_inj (a b : writer) :
  flags a = flags b ->
  w_closed a = w_closed b /\ w_committed a = w_committed b
  /\ w_cancelled a = w_cancelled b.
Proof. unfold flags. by intros [= -> -> ->]. Qed.

Ltac flags_done := intros; repeat split; (assumption || congruence).

Lemma exec_flags (fuel : nat) (c : call) (w : writer) (h : history) :
  forall e w' h',
    exec fuel c w h = Some (e, w', h') ->
    w_committed w && w_cancelled w = false ->
    w_committed w' && w_cancelled w' = false
    /\ (w_closed w = true -> w_closed w' = true)
    /\ (w_committed w = true -> w_committed w' = true)
    /\ (w_cancelled w = true -> w_cancelled w' = true).
Proof.
  intros e w' h'. destruct c as [p| | |]; cbn [exec].
  - destruct (Write fuel p w h) as [[[[n err] w1] h1]|] eqn:HW; [|discriminate].
    intros [= <- <- <-].
    apply Write_frame in HW as (_ & _ & (-> & -> & ->)%flags_inj). flags_done.
  - intros [= HC]. unfold Close in HC.
    destruct (w_closed w) eqn:Hc; [inversion HC; subst; flags_done|].
    apply flushPart_frame in HC as (_ & _ & _ & _ & (-> & -> & ->)%flags_inj).
    cbn. intros ->. repeat split; congruence.
  - intros [= HC]. unfold Cancel in HC.
    destruct (w_closed w) eqn:Hc; [inversion HC; subst; flags_done|].
    destruct (w_committed w) eqn:Hm; [inversion HC; subst; flags_done|].
    destruct (AbortMultipartUpload _ _ _); inversion HC; subst; cbn;
      rewrite ?Hc, ?Hm; intros _; repeat split; congruence.
  - intros [= HC]. unfold Commit in HC.
    destruct (w_closed w) eqn:Hc; [inversion HC; subst; flags_done|].
    destruct (w_committed w) eqn:Hm; [inversion HC; subst; flags_done|].
    destruct (w_cancelled w) eqn:Hx; [inversion HC; subst; flags_done|].
    destruct (flushPart w h) as [[[err|] w1] h1] eqn:Hflush;
      apply flushPart_frame in Hflush as (_ & _ & _ & _ & (Hc1 & Hm1 & Hx1)%flags_inj).
    + inversion HC; subst. rewrite Hm1, Hx1, Hc1, Hc, Hm, Hx.
      intros _. repeat split; congruence.
    + destruct (CompleteMultipartUpload _ _ _); inversion HC; subst; cbn;
        rewrite ?Hc1, ?Hx1, ?Hc, ?Hx; intros _; repeat split; congruence.
Qed.

(** C2 (amended). Along every sequence of Write, Close, Cancel and Commit
    calls, [committed] and [cancelled] are never both set, a flag that is set
    stays set, and a writer with any flag set rejects every Write with an
    already-terminated error, leaving the writer and the backend untouched.
    ([closed] can be set together with [committed] or [cancelled].) *)
Theorem flags_along_calls (fuel : nat) (cs : list call) :
  forall (w : writer) (h : history) (w' : writer) (h' : history),
    w_committed w && w_cancelled w = false ->
    run fuel cs w h = Some (w', h') ->
    w_committed w' && w_cancelled w' = false
    /\ (w_closed w = true -> w_closed w' = true)
    /\ (w_committed w = true -> w_committed w' = true)
    /\ (w_cancelled w = true -> w_cancelled w' = true)
    /\ (terminated w' = true ->
        forall fuel' p h'',
          exists e, already_terminated e
                    /\ Write fuel' p w' h'' = Some ((0, Some e), w', h'')).
Proof.
  induction cs as [|c cs IH]; intros w h w' h' Hex Hrun; cbn [run] in Hrun.
  - inversion Hrun; subst. repeat split; try done. apply Write_terminated.
  - destruct (exec fuel c w h) as [[[e w1] h1]|] eqn:Hexec; [|discriminate].
    apply exec_flags in Hexec as (Hex1 & Hc & Hm & Hx); [|exact Hex].
    destruct (IH _ _ _ _ Hex1 Hrun) as (Hex' & Hc' & Hm' & Hx' & Hterm).
    repeat split; auto.
Qed.

(** C2, counterexample.  After Commit, Close is still accepted and sets
    [closed] while [committed] stays set. *)
Lemma committed_then_closed :
  exists w h,
    run 0 [CallCommit; CallClose]
        (newWriter (exampleDriver emptyS3 defaultChunkSize "") "key" "upload-0" []) []
    = Some (w, h)
    /\ w_closed w = true /\ w_committed w = true.
Proof. eexists _, _. repeat split; vm_compute; reflexivity. Qed.

(** C3 (amended). Each terminal call is guarded as follows.  On a closed
    writer Close, Cancel and Commit all fail with "already closed"; on a
    writer that is committed and not closed, Cancel and Commit fail with
    "already committed"; on a writer that is cancelled, not closed and not
    committed, Commit fails with "already cancelled".  A rejected call leaves
    the writer unchanged and issues no request.  A Close, Cancel or Commit
    that returns no error has set its flag.  Close on a writer that is not
    closed is not rejected, whatever the other flags: it sets [closed] and
    flushes. *)
Theorem terminal_guards (w : writer) (h : history) :
  (w_closed w = true ->
     Close w h = (Some (already "closed"), w, h)
     /\ Cancel w h = (Some (already "closed"), w, h)
     /\ Commit w h = (Some (already "closed"), w, h))
  /\ (w_closed w = false -> w_committed w = true ->
        Cancel w h = (Some (already "committed"), w, h)
        /\ Commit w h = (Some (already "committed"), w, h))
  /\ (w_closed w = false -> w_committed w = false -> w_cancelled w = true ->
        Commit w h = (Some (already "cancelled"), w, h))
  /\ (forall w' h', Close w h = (None, w', h') -> w_closed w' = true)
  /\ (forall w' h', Cancel w h = (None, w', h') -> w_cancelled w' = true)
  /\ (forall w' h', Commit w h = (None, w', h') -> w_committed w' = true)
  /\ (w_closed w = false -> Close w h = flushPart (with_closed true w) h).
Proof.
  unfold Close, Cancel, Commit.
  split; [|split; [|split; [|split; [|split; [|split]]]]].
  - intros ->. by repeat split.
  - intros -> ->. by repeat split.
  - by intros -> -> ->.
  - intros w' h'. destruct (w_closed w); [discriminate|].
    intros Hf.
    apply flushPart_frame in Hf as (_ & _ & _ & _ & (-> & _ & _)%flags_inj). done.
  - intros w' h'. destruct (w_closed w); [discriminate|].
    destruct (w_committed w); [discriminate|].
    destruct (AbortMultipartUpload _ _ _); [discriminate|]. by intros [= <- _].
  - intros w' h'. destruct (w_closed w); [discriminate|].
    destruct (w_committed w); [discriminate|].
    destruct (w_cancelled w); [discriminate|].
    destruct (flushPart w h) as [[[err|] w1] h1]; [discriminate|].
    destruct (CompleteMultipartUpload _ _ _); [discriminate|]. by intros [= <- _].
  - by intros ->.
Qed.

(** C3, counterexample.  A Commit that succeeded is followed by a Close that
    succeeds too, instead of failing with an already-terminated error. *)
Lemma Close_after_Commit_succeeds :
  let w0 := newWriter (exampleDriver emptyS3 defaultChunkSize "") "key" "upload-0" [] in
  fst (fst (Commit w0 [])) = None
  /\ fst (fst (Close (snd (fst (Commit w0 []))) (snd (Commit w0 [])))) = None.
Proof. split; vm_compute; reflexivity. Qed.

(** ** C10: a part upload that fails inside Write *)

Lemma smallTailRecovery_history (w : writer) (h : history) :
  forall e w1 h1,
    smallTailRecovery w h = (e, w1, h1) ->
    exists pre r, h1 = h ++ pre ++ [r] /\ ~ is_UploadPart r.
Proof.
  intros e w1 h1. unfold smallTailRecovery.
  destruct (CompleteMultipartUpload _ _ _).
  { intros [= <- <- <-]. eexists [_], _. rewrite <- app_assoc.
    split; [reflexivity | intros []]. }
  destruct (CreateMultipartUpload _ _ _) as [|newID].
  { intros [= <- <- <-]. eexists [_], _. rewrite <- app_assoc.
    split; [reflexivity | intros []]. }
  destruct (w_size (with_uploadID newID w) <? minChunkSize).
  - destruct (GetObject _ _ _) as [|body]; [|destruct (body_err body)];
      intros [= <- <- <-]; eexists [_; _], _; rewrite <- !app_assoc;
      (split; [reflexivity | intros []]).
  - destruct (UploadPartCopy _ _ _);
      intros [= <- <- <-]; eexists [_; _], _; rewrite <- !app_assoc;
      (split; [reflexivity | intros []]).
Qed.

Lemma take_len_app {A} (t rest : list A) : take (Z.to_nat (0 + len t)) (t ++ rest) = t.
Proof.
  unfold len. rewrite Z.add_0_l, Nat2Z.id. by rewrite take_app_length.
Qed.

(** C10 (amended). When the last request Write issues is an UploadPart that
    the backend fails, Write returns that error (through parseError) together
    with the number [n] of bytes it has taken from its input,
    [0 < n <= len p]; the
    writer's size has grown by exactly [n]; the bytes taken are all still in
    the writer, either in the two buffers or in parts uploaded earlier in the
    same call, and the part that failed is still [readyPart]; no status flag
    is set, so that a later Write, Close, Cancel or Commit passes its status
    check.  Write returns whenever [pendingPart] is below the chunk size when
    it is called. *)
Theorem Write_failed_upload (fuel : nat) (p : bytes) (w : writer) (h : history) :
  (len (w_pendingPart w) < ChunkSize (w_driver w) ->
   exists result, Write (length p) p w h = Some result)
  /\ forall r w' h' h0 input aerr,
      Write fuel p w h = Some (r, w', h') ->
      h' = h0 ++ [ReqUploadPart input] ->
      (length h <= length h0)%nat ->
      UploadPart (S3client (w_driver w)) h0 input = inl aerr ->
      exists n w1 h1 new,
        (if lastPartShort w then smallTailRecovery w h else (None, w, h)) = (None, w1, h1)
        /\ r = (n, Some (parseError (w_key w) aerr))
        /\ 0 < n <= len p
        /\ w_size w' = add64 (w_size w) n
        /\ (in_int64 (w_size w + n) -> w_size w' = w_size w + n)
        /\ w_parts w' = w_parts w1 ++ new
        /\ sumSizes new + len (w_readyPart w') + len (w_pendingPart w')
           = len (w_readyPart w1) + len (w_pendingPart w1) + n
        /\ (w_pendingPart w1 = [] \/ ChunkSize (w_driver w) <= len (w_readyPart w1) ->
            exists uploaded,
              w_readyPart w1 ++ w_pendingPart w1 ++ take (Z.to_nat n) p
              = uploaded ++ w_readyPart w' ++ w_pendingPart w'
              /\ len uploaded = sumSizes new)
        /\ upi_Body input = w_readyPart w'
        /\ flags w' = (false, false, false)
        /\ (forall fuel2 p2 h2,
              Write fuel2 p2 w' h2
              = match (if lastPartShort w' then smallTailRecovery w' h2
                       else (None, w', h2)) with
                | (Some err, w2, h3) => Some ((0, Some err), w2, h3)
                | (None, w2, h3) => writeLoop fuel2 p2 0 w2 h3
                end)
        /\ (forall h2, Close w' h2 = flushPart (with_closed true w') h2)
        /\ (forall h2,
              snd (Cancel w' h2)
              = h2 ++ [ReqAbortMultipartUpload
                         (mkAbortMultipartUploadInput (Bucket (w_driver w'))
                            (w_key w') (w_uploadID w'))])
        /\ (forall h2, exists i rest, snd (Commit w' h2) = h2 ++ ReqUploadPart i :: rest).
Proof.
  split.
  { intros Hq. unfold Write.
    destruct (w_closed w); [by eexists|].
    destruct (w_committed w); [by eexists|].
    destruct (w_cancelled w); [by eexists|].
    destruct (if lastPartShort w then smallTailRecovery w h else (None, w, h))
      as [[[err|] w1] h1] eqn:Hrec; [by eexists|].
    apply writeLoop_terminates; [|done].
    destruct (lastPartShort w); [|by inversion Hrec; subst].
    apply smallTailRecovery_frame in Hrec as (-> & _ & _ & _ & ->). done. }
  intros r w' h' h0 input aerr HW Hh' Hlen Hfail.
  assert (Hguard : forall (x : Z * option error),
            Some (x, w, h) = Some (r, w', h') -> False).
  { intros x [= _ _ <-]. subst h. rewrite length_app in Hlen. cbn in Hlen. lia. }
  unfold Write in HW.
  destruct (w_closed w) eqn:Hc; [by apply Hguard in HW|].
  destruct (w_committed w) eqn:Hm; [by apply Hguard in HW|].
  destruct (w_cancelled w) eqn:Hx; [by apply Hguard in HW|].
  clear Hguard.
  destruct (if lastPartShort w then smallTailRecovery w h else (None, w, h))
    as [[[err|] w1] h1] eqn:Hrec.
  { inversion HW; subst r w' h1. exfalso.
    destruct (lastPartShort w).
    - apply smallTailRecovery_history in Hrec as (pre & x & Heq & Hx').
      rewrite Hh', app_assoc in Heq. apply app_inj_tail in Heq as [_ <-].
      by apply Hx'.
    - inversion Hrec. }
  assert (Hframe : w_driver w1 = w_driver w /\ w_key w1 = w_key w
                   /\ w_size w1 = w_size w /\ flags w1 = flags w).
  { destruct (lastPartShort w); [|by inversion Hrec; subst].
    apply smallTailRecovery_frame in Hrec. tauto. }
  destruct Hframe as (Hd1 & Hk1 & Hs1 & Hf1).
  assert (Hh1 : (h1 = h \/ exists pre x, h1 = h ++ pre ++ [x] /\ ~ is_UploadPart x)).
  { destruct (lastPartShort w); [|by inversion Hrec; subst; left].
    right. by eapply smallTailRecovery_history. }
  eapply writeLoop_exit in HW; [|apply progress_refl|done].
  destruct HW as (taken & new & reqs & rest & n & w3 & h3 & Hpg & -> & Hexit).
  destruct Hpg.
  destruct Hexit as [(-> & -> & -> & _)|(input' & aerr' & -> & Heq & Hup & Hbody & Hq3 & Hr3 & Hn & Hpos)].
  - exfalso. rewrite pg_history0 in Hh'. clear pg_requests0.
    destruct reqs as [|x reqs _] using rev_ind.
    + rewrite app_nil_r in Hh'. destruct Hh1 as [->|(pre & x & -> & Hx')].
      * subst h. rewrite length_app in Hlen. cbn in Hlen. lia.
      * rewrite app_assoc in Hh'. apply app_inj_tail in Hh' as [_ ->]. by apply Hx'.
    + rewrite app_assoc in Hh'. apply app_inj_tail in Hh' as [<- ->].
      destruct (pg_answered0 reqs input [] eq_refl) as [etag Hok].
      rewrite Hd1 in Hok. congruence.
  - subst h'. apply app_inj_tail in Heq as [<- [= <-]].
    rewrite Hd1 in Hup. assert (aerr' = aerr) as -> by congruence.
    exists n, w1, h1, new. cbn [w_size w_parts w_readyPart w_pendingPart with_size].
    rewrite Hk1, Hd1 in *.
    assert (Hn' : n = 0 + len taken) by exact pg_count0.
    assert (Hnp : n <= len p).
    { rewrite pg_taken0, len_app. pose proof (len_nonneg rest). lia. }
    split; [done|]. split; [done|]. split; [lia|].
    split; [by rewrite pg_size0, Hs1|].
    split; [intros Hin; rewrite pg_size0, Hs1; by apply wrap64_id|].
    split; [done|]. split; [lia|].
    split.
    { intros Hord. destruct (pg_order0 Hord) as [_ (U & HU & HlenU)].
      exists U. split; [|done]. rewrite <- HU. do 2 f_equal.
      rewrite pg_taken0, Hn'. apply take_len_app. }
    split; [done|].
    assert (Hflags : flags (with_size (add64 (w_size w3) n) w3) = (false, false, false)).
    { change (flags (with_size (add64 (w_size w3) n) w3)) with (flags w3).
      rewrite pg_flags0, Hf1. unfold flags. by rewrite Hc, Hm, Hx. }
    split; [exact Hflags|]. unfold flags in Hflags.
    injection Hflags as Hc3 Hm3 Hx3. cbn in Hc3, Hm3, Hx3.
    split; [|split; [|split]].
    + intros fuel2 p2 h2. unfold Write. cbn [w_closed w_committed w_cancelled with_size].
      by rewrite Hc3, Hm3, Hx3.
    + intros h2. unfold Close. cbn [w_closed with_size]. by rewrite Hc3.
    + intros h2. unfold Cancel. cbn [w_closed w_committed with_size].
      rewrite Hc3, Hm3. by destruct (AbortMultipartUpload _ _ _).
    + intros h2. unfold Commit. cbn [w_closed w_committed w_cancelled with_size].
      rewrite Hc3, Hm3, Hx3.
      pose proof (len_nonneg (w_readyPart w3)).
      rewrite flushPart_full by (cbn; rewrite ?pg_driver0, ?Hd1; lia).
      cbn.
      match goal with
      | |- context [UploadPart ?a ?b ?c] => destruct (UploadPart a b c)
      end; cbn; [by eexists _, []|].
      match goal with
      | |- context [CompleteMultipartUpload ?a ?b ?c] =>
          destruct (CompleteMultipartUpload a b c)
      end; cbn; rewrite <- ?app_assoc; eexists _, _; reflexivity.
Qed.

(** A Write that finds both buffers full can take no byte and never leaves
    its loop. *)
Lemma writeLoop_full_buffers_spin (fuel : nat) :
  forall p n w h,
    ChunkSize (w_driver w) <= len (w_readyPart w) ->
    ChunkSize (w_driver w) <= len (w_pendingPart w) ->
    p <> [] ->
    writeLoop fuel p n w h = None.
Proof.
  induction fuel as [|fuel IH]; intros p n w h Hr Hq Hp; cbn [writeLoop];
    destruct (Z.gtb_spec (len p) 0) as [_|Hlen];
    try (apply len_nonpos_nil in Hlen; contradiction); [reflexivity|].
  unfold fillReady.
  destruct (Z.gtb_spec (ChunkSize (w_driver w) - len (w_readyPart w)) 0); [lia|].
  destruct (Z.gtb_spec (ChunkSize (w_driver w) - len (w_pendingPart w)) 0); [lia|].
  by apply IH.
Qed.

(** ** C4: the buffer bounds and the size equation *)

Section AcceptingBackend.
Variables (d : driver) (size0 : Z).
Hypothesis chunk_large : minChunkSize <= ChunkSize d.
Hypothesis uploads_succeed :
  forall h i, exists etag, UploadPart (S3client d) h i = inr etag.
Hypothesis object_has_size0 :
  forall h i body,
    GetObject (S3client d) h i = inr body -> len (body_data body) = size0.

Lemma minChunkSize_pos : 0 < minChunkSize.
Proof. reflexivity. Qed.

Lemma flushPart_ok (w : writer) (h : history) :
  writer_ok d size0 w ->
  exists w' h',
    flushPart w h = (None, w', h')
    /\ w_driver w' = d /\ w_size w' = w_size w /\ flags w' = flags w
    /\ w_readyPart w' = [] /\ w_pendingPart w' = []
    /\ sumSizes (w_parts w')
       = sumSizes (w_parts w) + len (w_readyPart w) + len (w_pendingPart w).
Proof.
  intros (Hinv & Hd & Hq & Hs & Hshort). unfold flushPart. rewrite Hd.
  destruct (Z.eqb_spec (len (w_readyPart w)) 0) as [Hr0|Hr0];
    [destruct (Z.eqb_spec (len (w_pendingPart w)) 0) as [Hq0|Hq0]|]; cbn [andb].
  - apply len_zero_iff in Hr0, Hq0. exists w, h.
    rewrite Hr0, Hq0. repeat split; try done. rewrite len_nil. lia.
  - destruct (Z.ltb_spec (len (w_pendingPart w)) (ChunkSize d)); [|lia].
    match goal with
    | |- context [UploadPart ?a ?b ?c] =>
        destruct (uploads_succeed b c) as [etag ->]
    end.
    eexists _, _. split; [reflexivity|]. cbn.
    repeat split; try done. rewrite sumSizes_app, len_app. cbn. lia.
  - destruct (Z.ltb_spec (len (w_pendingPart w)) (ChunkSize d)); [|lia].
    match goal with
    | |- context [UploadPart ?a ?b ?c] =>
        destruct (uploads_succeed b c) as [etag ->]
    end.
    eexists _, _. split; [reflexivity|]. cbn.
    repeat split; try done. rewrite sumSizes_app, len_app. cbn. lia.
Qed.

Lemma lastPartShort_app (w : writer) (ps new : list Part) :
  Forall (fun part => ChunkSize d <= part_Size part) new ->
  (match last ps with
   | Some part => part_Size part <? minChunkSize
   | None => false
   end) = false ->
  (match last (ps ++ new) with
   | Some part => part_Size part <? minChunkSize
   | None => false
   end) = false.
Proof.
  intros Hnew Hps. destruct new as [|x new _] using rev_ind.
  - by rewrite app_nil_r.
  - rewrite app_assoc, last_snoc. apply Forall_app in Hnew as [_ Hx].
    inversion Hx; subst. apply Z.ltb_ge. lia.
Qed.

Lemma smallTailRecovery_ok (w : writer) (h : history) :
  writer_ok d size0 w -> terminated w = false -> lastPartShort w = true ->
  forall e w1 h1,
    smallTailRecovery w h = (e, w1, h1) ->
    writer_ok d size0 w1 /\ w_size w1 = w_size w /\ flags w1 = flags w
    /\ (e = None -> lastPartShort w1 = false).
Proof.
  intros Hok Hterm Hshort e w1 h1.
  destruct Hok as (Hinv & Hd & Hq & Hs & Hbuf).
  destruct (Hbuf Hterm Hshort) as (Hr0 & Hq0 & Hsize).
  assert (Hsame : writer_ok d size0 w) by (split; [exact Hinv|by repeat split]).
  assert (Hid : forall newID, writer_ok d size0 (with_uploadID newID w)).
  { intros newID. split; [exact Hinv|by repeat split]. }
  unfold smallTailRecovery. rewrite Hd.
  destruct (CompleteMultipartUpload _ _ _);
    [intros [= <- <- <-]; (split; [exact Hsame|]); by repeat split|].
  destruct (CreateMultipartUpload _ _ _) as [|newID];
    [intros [= <- <- <-]; (split; [exact Hsame|]); by repeat split|].
  cbn [w_size with_uploadID].
  destruct (Z.ltb_spec (w_size w) minChunkSize) as [Hsmall|Hlarge].
  - destruct (GetObject _ _ _) as [|body] eqn:Hget;
      [intros [= <- <- <-]; (split; [apply Hid|]); by repeat split|].
    apply object_has_size0 in Hget.
    assert (Hnew : writer_ok d size0
                     (with_readyPart (body_data body)
                        (with_parts [] (with_uploadID newID w)))).
    { unfold writer_ok, writer_inv, terminated, lastPartShort. cbn.
      rewrite Hd, Hq0, Hget, len_nil. repeat split; try lia; discriminate. }
    destruct (body_err body); intros [= <- <- <-];
      (split; [exact Hnew|]); by repeat split.
  - destruct (UploadPartCopy _ _ _) as [|etag];
      [intros [= <- <- <-]; (split; [apply Hid|]); by repeat split|].
    intros [= <- <- <-].
    assert (Hnot : (w_size w <? minChunkSize) = false) by (apply Z.ltb_ge; lia).
    unfold writer_ok, writer_inv, terminated, lastPartShort. cbn.
    rewrite Hd, Hr0, Hq0, len_nil, Hnot. pose proof minChunkSize_pos.
    repeat split; try done; lia.
Qed.

Lemma Write_ok (fuel : nat) (p : bytes) (w : writer) (h : history) :
  writer_ok d size0 w ->
  (length p <= fuel)%nat ->
  w_size w + len p <= int64_max ->
  exists r w' h',
    Write fuel p w h = Some (r, w', h')
    /\ writer_ok d size0 w' /\ w_size w' <= w_size w + len p.
Proof.
  intros Hok Hfuel Hmax. pose proof (len_nonneg p) as Hp0.
  unfold Write.
  destruct (w_closed w) eqn:Hc;
    [eexists _, w, h; split; [reflexivity|split; [exact Hok|lia]]|].
  destruct (w_committed w) eqn:Hm;
    [eexists _, w, h; split; [reflexivity|split; [exact Hok|lia]]|].
  destruct (w_cancelled w) eqn:Hx;
    [eexists _, w, h; split; [reflexivity|split; [exact Hok|lia]]|].
  assert (Hterm : terminated w = false) by (unfold terminated; by rewrite Hc, Hm, Hx).
  assert (Hrec : exists e w1 h1,
            (if lastPartShort w then smallTailRecovery w h else (None, w, h))
            = (e, w1, h1)
            /\ writer_ok d size0 w1 /\ w_size w1 = w_size w
            /\ flags w1 = flags w /\ (e = None -> lastPartShort w1 = false)).
  { destruct (lastPartShort w) eqn:Hshort.
    - destruct (smallTailRecovery w h) as [[e w1] h1] eqn:Hr.
      exists e, w1, h1. split; [done|]. by eapply smallTailRecovery_ok.
    - exists None, w, h. split; [done|]. split; [exact Hok|]. by repeat split. }
  destruct Hrec as (e & w1 & h1 & -> & Hok1 & Hs1 & Hf1 & Hshort1).
  destruct e as [err|].
  { eexists _, w1, h1. split; [reflexivity|split; [exact Hok1|lia]]. }
  specialize (Hshort1 eq_refl).
  destruct Hok1 as ((Hr1 & Hq1' & Hsz1) & Hd1 & Hq1 & Hs01 & Hbuf1).
  destruct (writeLoop_terminates fuel p 0 w1 h1) as [[[r w'] h'] Hrun];
    [by rewrite Hd1|done|].
  exists r, w', h'. split; [exact Hrun|].
  eapply writeLoop_exit in Hrun; [|apply progress_refl|done].
  destruct Hrun as (taken & new & reqs & rest & n' & w3 & h3 & Hpg & -> & Hexit).
  destruct Hexit as [(-> & -> & -> & Hq3)|(input & aerr & _ & _ & Hup & _)];
    [|rewrite Hd1 in Hup; destruct (uploads_succeed h3 input); congruence].
  destruct Hpg. rewrite Hd1 in *. rewrite app_nil_r in pg_taken0. subst taken.
  rewrite Z.add_0_l in pg_count0. subst n'.
  assert (Hadd : add64 (w_size w3) (len p) = w_size w + len p).
  { unfold add64. rewrite pg_size0, Hs1. apply wrap64_id.
    unfold in_int64, int64_min. lia. }
  unfold writer_ok, writer_inv, terminated, lastPartShort.
  cbn [w_size w_parts w_readyPart w_pendingPart w_driver w_closed w_committed
       w_cancelled with_size].
  rewrite Hadd, pg_driver0, pg_parts0, sumSizes_app.
  specialize (Hq3 Hq1). specialize (pg_ready_bound0 Hr1).
  assert (Hlast : (match last (w_parts w1 ++ new) with
                   | Some part => part_Size part <? minChunkSize
                   | None => false
                   end) = false).
  { apply lastPartShort_app; [exact w|done|exact Hshort1]. }
  rewrite Hlast.
  repeat split; try lia; try done.
Qed.

Lemma exec_ok (fuel : nat) (c : call) (w : writer) (h : history) :
  writer_ok d size0 w ->
  fits fuel c ->
  w_size w + written [c] <= int64_max ->
  exists e w' h',
    exec fuel c w h = Some (e, w', h')
    /\ writer_ok d size0 w' /\ w_size w' <= w_size w + written [c].
Proof.
  intros Hok Hfit Hmax. destruct c as [p| | |]; cbn [exec written foldr] in *.
  - rewrite Z.add_0_r in *.
    destruct (Write_ok fuel p w h Hok Hfit Hmax) as ([n e] & w' & h' & -> & Hok' & Hs).
    by exists e, w', h'.
  - unfold Close. destruct (w_closed w) eqn:Hc.
    { eexists _, w, h. split; [reflexivity|split; [exact Hok|cbn; lia]]. }
    assert (Hok1 : writer_ok d size0 (with_closed true w)).
    { destruct Hok as (Hinv & Hd & Hq & Hs & _). split; [exact Hinv|].
      repeat split; try done. }
    destruct (flushPart_ok (with_closed true w) h Hok1)
      as (w' & h' & -> & Hd' & Hs' & Hf' & Hr' & Hq' & Hsum).
    exists None, w', h'. split; [done|].
    destruct Hok as ((Hr & Hq2 & Hsz) & Hd & Hq & Hs & _).
    cbn [w_size w_parts w_readyPart w_pendingPart with_closed] in *.
    pose proof minChunkSize_pos.
    apply flags_inj in Hf' as (Hc' & _ & _). cbn in Hc'.
    unfold writer_ok, writer_inv, terminated.
    rewrite Hd', Hr', Hq', Hs', Hsum, Hc', len_nil.
    repeat split; try lia; discriminate.
  - unfold Cancel. destruct (w_closed w) eqn:Hc.
    { eexists _, w, h. split; [reflexivity|split; [exact Hok|cbn; lia]]. }
    destruct (w_committed w) eqn:Hm.
    { eexists _, w, h. split; [reflexivity|split; [exact Hok|cbn; lia]]. }
    assert (Hok1 : writer_ok d size0 (with_cancelled true w)).
    { destruct Hok as (Hinv & Hd & Hq & Hs & _). split; [exact Hinv|].
      repeat split; try done; unfold terminated in *; cbn in *;
        rewrite orb_true_r in *; discriminate. }
    destruct (AbortMultipartUpload _ _ _); eexists _, _, _;
      (split; [reflexivity|]); (split; [exact Hok1|]); cbn; lia.
  - unfold Commit. destruct (w_closed w) eqn:Hc.
    { eexists _, w, h. split; [reflexivity|split; [exact Hok|cbn; lia]]. }
    destruct (w_committed w) eqn:Hm.
    { eexists _, w, h. split; [reflexivity|split; [exact Hok|cbn; lia]]. }
    destruct (w_cancelled w) eqn:Hx.
    { eexists _, w, h. split; [reflexivity|split; [exact Hok|cbn; lia]]. }
    destruct (flushPart_ok w h Hok)
      as (w' & h' & -> & Hd' & Hs' & Hf' & Hr' & Hq' & Hsum).
    destruct Hok as ((Hr & Hq2 & Hsz) & Hd & Hq & Hs & _).
    pose proof minChunkSize_pos.
    assert (Hok1 : writer_ok d size0 (with_committed true w')).
    { unfold writer_ok, writer_inv, terminated.
      cbn [w_size w_parts w_readyPart w_pendingPart w_driver w_closed
           w_committed w_cancelled with_committed].
      rewrite Hd', Hr', Hq', Hs', Hsum, len_nil, orb_true_r.
      repeat split; try lia; discriminate. }
    match goal with
    | |- context [CompleteMultipartUpload ?a ?b ?c] =>
        destruct (CompleteMultipartUpload a b c)
    end; eexists _, _, _;
      (split; [reflexivity|]); (split; [exact Hok1|]); cbn; lia.
Qed.

Lemma run_ok (fuel : nat) (cs : list call) :
  forall (w : writer) (h : history),
    writer_ok d size0 w ->
    Forall (fits fuel) cs ->
    w_size w + written cs <= int64_max ->
    exists w' h', run fuel cs w h = Some (w', h') /\ writer_ok d size0 w'.
Proof.
  induction cs as [|c cs IH]; intros w h Hok Hfits Hmax; cbn [run].
  - by exists w, h.
  - inversion Hfits as [|? ? Hfit Hrest]; subst.
    assert (Hsplit : written (c :: cs) = written [c] + written cs).
    { destruct c; unfold written; cbn [foldr]; lia. }
    assert (Hcs : 0 <= written cs).
    { clear. unfold written.
      induction cs as [|[p| | |] cs IH]; cbn [foldr]; try lia.
      pose proof (len_nonneg p). lia. }
    destruct (exec_ok fuel c w h Hok Hfit ltac:(lia)) as (e & w1 & h1 & -> & Hok1 & Hs1).
    apply IH; [done|done|lia].
Qed.
End AcceptingBackend.

(** flushPart keeps the size equation whatever the backend answers. *)
Lemma flushPart_sum (w : writer) (h : history) :
  forall e w' h',
    flushPart w h = (e, w', h') ->
    w_size w' = w_size w
    /\ sumSizes (w_parts w') + len (w_readyPart w') + len (w_pendingPart w')
       = sumSizes (w_parts w) + len (w_readyPart w) + len (w_pendingPart w).
Proof.
  intros e w' h'. unfold flushPart.
  destruct (_ && _); [by intros [= <- <- <-]|].
  destruct (len (w_pendingPart w) <? ChunkSize (w_driver w));
    match goal with
    | |- context [UploadPart ?a ?b ?c] => destruct (UploadPart a b c)
    end; intros [= <- <- <-];
    cbn [w_size w_parts w_readyPart w_pendingPart with_parts with_readyPart
         with_pendingPart];
    rewrite ?sumSizes_app, ?len_app, ?len_nil; cbn [sumSizes foldr part_Size];
    rewrite ?len_app; (split; [reflexivity|lia]).
Qed.

(** C4 (amended). Take a writer that satisfies the two buffer bounds and the
    size equation, with [pendingPart] strictly below a chunk size of at least
    5 MiB, and, if it is open with a short last part, with empty buffers (as
    newWriter creates it).  On a backend that accepts every UploadPart and
    whose GetObject returns objects of the writer's initial size, every
    sequence of Write, Close, Cancel and Commit calls runs to its end and
    leaves a writer that satisfies the bounds and the size equation.
    Whatever the backend answers, flushPart keeps the size equation. *)
Theorem writer_inv_between_calls (fuel : nat) (cs : list call) (w : writer)
    (h : history) :
  let d := w_driver w in
  writer_inv w ->
  minChunkSize <= ChunkSize d ->
  len (w_pendingPart w) < ChunkSize d ->
  0 <= w_size w ->
  (terminated w = false -> lastPartShort w = true ->
   w_readyPart w = [] /\ w_pendingPart w = []) ->
  Forall (fits fuel) cs ->
  w_size w + written cs <= int64_max ->
  (forall h' i, exists etag, UploadPart (S3client d) h' i = inr etag) ->
  (forall h' i body,
     GetObject (S3client d) h' i = inr body -> len (body_data body) = w_size w) ->
  (exists w' h', run fuel cs w h = Some (w', h') /\ writer_inv w')
  /\ (forall w0 h0 e w1 h1,
        flushPart w0 h0 = (e, w1, h1) ->
        w_size w0 = sumSizes (w_parts w0) + len (w_readyPart w0) + len (w_pendingPart w0) ->
        w_size w1 = sumSizes (w_parts w1) + len (w_readyPart w1) + len (w_pendingPart w1)).
Proof.
  intros d Hinv Hchunk Hq Hs Hshort Hfits Hmax Hup Hget. split.
  - destruct (run_ok d (w_size w) Hchunk Hup Hget fuel cs w h) as (w' & h' & Hrun & Hok);
      [|done|done|].
    + split; [exact Hinv|]. repeat split; try done; by apply Hshort.
    + exists w', h'. split; [exact Hrun|]. apply Hok.
  - intros w0 h0 e w1 h1 Hflush Heq.
    apply flushPart_sum in Hflush as [-> ->]. exact Heq.
Qed.

(** Committing a writer that holds one byte more than a chunk, on a backend
    that fails the upload, leaves [readyPart] one byte above the chunk size
    on a writer that is still open. *)
Lemma failed_Commit_oversized (d : driver) (key uploadID : string) (p : bytes) :
  1 < ChunkSize d ->
  len p = ChunkSize d + 1 ->
  ChunkSize d + 1 <= int64_max ->
  (forall h i, exists err, UploadPart (S3client d) h i = inl err) ->
  exists r w h e w' h',
    Write 1 p (newWriter d key uploadID []) [] = Some (r, w, h)
    /\ writer_inv w
    /\ Commit w h = (Some e, w', h')
    /\ terminated w' = false
    /\ len (w_readyPart w') = ChunkSize d + 1.
Proof.
  intros Hchunk Hlen Hmax Hfail.
  set (k := Z.to_nat (ChunkSize d)).
  assert (Htake : len (take k p) = ChunkSize d) by (apply len_take; lia).
  assert (Hdrop : len (drop k p) = 1).
  { unfold len in *. rewrite length_drop. lia. }
  set (w := mkWriter d key uploadID [] (ChunkSize d + 1) (take k p) (drop k p)
              false false false).
  assert (HW : Write 1 p (newWriter d key uploadID []) []
               = Some ((ChunkSize d + 1, None), w, [])).
  { unfold Write, newWriter, lastPartShort. cbn [w_closed w_committed w_cancelled
      w_parts last fold_left]. cbn [writeLoop].
    destruct (Z.gtb_spec (len p) 0); [|lia].
    unfold fillReady. cbn [w_driver w_readyPart w_pendingPart with_readyPart].
    rewrite len_nil, Z.sub_0_r.
    destruct (Z.gtb_spec (ChunkSize d) 0); [|lia].
    destruct (Z.geb_spec (len p) (ChunkSize d)); [|lia].
    fold k. rewrite Hdrop.
    cbn [w_driver w_pendingPart w_readyPart with_readyPart app].
    rewrite len_nil, Z.sub_0_r.
    destruct (Z.gtb_spec (ChunkSize d) 0); [|lia].
    destruct (Z.geb_spec 1 (ChunkSize d)); [lia|].
    cbn [writeLoop].
    replace (len (@nil Byte.byte) >? 0) with false by reflexivity.
    cbn [w_size w_pendingPart with_pendingPart with_readyPart with_size app].
    unfold w, add64. rewrite wrap64_id; [reflexivity|].
    unfold in_int64, int64_min. lia. }
  assert (Hinv : writer_inv w).
  { unfold writer_inv, w. cbn. rewrite Htake, Hdrop. lia. }
  set (body := take k p ++ drop k p).
  set (input := mkUploadPartInput (Bucket d) key 1 uploadID body).
  destruct (Hfail [] input) as [err Herr].
  exists (ChunkSize d + 1, None), w, [], (parseError key err),
         (with_pendingPart [] (with_readyPart body w)), [ReqUploadPart input].
  split; [exact HW|]. split; [exact Hinv|]. split; [|split; [reflexivity|]].
  - unfold Commit, flushPart, w.
    cbn [w_closed w_committed w_cancelled w_readyPart w_pendingPart w_driver
         w_parts w_key w_uploadID with_readyPart with_pendingPart].
    rewrite Htake, Hdrop.
    destruct (Z.eqb_spec (ChunkSize d) 0); [lia|]. cbn [andb].
    destruct (Z.ltb_spec 1 (ChunkSize d)); [|lia].
    cbn [w_closed w_committed w_cancelled w_readyPart w_pendingPart w_driver
         w_parts w_key w_uploadID with_readyPart with_pendingPart].
    rewrite len_nil. fold body. change (0 + 1) with 1. fold input.
    by rewrite Herr.
  - cbn. unfold body. rewrite len_app, Htake, Hdrop. reflexivity.
Qed.

(** C4, counterexample.  With the default chunk size of 10 MiB, a writer that
    wrote 10 MiB + 1 bytes satisfies the invariant; a Commit during which the
    upload fails leaves it open with [readyPart] holding 10 MiB + 1 bytes,
    above the chunk size. *)
Lemma failed_Commit_breaks_ready_bound :
  let d := exampleDriver failingUploadS3 defaultChunkSize "" in
  let p := repeat Byte.x00 (Z.to_nat (defaultChunkSize + 1)) in
  exists r w h e w' h',
    Write 1 p (newWriter d "key" "upload-0" []) [] = Some (r, w, h)
    /\ writer_inv w
    /\ Commit w h = (Some e, w', h')
    /\ terminated w' = false
    /\ ChunkSize d < len (w_readyPart w').
Proof.
  intros d p.
  assert (Hp : len p = ChunkSize d + 1).
  { unfold p, len. rewrite repeat_length. apply Z2Nat.id. by vm_compute. }
  clearbody p.
  assert (Hc : ChunkSize d = 10485760) by reflexivity.
  destruct (failed_Commit_oversized d "key" "upload-0" p)
    as (r & w & h & e & w' & h' & HW & Hinv & HC & Ht & Hl).
  - rewrite Hc. lia.
  - exact Hp.
  - rewrite Hc. unfold int64_max. lia.
  - intros h0 i. eexists. reflexivity.
  - exists r, w, h, e, w', h'.
    split; [exact HW|]. split; [exact Hinv|]. split; [exact HC|].
    split; [exact Ht|]. rewrite Hl. lia.
Qed.

(** ** Instances of the theorems on concrete inputs *)


(** C2 along Write, Commit, Close on a fresh writer. *)
Lemma flags_along_calls_witness :
  exists w' h',
    run 1 [CallWrite abc; CallCommit; CallClose]
        (newWriter (exampleDriver emptyS3 defaultChunkSize "") "key" "upload-0" []) []
    = Some (w', h')
    /\ w_committed w' && w_cancelled w' = false.
Proof.
  eexists _, _. split; [vm_compute; reflexivity|].
  refine (proj1 (flags_along_calls 1 [CallWrite abc; CallCommit; CallClose]
                   (newWriter (exampleDriver emptyS3 defaultChunkSize "")
                      "key" "upload-0" []) [] _ _ eq_refl _)).
  vm_compute. reflexivity.
Defined.

(** C3 at a closed writer: Commit is rejected. *)
Lemma terminal_guards_witness :
  Commit (with_closed true resumedWriter) []
  = (Some (already "closed"), with_closed true resumedWriter, []).
Proof.
  exact (proj2 (proj2 (proj1 (terminal_guards (with_closed true resumedWriter) [])
                         eq_refl))).
Defined.

(** C4 along Write, Commit on the resumed writer. *)
Lemma writer_inv_between_calls_witness :
  exists w' h',
    run 3 [CallWrite def; CallCommit] resumedWriter [] = Some (w', h')
    /\ writer_inv w'.
Proof.
  refine (proj1 (writer_inv_between_calls 3 [CallWrite def; CallCommit]
                   resumedWriter [] _ _ _ _ _ _ _ _ _)).
  - repeat split; by vm_compute.
  - by vm_compute.
  - by vm_compute.
  - by vm_compute.
  - intros _ _. split; reflexivity.
  - repeat constructor.
  - by vm_compute.
  - intros h' i. eexists. reflexivity.
  - intros h' i body [= <-]. reflexivity.
Defined.

(** C6 at a 100 MiB source with 32 MiB chunks, the goroutines scheduled last
    to first. *)
Lemma copy_multipart_layout_witness :
  exists err (parts : list (option CompletedPart)),
    copy lastFirst (exampleDriver bigObjectS3 defaultChunkSize "") "/src" "/dst" []
    = (Some (Returned err),
       [ReqHeadObject (mkHeadObjectInput "bucket" "src");
        ReqCreateMultipartUpload
          (mkCreateMultipartUploadInput "bucket" "dst" (Some "application/octet-stream")
             (Some "private") None None (Some "STANDARD"));
        ReqUploadPartCopy
          (mkUploadPartCopyInput "bucket" "bucket/src" "dst" 4 "upload-1"
             (Some "bytes=100663296-104857599"));
        ReqUploadPartCopy
          (mkUploadPartCopyInput "bucket" "bucket/src" "dst" 3 "upload-1"
             (Some "bytes=67108864-100663295"));
        ReqUploadPartCopy
          (mkUploadPartCopyInput "bucket" "bucket/src" "dst" 2 "upload-1"
             (Some "bytes=33554432-67108863"));
        ReqUploadPartCopy
          (mkUploadPartCopyInput "bucket" "bucket/src" "dst" 1 "upload-1"
             (Some "bytes=0-33554431"));
        ReqCompleteMultipartUpload
          (mkCompleteMultipartUploadInput "bucket" "dst" "upload-1" parts)])
    /\ length (lastFirst 4) = 4%nat
    /\ partNumbers parts = [Some 1; Some 2; Some 3; Some 4].
Proof.
  refine (proj1 (proj2
            (copy_multipart_layout lastFirst
               (exampleDriver bigObjectS3 defaultChunkSize "") "/src" "/dst"
               "upload-1" [] [ReqHeadObject (mkHeadObjectInput "bucket" "src")]
               (mkFileInfo "/src" (100 * 2 ^ 20) 0 false) _ _ _ _ _ _ _)) _ _).
  - reflexivity.
  - by vm_compute.
  - by vm_compute.
  - by vm_compute.
  - intros n. unfold lastFirst. apply reverse_Permutation.
  - reflexivity.
  - intros h' i. eexists. reflexivity.
  - by vm_compute.
  - by vm_compute.
Defined.

(** C7 at the root ["/r"]. *)
Lemma s3Path_to_key_witness :
  s3Path (exampleDriver emptyS3 defaultChunkSize "/r") "/a/b" = "r/a/b"%string.
Proof.
  exact (proj2 (proj2 s3Path_to_key)
           (exampleDriver emptyS3 defaultChunkSize "/r") eq_refl).
Defined.

(** C9 at offset 5 on a backend that answers InvalidRange. *)
Lemma Reader_ranged_get_witness :
  fst (Reader (exampleDriver invalidRangeS3 defaultChunkSize "") "/a/b" 5 [])
  = (Some (mkBody [] None), None).
Proof.
  exact (proj1 (proj2 (proj2
           (Reader_ranged_get (exampleDriver invalidRangeS3 defaultChunkSize "")
              "/a/b" 5 [])))
           "The requested range is not satisfiable"%string eq_refl).
Defined.

(** C10 at a chunk size of 4 bytes and 8 bytes written, the upload of the
    first part failing. *)
Lemma Write_failed_upload_witness :
  exists r w' h',
    Write 1 eightBytes smallChunkWriter [] = Some (r, w', h')
    /\ r = (8, Some (AwsError "InternalError" ""))
    /\ w_size w' = 8
    /\ flags w' = (false, false, false).
Proof.
  eexists _, _, _. split; [vm_compute; reflexivity|].
  destruct (proj2 (Write_failed_upload 1 eightBytes smallChunkWriter [])
              _ _ _ [] (mkUploadPartInput "bucket" "key" 1 "upload-0"
                          (abc ++ [Byte.x64]))
              (AwsError "InternalError" "")
              ltac:(vm_compute; reflexivity) eq_refl ltac:(cbn; lia) eq_refl)
    as (n & w1 & h1 & new & Hrec & Hr & Hn & Hsize & Hexact & Hparts & Hsum
        & Hdata & Hbody & Hflags & _).
  apply (f_equal fst) in Hr. cbn [fst] in Hr. subst n.
  split; [reflexivity|]. split; [|exact Hflags].
  rewrite Hsize. reflexivity.
Defined.

(** * Further properties of the driver *)

(** ** Keys and listed names *)

Lemma append_cons (x : ascii) (a b : string) : String x a +:+ b = String x (a +:+ b).
Proof. reflexivity. Qed.

Lemma append_nil_l (b : string) : "" +:+ b = b.
Proof. reflexivity. Qed.

Lemma append_nil_r (s : string) : s +:+ "" = s.
Proof.
  induction s as [|c s IH]; [reflexivity|]. rewrite append_cons. by f_equal.
Qed.

Lemma append_assoc (a b c : string) : (a +:+ b) +:+ c = a +:+ (b +:+ c).
Proof.
  induction a as [|x a IH]; [reflexivity|]. rewrite !append_cons. by f_equal.
Qed.

Lemma prefix_append (a b : string) : String.prefix a (a +:+ b) = true.
Proof.
  induction a as [|x a IH]; [by destruct b|]. rewrite append_cons. cbn.
  destruct (ascii_dec x x); [exact IH | done].
Qed.

Lemma string_drop_append (a b : string) : string_drop (String.length a) (a +:+ b) = b.
Proof. induction a as [|x a IH]; [reflexivity | exact IH]. Qed.

Lemma prefix_split (a s : string) :
  String.prefix a s = true -> exists b, s = a +:+ b.
Proof.
  revert s. induction a as [|x a IH]; intros s Hp; [by exists s|].
  destruct s as [|y s]; [discriminate|]. cbn in Hp.
  destruct (ascii_dec x y) as [->|]; [|discriminate].
  destruct (IH s Hp) as [b ->]. by exists b.
Qed.

Lemma Replace1_prefix (a b new : string) : Replace1 (a +:+ b) a new = new +:+ b.
Proof.
  destruct (a +:+ b) eqn:E; cbn [Replace1]; rewrite <- E, prefix_append;
    by rewrite string_drop_append.
Qed.

Lemma TrimLeft_append (a b : string) :
  TrimLeft (a +:+ b) "/" =
  if String.eqb (TrimLeft a "/") "" then TrimLeft b "/" else TrimLeft a "/" +:+ b.
Proof.
  induction a as [|x a IH]; [reflexivity|].
  rewrite append_cons. cbn [TrimLeft in_cutset].
  destruct (Ascii.eqb x "/"); [exact IH | reflexivity].
Qed.

Lemma TrimLeft_id (s : string) : first_byte s <> Some "/"%char -> TrimLeft s "/" = s.
Proof.
  destruct s as [|c s]; [reflexivity|]. cbn.
  destruct (Ascii.eqb_spec c "/"%char) as [->|]; [by intros [] | reflexivity].
Qed.

Lemma s3Path_root (d : driver) (path : string) :
  s3Path d path =
  if String.eqb (s3Path d "") "" then TrimLeft path "/" else s3Path d "" +:+ path.
Proof.
  unfold s3Path. rewrite append_nil_r. apply TrimLeft_append.
Qed.

Lemma first_byte_TrimLeft (s : string) : first_byte (TrimLeft s "/") <> Some "/"%char.
Proof. destruct (TrimLeft_slash_spec s) as (k & _ & H). exact H. Qed.

(** X1. The name under which List and Walk report a key maps back to the key,
    and the key of a path maps back to the path: for a key that begins with
    the key of the root and not with a separator, [s3Path] of its reported
    name is the key; and for a path ["/" + rest] where [rest] does not begin
    with a separator, the reported name of its key is the path. *)
Theorem listed_name_round_trip (d : driver) :
  (forall key,
     HasPrefix key (s3Path d "") = true -> first_byte key <> Some "/"%char ->
     s3Path d (listedName d key) = key)
  /\ (forall rest,
        first_byte rest <> Some "/"%char ->
        listedName d (s3Path d ("/" +:+ rest)) = "/" +:+ rest).
Proof.
  unfold listedName. split.
  - intros key Hpre Hfirst. apply prefix_split in Hpre as [b ->].
    rewrite Replace1_prefix, s3Path_root.
    destruct (String.eqb_spec (s3Path d "") "") as [Hr|Hr].
    + rewrite Hr in *. rewrite append_nil_l in *.
      change (TrimLeft b "/" = b). by apply TrimLeft_id.
    + reflexivity.
  - intros rest Hrest. rewrite s3Path_root.
    destruct (String.eqb_spec (s3Path d "") "") as [Hr|Hr].
    + change (TrimLeft ("/" +:+ rest) "/") with (TrimLeft rest "/").
      rewrite TrimLeft_id by exact Hrest. rewrite Hr.
      apply (Replace1_prefix "" rest "/").
    + by rewrite Replace1_prefix.
Qed.

(** ** reverse *)

Lemma swap_ends {A} (pre mid post : list A) (x y : A) :
  swap (pre ++ x :: mid ++ y :: post) (len pre) (len pre + len mid + 1)
  = Some (pre ++ y :: mid ++ x :: post).
Proof.
  unfold swap, index, len.
  destruct (Z.ltb_spec (Z.of_nat (length pre) + Z.of_nat (length mid) + 1) 0); [lia|].
  destruct (Z.ltb_spec (Z.of_nat (length pre)) 0); [lia|].
  rewrite Nat2Z.id.
  replace (Z.to_nat (Z.of_nat (length pre) + Z.of_nat (length mid) + 1))
    with (length pre + S (length mid))%nat by lia.
  rewrite (list_lookup_middle pre _ x (length pre)) by reflexivity.
  assert (Hy : (pre ++ x :: mid ++ y :: post) !! (length pre + S (length mid))%nat
               = Some y).
  { rewrite lookup_app_r by lia.
    replace (length pre + S (length mid) - length pre)%nat with (S (length mid)) by lia.
    rewrite lookup_cons. by apply list_lookup_middle. }
  rewrite Hy. f_equal.
  replace (length pre) with (length pre + 0)%nat at 2 by lia.
  rewrite !insert_app_r. f_equal.
  change (y :: <[length mid := x]> (mid ++ y :: post) = y :: mid ++ x :: post).
  f_equal.
  replace (length mid) with (length mid + 0)%nat at 1 by lia.
  by rewrite insert_app_r.
Qed.

Lemma reverse_loop_spec (fuel : nat) :
  forall pre mid post : list string,
    (length mid <= 2 * fuel + 1)%nat ->
    reverse_loop fuel (pre ++ mid ++ post) (len pre) (len pre + len mid - 1)
    = Some (Returned (pre ++ rev mid ++ post)).
Proof.
  induction fuel as [|fuel IH]; intros pre mid post Hfuel.
  - assert (Hlen : len mid <= 1) by (unfold len; lia).
    cbn [reverse_loop].
    destruct (Z.ltb_spec (len pre) (len pre + len mid - 1)); [lia|].
    destruct mid as [|x [|y mid]]; [done | done | unfold len in Hlen; cbn in Hlen; lia].
  - cbn [reverse_loop].
    destruct mid as [|x mid].
    { destruct (Z.ltb_spec (len pre) (len pre + len (@nil string) - 1));
        [unfold len in *; cbn in *; lia | done]. }
    destruct mid as [|y mid _] using rev_ind.
    { destruct (Z.ltb_spec (len pre) (len pre + len [x] - 1));
        [unfold len in *; cbn in *; lia | done]. }
    destruct (Z.ltb_spec (len pre) (len pre + len (x :: mid ++ [y]) - 1)) as [_|Hge];
      [|unfold len in Hge; rewrite length_cons, length_app in Hge; cbn in Hge; lia].
    replace (len pre + len (x :: mid ++ [y]) - 1) with (len pre + len mid + 1)
      by (unfold len; rewrite length_cons, length_app; cbn; lia).
    replace ((x :: mid ++ [y]) ++ post) with (x :: mid ++ y :: post)
      by (cbn; by rewrite <- app_assoc).
    rewrite swap_ends.
    replace (pre ++ y :: mid ++ x :: post) with ((pre ++ [y]) ++ mid ++ (x :: post))
      by (by rewrite <- app_assoc).
    replace (len pre + 1) with (len (pre ++ [y])) by (rewrite len_app; reflexivity).
    replace (len pre + len mid + 1 - 1) with (len (pre ++ [y]) + len mid - 1)
      by (rewrite len_app; unfold len; cbn; lia).
    rewrite IH.
    + do 2 f_equal. cbn [rev]. rewrite rev_app_distr. cbn.
      by rewrite <- !app_assoc.
    + rewrite length_cons, length_app in Hfuel. cbn in Hfuel. lia.
Qed.

(** X2. [reverse] swaps its way to the reversed slice: whenever the loop is
    given at least [len(s)/2] iterations it returns, without an index out of
    range, the elements of [s] in reverse order. *)
Theorem reverse_slice_reverses (s : list string) (fuel : nat) :
  (length s / 2 <= fuel)%nat ->
  reverse_slice fuel s = Some (Returned (reverse s)).
Proof.
  intros Hfuel. unfold reverse_slice, reverse. rewrite <- rev_alt.
  pose proof (reverse_loop_spec fuel [] s []) as Hspec.
  rewrite app_nil_r in Hspec. cbn [app] in Hspec.
  rewrite app_nil_r in Hspec. apply Hspec.
  pose proof (Nat.div_mod_eq (length s) 2) as Hdm.
  pose proof (Nat.mod_upper_bound (length s) 2 ltac:(lia)). lia.
Qed.

(** ** filepath.Dir on absolute paths *)

Lemma weight_app (a b : list string) : weight (a ++ b) = (weight a + weight b)%nat.
Proof. induction a as [|e a IH]; [reflexivity|]. cbn. lia. Qed.

Lemma weight_rev (l : list string) : weight (rev l) = weight l.
Proof. induction l as [|e l IH]; [reflexivity|]. cbn. rewrite weight_app. cbn. lia. Qed.

Lemma clean_step_weight (stack : list string) (el : string) :
  (weight (clean_step true stack el) <= weight stack + kept_weight [el])%nat.
Proof.
  unfold clean_step. cbn [kept_weight].
  destruct (String.eqb_spec el ""); [lia|].
  destruct (String.eqb el "."); [lia|].
  destruct (String.eqb el "..").
  - destruct stack as [|top rest]; [cbn; lia|].
    destruct (String.eqb top ".."); cbn; lia.
  - cbn. lia.
Qed.

Lemma fold_clean_weight (els stack : list string) :
  (weight (fold_left (clean_step true) els stack) <= weight stack + kept_weight els)%nat.
Proof.
  revert stack. induction els as [|el els IH]; intros stack; [cbn; lia|].
  cbn [fold_left]. etrans; [apply IH|].
  pose proof (clean_step_weight stack el) as H. cbn [kept_weight] in *. lia.
Qed.

Lemma length_append (a b : string) :
  String.length (a +:+ b) = (String.length a + String.length b)%nat.
Proof. induction a as [|x a IH]; [reflexivity|]. rewrite append_cons. cbn. lia. Qed.

Lemma join_slash_length (l : list string) :
  l <> [] -> S (String.length (join_slash l)) = weight l.
Proof.
  induction l as [|e l IH]; [done|]. intros _.
  destruct l as [|e' l]; [cbn; lia|].
  change (join_slash (e :: e' :: l)) with (e +:+ "/" +:+ join_slash (e' :: l)).
  rewrite !length_append. cbn [weight] in *.
  specialize (IH ltac:(done)). cbn [String.length]. lia.
Qed.

Lemma string_rev_onto_length (s acc : string) :
  String.length (string_rev_onto s acc) = (String.length s + String.length acc)%nat.
Proof.
  revert acc. induction s as [|c s IH]; intros acc; [reflexivity|].
  cbn [string_rev_onto]. rewrite IH. cbn. lia.
Qed.

Lemma string_rev_length (s : string) : String.length (string_rev s) = String.length s.
Proof. unfold string_rev. rewrite string_rev_onto_length. cbn. lia. Qed.

Lemma split_slash_kept (s : string) :
  forall cur,
    (s = ""%string /\ cur = ""%string) \/ last_byte s = Some "/"%char ->
    (kept_weight (split_slash s cur) <= String.length s + String.length cur)%nat.
Proof.
  induction s as [|c s IH]; intros cur Hend.
  - destruct Hend as [[_ ->]|]; [cbn; lia | discriminate].
  - destruct Hend as [[? _]|Hend]; [discriminate|].
    cbn [split_slash]. destruct (Ascii.eqb_spec c "/"%char) as [->|Hc].
    + cbn [kept_weight].
      assert (Hs : (kept_weight (split_slash s "") <= String.length s + 0)%nat).
      { apply (IH ""%string). destruct s as [|c' s]; [by left|].
        right. by rewrite last_byte_cons in Hend. }
      destruct (String.eqb (string_rev cur) ""); cbn [String.length];
        rewrite ?string_rev_length; lia.
    + destruct s as [|c' s]; [cbn in Hend; congruence|].
      rewrite last_byte_cons in Hend by done.
      specialize (IH (String c cur) (or_intror Hend)). cbn [String.length] in *. lia.
Qed.

Lemma upto_last_slash_spec (s : string) :
  (String.length (upto_last_slash s) <= String.length s)%nat
  /\ (upto_last_slash s = ""%string \/ last_byte (upto_last_slash s) = Some "/"%char)
  /\ (rooted s -> rooted (upto_last_slash s)).
Proof.
  induction s as [|c s (IHlen & IHend & _)].
  { split; [done|]. split; [by left | done]. }
  cbn [upto_last_slash].
  destruct (upto_last_slash s) as [|c' t] eqn:E.
  - destruct (Ascii.eqb_spec c "/"%char) as [->|Hc].
    + split; [cbn; lia|]. split; [by right | done].
    + split; [cbn; lia|]. split; [by left|].
      unfold rooted. cbn. congruence.
  - split; [cbn in *; lia|]. split; [|unfold rooted; by cbn].
    right. rewrite last_byte_cons by done. by destruct IHend.
Qed.

(** On an absolute path [filepath.Dir] yields an absolute path, and a
    shorter one unless it yields the root. *)
Lemma Dir_rooted (p : string) :
  rooted p ->
  rooted (Dir p)
  /\ (Dir p = "/"%string \/ (String.length (Dir p) < String.length p)%nat).
Proof.
  intros Hp. unfold Dir.
  destruct (upto_last_slash_spec p) as (Hlen & Hend & Hroot).
  specialize (Hroot Hp).
  destruct (upto_last_slash p) as [|c q] eqn:E; [discriminate|].
  unfold rooted in Hroot. cbn in Hroot. injection Hroot as ->.
  unfold Clean. cbn [Ascii.eqb Bool.eqb]. cbv iota.
  split; [reflexivity|].
  set (kept := fold_left (clean_step true) (split_slash (String "/" q) "") []).
  assert (Hw : (weight kept <= String.length q)%nat).
  { subst kept. etrans; [apply fold_clean_weight|]. cbn [weight plus].
    change (split_slash (String "/" q) "") with (string_rev "" :: split_slash q "").
    cbn [kept_weight string_rev string_rev_onto String.eqb plus].
    pose proof (split_slash_kept q ""%string) as Hq. cbn [String.length] in Hq.
    rewrite Nat.add_0_r in Hq. apply Hq.
    destruct q as [|c' q]; [by left|]. right.
    destruct Hend as [|Hend]; [discriminate|]. by rewrite last_byte_cons in Hend. }
  destruct (rev kept) as [|e l] eqn:Hrev; [by left|]. right.
  pose proof (join_slash_length (e :: l) ltac:(done)) as Hj.
  rewrite <- Hrev in Hj |- *. rewrite weight_rev in Hj.
  cbn [String.length] in *. lia.
Qed.

(** ** directoryDiff on absolute paths *)

Lemma StronglySorted_reverse {A} (R : A -> A -> Prop) (l : list A) :
  StronglySorted R l -> StronglySorted (flip R) (reverse l).
Proof.
  induction 1 as [|x l Hl IH Hx]; [constructor|].
  rewrite reverse_cons. apply StronglySorted_app_2; [|exact IH|repeat constructor].
  intros a b Ha Hb. apply list_elem_of_singleton in Hb as ->.
  rewrite elem_of_reverse in Ha. unfold flip.
  rewrite Forall_forall in Hx. by apply Hx.
Qed.

Lemma directoryDiff_loop_spec (fuel : nat) :
  forall prev parent paths,
    rooted parent -> (String.length parent <= fuel)%nat ->
    exists new,
      directoryDiff_loop fuel prev parent paths = Some (paths ++ new)
      /\ Forall (diffDir prev parent) new
      /\ StronglySorted (flip shorter) new.
Proof.
  induction fuel as [|fuel IH]; intros prev parent paths Hroot Hfuel.
  { destruct parent; [discriminate | cbn in Hfuel; lia]. }
  cbn [directoryDiff_loop].
  destruct (Dir_rooted parent Hroot) as [Hr Hlen].
  destruct (String.eqb_spec (Dir parent) "/") as [Hslash|Hslash].
  { exists []. rewrite app_nil_r. by repeat constructor. }
  destruct Hlen as [|Hlen]; [done|].
  destruct (String.eqb (Dir parent) prev).
  { exists []. rewrite app_nil_r. by repeat constructor. }
  destruct (HasPrefix prev (Dir parent)) eqn:Hpre.
  { exists []. rewrite app_nil_r. by repeat constructor. }
  cbn [orb].
  destruct (IH prev (Dir parent) (paths ++ [Dir parent]) Hr ltac:(lia))
    as (new & Hrun & Hall & Hsorted).
  exists (Dir parent :: new). split; [|split].
  - rewrite Hrun. by rewrite <- app_assoc.
  - constructor; [by repeat split|].
    eapply Forall_impl; [exact Hall|].
    intros dir (? & ? & ? & ?). repeat split; try done. lia.
  - constructor; [exact Hsorted|].
    eapply Forall_impl; [exact Hall|].
    intros dir (? & ? & ? & ?). exact H2.
Qed.

(** X3. On an absolute [current] path directoryDiff terminates, within
    [len(current)] iterations of its loop, whatever [prev] is.  Each
    directory it returns is absolute, is not the root, is neither [prev] nor
    a string prefix of [prev], and is shorter than [current]; the
    directories are listed from the shortest to the longest. *)
Theorem directoryDiff_terminates (fuel : nat) (prev current : string) :
  rooted current ->
  (String.length current <= fuel)%nat ->
  exists dirs,
    directoryDiff fuel prev current = Some dirs
    /\ Forall (diffDir prev current) dirs
    /\ StronglySorted shorter dirs.
Proof.
  intros Hroot Hfuel. unfold directoryDiff.
  destruct (String.eqb prev "" || String.eqb current "").
  { exists []. by repeat constructor. }
  destruct (directoryDiff_loop_spec fuel prev current [] Hroot Hfuel)
    as (new & Hrun & Hall & Hsorted).
  rewrite Hrun. cbn [app option_map]. exists (reverse new).
  split; [reflexivity|]. split; [by apply Forall_reverse|].
  by apply (StronglySorted_reverse (flip shorter)).
Qed.

(** ** Walk: termination, and what the callback is given *)

Lemma directoryDiff_total (fuel : nat) (prev current : string) :
  rooted current -> (String.length current <= fuel)%nat ->
  exists dirs, directoryDiff fuel prev current = Some dirs.
Proof.
  intros Hroot Hfuel. unfold directoryDiff.
  destruct (String.eqb prev "" || String.eqb current ""); [by eexists|].
  destruct (directoryDiff_loop_spec fuel prev current [] Hroot Hfuel)
    as (new & -> & _). by eexists.
Qed.

Lemma pageWalkInfos_total (fuel : nat) (d : driver) (contents : list Object) :
  let prefix := if String.eqb (s3Path d "") "" then "/"%string else ""%string in
  Forall (fun o => rooted (listedName d (obj_Key o))
                   /\ (String.length (listedName d (obj_Key o)) <= fuel)%nat) contents ->
  forall prevDir walkInfos,
    exists prevDir' new,
      pageWalkInfos fuel (s3Path d "") prefix contents prevDir walkInfos
      = Some (prevDir', walkInfos ++ new)
      /\ filter (fun ev => fi_IsDir ev = false) new = map (fileEvent d) contents.
Proof.
  intros prefix. induction 1 as [|o contents [Hroot Hlen] _ IH]; intros prevDir walkInfos.
  { exists prevDir, []. by rewrite app_nil_r. }
  cbn [pageWalkInfos].
  destruct (directoryDiff_total fuel prevDir _ Hroot Hlen) as [dirs Hdirs].
  unfold listedName in Hdirs. fold prefix in Hdirs. rewrite Hdirs.
  edestruct IH as (prevDir' & new & -> & Hnew).
  eexists prevDir', _. split.
  - rewrite <- !app_assoc. reflexivity.
  - rewrite !filter_app, Hnew. cbn [map].
    assert (Hd : filter (fun ev => fi_IsDir ev = false)
                   (map (fun dir => mkFileInfo dir 0 0 true) dirs) = []).
    { clear. induction dirs as [|dir dirs IH]; [done|]. cbn [map].
      rewrite filter_cons_False by (cbn; congruence). exact IH. }
    rewrite Hd. cbn [app]. rewrite filter_cons_True by done.
    rewrite filter_nil. reflexivity.
Qed.

Lemma walkPages_total (fuel : nat) (d : driver) (f : WalkFn) (listErr : option error)
    (pages : list (list Object)) :
  let prefix := if String.eqb (s3Path d "") "" then "/"%string else ""%string in
  walkable fuel d pages ->
  forall st, exists res, walkPages fuel f (s3Path d "") prefix pages listErr st = Some res.
Proof.
  intros prefix. induction 1 as [|page pages Hpage _ IH]; intros st; [by eexists|].
  cbn [walkPages].
  destruct (pageWalkInfos_total fuel d page Hpage (ws_prevDir st) [])
    as (prevDir' & new & Hrun & _).
  fold prefix in Hrun. rewrite Hrun.
  destruct (deliver f _ _) as [[] st1]; [apply IH | by eexists].
Qed.

Section WalkProtocol.
Variable f : WalkFn.

Lemma goes_on_snoc (events : list FileInfo) (walkInfo : FileInfo) :
  (forall evs ev rest, events = evs ++ ev :: rest -> goes_on f evs ev) ->
  goes_on f events walkInfo ->
  forall evs ev rest, events ++ [walkInfo] = evs ++ ev :: rest -> goes_on f evs ev.
Proof.
  intros Hold Hnew evs ev rest Heq.
  apply snoc_decompose in Heq as [(_ & -> & ->)|(rest' & _ & Heq)]; [exact Hnew|].
  by eapply Hold.
Qed.

Lemma deliver_steady (walkInfos : list FileInfo) :
  forall st b st',
    walk_steady f st -> deliver f walkInfos st = (b, st') ->
    if b then walk_steady f st' else walk_stopped f st'.
Proof.
  induction walkInfos as [|walkInfo rest IH]; intros st b st' Hst Hrun.
  - cbn in Hrun. by inversion Hrun; subst.
  - cbn [deliver] in Hrun.
    destruct (negb (String.eqb (ws_prevSkipDir st) "")
              && HasPrefix (fi_Path walkInfo) (ws_prevSkipDir st)).
    { by eapply IH. }
    destruct Hst as [Hret Hold].
    destruct (f (ws_events st) walkInfo) as [e|] eqn:Hf.
    + assert (Hstop : forall st1,
                ws_events st1 = ws_events st ++ [walkInfo] ->
                ws_retError st1 = Some e -> e <> ErrSkipDir -> walk_stopped f st1).
      { intros st1 Hev Hre Hne. exists (ws_events st), walkInfo, e.
        split; [exact Hev|]. split; [exact Hold|]. split; [exact Hf|]. by right. }
      destruct e; try (inversion Hrun; subst b st'; by apply Hstop).
      destruct (fi_IsDir walkInfo) eqn:Hdir.
      * eapply IH; [|exact Hrun]. split; [exact Hret|]. cbn [ws_events].
        apply goes_on_snoc; [exact Hold | by right].
      * inversion Hrun; subst b st'.
        exists (ws_events st), walkInfo, ErrSkipDir.
        split; [reflexivity|]. split; [exact Hold|]. split; [exact Hf|]. by left.
    + eapply IH; [|exact Hrun]. split; [exact Hret|]. cbn [ws_events].
      apply goes_on_snoc; [exact Hold | by left].
Qed.

Lemma walkPages_steady (fuel : nat) (root prefix : string) (listErr : option error)
    (pages : list (list Object)) :
  forall st err st',
    walk_steady f st ->
    walkPages fuel f root prefix pages listErr st = Some (err, st') ->
    (walk_steady f st' /\ err = listErr) \/ (walk_stopped f st' /\ err = None).
Proof.
  induction pages as [|page rest IH]; intros st err st' Hst Hrun.
  - cbn in Hrun. inversion Hrun; subst. by left.
  - cbn [walkPages] in Hrun.
    destruct (pageWalkInfos fuel root prefix page (ws_prevDir st) [])
      as [[prevDir' walkInfos]|]; [|discriminate].
    destruct (deliver f walkInfos _) as [[] st1] eqn:Hdel;
      apply deliver_steady in Hdel; try exact Hst.
    + by eapply IH.
    + inversion Hrun; subst. by right.
Qed.

Lemma skipped_snoc (before evs : list FileInfo) (ev : FileInfo) (dir : string) :
  skipped f before (evs ++ [ev]) dir
  = match f (before ++ evs) ev with
    | Some ErrSkipDir => if fi_IsDir ev then fi_Path ev else skipped f before evs dir
    | _ => skipped f before evs dir
    end.
Proof.
  revert before dir. induction evs as [|x evs IH]; intros before dir.
  - cbn. rewrite app_nil_r. reflexivity.
  - cbn [app skipped]. rewrite IH, <- app_assoc. reflexivity.
Qed.

Lemma deliver_skips (walkInfos : list FileInfo) :
  forall st b st',
    walk_skips f st -> deliver f walkInfos st = (b, st') -> walk_skips f st'.
Proof.
  induction walkInfos as [|walkInfo rest IH]; intros st b st' Hst Hrun.
  - cbn in Hrun. by inversion Hrun; subst.
  - cbn [deliver] in Hrun.
    destruct (negb (String.eqb (ws_prevSkipDir st) "")
              && HasPrefix (fi_Path walkInfo) (ws_prevSkipDir st)) eqn:Hskip.
    { by eapply IH. }
    destruct Hst as [Hdir Hold].
    assert (Hnew : forall evs ev rest',
              ws_events st ++ [walkInfo] = evs ++ ev :: rest' ->
              skipped f [] evs "" = ""%string
              \/ HasPrefix (fi_Path ev) (skipped f [] evs "") = false).
    { intros evs ev rest' Heq.
      apply snoc_decompose in Heq as [(_ & -> & ->)|(rest'' & _ & Heq)];
        [|by eapply Hold].
      rewrite <- Hdir. apply andb_false_iff in Hskip as [Hs|Hs]; [|by right].
      left. apply negb_false_iff in Hs. by apply String.eqb_eq in Hs. }
    assert (Hkeep : forall e, e <> Some ErrSkipDir \/ fi_IsDir walkInfo = false ->
              f (ws_events st) walkInfo = e ->
              ws_prevSkipDir st = skipped f [] (ws_events st ++ [walkInfo]) "").
    { intros e He Hf. rewrite skipped_snoc. cbn [app]. rewrite Hf, <- Hdir.
      destruct e as [[]|]; try reflexivity.
      destruct He as [He|He]; [done | by rewrite He]. }
    destruct (f (ws_events st) walkInfo) as [e|] eqn:Hf.
    + destruct e;
        try (inversion Hrun; subst b st'; split; cbn [ws_prevSkipDir ws_events];
             [eapply Hkeep; [|reflexivity]; by left | exact Hnew]).
      destruct (fi_IsDir walkInfo) eqn:Hisdir.
      * eapply IH; [|exact Hrun]. split; cbn [ws_prevSkipDir ws_events]; [|exact Hnew].
        rewrite skipped_snoc. cbn [app]. by rewrite Hf, Hisdir.
      * inversion Hrun; subst b st'. split; cbn [ws_prevSkipDir ws_events];
          [eapply Hkeep; [|reflexivity]; by right | exact Hnew].
    + eapply IH; [|exact Hrun]. split; cbn [ws_prevSkipDir ws_events]; [|exact Hnew].
      eapply Hkeep; [|reflexivity]. by left.
Qed.

Lemma walkPages_skips (fuel : nat) (root prefix : string) (listErr : option error)
    (pages : list (list Object)) :
  forall st err st',
    walk_skips f st ->
    walkPages fuel f root prefix pages listErr st = Some (err, st') ->
    walk_skips f st'.
Proof.
  induction pages as [|page rest IH]; intros st err st' Hst Hrun.
  - cbn in Hrun. by inversion Hrun; subst.
  - cbn [walkPages] in Hrun.
    destruct (pageWalkInfos fuel root prefix page (ws_prevDir st) [])
      as [[prevDir' walkInfos]|]; [|discriminate].
    destruct (deliver f walkInfos _) as [[] st1] eqn:Hdel;
      apply deliver_skips in Hdel; try exact Hst.
    + by eapply IH.
    + by inversion Hrun; subst.
Qed.
End WalkProtocol.

(** Walk in terms of the paginator. *)
Lemma Walk_inv (fuel : nat) (d : driver) (from : string) (f : WalkFn) (h : history) :
  forall r events h',
    Walk fuel d from f h = Some (r, events, h') ->
    let prefix := if String.eqb (s3Path d "") "" then "/"%string else ""%string in
    let listing := ListObjectsV2PagesWithContext (S3client d) h (walkInput d from) in
    exists listErr st,
      walkPages fuel f (s3Path d "") prefix (lvp_pages listing) (lvp_err listing)
        (mkWalkState (prefix +:+ lvi_Prefix (walkInput d from)) "" None 0 [])
      = Some (listErr, st)
      /\ events = ws_events st
      /\ h' = h ++ [ReqListObjectsV2Pages (walkInput d from)]
      /\ r = match ws_retError st with
             | Some e => Some e
             | None =>
                 match listErr with
                 | Some e => Some e
                 | None => if ws_objectCount st =? 0
                           then Some (PathNotFoundError from) else None
                 end
             end.
Proof.
  intros r events h' Hwalk prefix listing.
  unfold Walk, doWalk in Hwalk. fold prefix in Hwalk.
  change (mkListObjectsV2Input (Bucket d)
            (s3Path d (if negb (HasSuffix from "/") then from +:+ "/" else from)) listMax)
    with (walkInput d from) in Hwalk.
  fold listing in Hwalk.
  match type of Hwalk with
  | context [walkPages ?a ?b ?c ?e ?g ?i ?st0] =>
      destruct (walkPages a b c e g i st0) as [[listErr st]|] eqn:Hpages; [|discriminate]
  end.
  exists listErr, st. split; [exact Hpages|].
  destruct (ws_retError st) as [e|].
  { by inversion Hwalk; subst. }
  destruct listErr as [e|].
  { by inversion Hwalk; subst. }
  destruct (ws_objectCount st =? 0); by inversion Hwalk; subst.
Qed.

Lemma Walk_total (fuel : nat) (d : driver) (from : string) (f : WalkFn) (h : history) :
  walkable fuel d
    (lvp_pages (ListObjectsV2PagesWithContext (S3client d) h (walkInput d from))) ->
  exists r events,
    Walk fuel d from f h
    = Some (r, events, h ++ [ReqListObjectsV2Pages (walkInput d from)]).
Proof.
  intros Hw. unfold Walk, doWalk.
  change (mkListObjectsV2Input (Bucket d)
            (s3Path d (if negb (HasSuffix from "/") then from +:+ "/" else from)) listMax)
    with (walkInput d from).
  match goal with
  | |- context [walkPages fuel f _ _ _ ?e ?st0] =>
      destruct (walkPages_total fuel d f e _ Hw st0) as [[listErr st] ->]
  end.
  destruct (ws_retError st); [by eexists _, _|].
  destruct listErr; [by eexists _, _|].
  destruct (ws_objectCount st =? 0); by eexists _, _.
Qed.

Lemma walk_steady_init (f : WalkFn) (prevDir : string) (count : Z) :
  walk_steady f (mkWalkState prevDir "" None count []).
Proof. split; [reflexivity|]. intros [|??] ?? [=]. Qed.

Lemma walk_skips_init (f : WalkFn) (prevDir : string) (count : Z) :
  walk_skips f (mkWalkState prevDir "" None count []).
Proof. split; [reflexivity|]. intros [|??] ?? [=]. Qed.

Lemma walk_inv_init (f : WalkFn) (prevDir : string) :
  walk_inv f (mkWalkState prevDir "" None 0 []).
Proof. split; [reflexivity | discriminate]. Qed.

(** X4. Walk and the answers of its callback.  On a listing it gets through,
    Walk sends one ListObjectsV2 request and delivers events; every event but
    the last was answered with nil, or with ErrSkipDir by a directory.  If
    the last event was answered with another error, Walk returns that error;
    if it was a file answered with ErrSkipDir, Walk returns nil.  So the
    callback is never called again after an error other than ErrSkipDir on a
    directory. *)
Theorem Walk_stops_at_callback_error (fuel : nat) (d : driver) (from : string)
    (f : WalkFn) (h : history) :
  walkable fuel d
    (lvp_pages (ListObjectsV2PagesWithContext (S3client d) h (walkInput d from))) ->
  exists r events,
    Walk fuel d from f h
    = Some (r, events, h ++ [ReqListObjectsV2Pages (walkInput d from)])
    /\ (forall evs ev rest,
          events = evs ++ ev :: rest -> rest <> [] -> goes_on f evs ev)
    /\ (forall evs ev e,
          events = evs ++ [ev] -> f evs ev = Some e -> e <> ErrSkipDir -> r = Some e)
    /\ (forall evs ev,
          events = evs ++ [ev] -> f evs ev = Some ErrSkipDir -> fi_IsDir ev = false ->
          len events <= int64_max -> r = None).
Proof.
  intros Hw. destruct (Walk_total fuel d from f h Hw) as (r & events & Hwalk).
  exists r, events. split; [exact Hwalk|].
  apply Walk_inv in Hwalk as (listErr & st & Hpages & -> & _ & ->).
  pose proof (walkPages_inv f _ _ _ _ _ _ _ _ (walk_inv_init f _) Hpages) as [[Hcount _] _].
  eapply walkPages_steady in Hpages; [|apply walk_steady_init].
  destruct Hpages as [[[Hret Hold] ->]|[Hstop ->]].
  - split; [|split].
    + intros evs ev rest Heq _. by eapply Hold.
    + intros evs ev e Heq Hf Hne.
      destruct (Hold evs ev [] Heq) as [Hgo|[Hgo _]]; congruence.
    + intros evs ev Heq Hf Hfile _.
      destruct (Hold evs ev [] Heq) as [Hgo|[_ Hgo]]; congruence.
  - destruct Hstop as (evs0 & ev0 & e0 & Hev & Hold & Hf0 & Hcase).
    assert (Hlast : forall evs ev, ws_events st = evs ++ [ev] -> evs = evs0 /\ ev = ev0).
    { intros evs ev Heq. rewrite Hev in Heq. by apply app_inj_tail in Heq as [-> ->]. }
    split; [|split].
    + intros evs ev rest Heq Hrest. rewrite Hev in Heq.
      apply snoc_decompose in Heq as [(-> & _)|(rest' & -> & Heq)]; [done|].
      by eapply Hold.
    + intros evs ev e Heq Hf Hne. destruct (Hlast _ _ Heq) as [-> ->].
      rewrite Hf0 in Hf. injection Hf as ->.
      destruct Hcase as [(-> & _)|(_ & ->)]; done.
    + intros evs ev Heq Hf Hfile Hbound. destruct (Hlast _ _ Heq) as [-> ->].
      rewrite Hf0 in Hf. injection Hf as ->.
      destruct Hcase as [(_ & _ & ->)|(? & _)]; [|done].
      assert (Hc : ws_objectCount st = len (ws_events st)).
      { rewrite Hcount. apply wrap64_id. unfold in_int64, int64_min.
        pose proof (len_nonneg (ws_events st)). lia. }
      rewrite Hc, Hev, len_app.
      destruct (Z.eqb_spec (len evs0 + len [ev0]) 0) as [H0|]; [|reflexivity].
      pose proof (len_nonneg evs0). unfold len in H0. cbn in H0. lia.
Qed.

(** X5. After the callback has answered ErrSkipDir to a directory, Walk
    delivers no event whose path has the path of that directory as a string
    prefix, until the callback skips another directory: every event
    delivered has a path that does not begin with the path of the directory
    skipped most recently before it. *)
Theorem Walk_skips_under_skipped_directory (fuel : nat) (d : driver) (from : string)
    (f : WalkFn) (h : history) :
  walkable fuel d
    (lvp_pages (ListObjectsV2PagesWithContext (S3client d) h (walkInput d from))) ->
  exists r events,
    Walk fuel d from f h
    = Some (r, events, h ++ [ReqListObjectsV2Pages (walkInput d from)])
    /\ forall evs ev rest,
         events = evs ++ ev :: rest ->
         skipped f [] evs "" = ""%string
         \/ HasPrefix (fi_Path ev) (skipped f [] evs "") = false.
Proof.
  intros Hw. destruct (Walk_total fuel d from f h Hw) as (r & events & Hwalk).
  exists r, events. split; [exact Hwalk|].
  apply Walk_inv in Hwalk as (listErr & st & Hpages & -> & _ & _).
  eapply walkPages_skips in Hpages; [|apply walk_skips_init].
  by destruct Hpages.
Qed.

Section WalkAll.
Variable f : WalkFn.
Hypothesis f_accepts : forall evs ev, f evs ev = None.

Lemma deliver_all (walkInfos : list FileInfo) :
  forall st,
    ws_prevSkipDir st = ""%string ->
    exists st',
      deliver f walkInfos st = (true, st')
      /\ ws_events st' = ws_events st ++ walkInfos
      /\ ws_prevSkipDir st' = ""%string
      /\ ws_retError st' = ws_retError st.
Proof.
  induction walkInfos as [|walkInfo rest IH]; intros st Hskip.
  - exists st. by rewrite app_nil_r.
  - cbn [deliver]. rewrite Hskip, f_accepts. cbn [String.eqb negb andb].
    edestruct IH as (st' & -> & Hev & Hs & Hr); [|exists st'; split; [reflexivity|]].
    + reflexivity.
    + cbn in Hev, Hr. rewrite Hev, <- app_assoc. done.
Qed.

Lemma walkPages_all (fuel : nat) (d : driver) (listErr : option error)
    (pages : list (list Object)) :
  let prefix := if String.eqb (s3Path d "") "" then "/"%string else ""%string in
  walkable fuel d pages ->
  forall st,
    ws_prevSkipDir st = ""%string ->
    exists st',
      walkPages fuel f (s3Path d "") prefix pages listErr st = Some (listErr, st')
      /\ filter (fun ev => fi_IsDir ev = false) (ws_events st')
         = filter (fun ev => fi_IsDir ev = false) (ws_events st)
           ++ map (fileEvent d) (concat pages)
      /\ ws_retError st' = ws_retError st.
Proof.
  intros prefix. induction 1 as [|page pages Hpage _ IH]; intros st Hskip.
  { exists st. cbn. by rewrite app_nil_r. }
  cbn [walkPages].
  destruct (pageWalkInfos_total fuel d page Hpage (ws_prevDir st) [])
    as (prevDir' & new & Hrun & Hnew).
  fold prefix in Hrun. rewrite Hrun. cbn [app].
  match goal with
  | |- context [deliver f new ?st0] =>
      destruct (deliver_all new st0 Hskip) as (st1 & -> & Hev & Hs & Hr)
  end.
  destruct (IH st1 Hs) as (st' & -> & Hev' & Hr').
  exists st'. split; [reflexivity|]. split.
  - rewrite Hev', Hev. cbn [ws_events concat].
    by rewrite filter_app, Hnew, map_app, <- app_assoc.
  - by rewrite Hr', Hr.
Qed.
End WalkAll.

(** X6. With a callback that answers nil to every event, Walk delivers one
    file event for every object of every page of the listing, in the order of
    the listing, with the reported name, the size and the modification time
    of the object; directory events come in between.  A listing error is
    returned once the pages fetched before it have been delivered. *)
Theorem Walk_visits_every_object (fuel : nat) (d : driver) (from : string)
    (f : WalkFn) (h : history) :
  (forall evs ev, f evs ev = None) ->
  walkable fuel d
    (lvp_pages (ListObjectsV2PagesWithContext (S3client d) h (walkInput d from))) ->
  exists r events,
    Walk fuel d from f h
    = Some (r, events, h ++ [ReqListObjectsV2Pages (walkInput d from)])
    /\ filter (fun ev => fi_IsDir ev = false) events
       = map (fileEvent d)
           (concat (lvp_pages
                      (ListObjectsV2PagesWithContext (S3client d) h (walkInput d from))))
    /\ (forall e,
          lvp_err (ListObjectsV2PagesWithContext (S3client d) h (walkInput d from))
          = Some e -> r = Some e).
Proof.
  intros Hf Hw. destruct (Walk_total fuel d from f h Hw) as (r & events & Hwalk).
  exists r, events. split; [exact Hwalk|].
  apply Walk_inv in Hwalk as (listErr & st & Hpages & -> & _ & ->).
  match type of Hpages with
  | walkPages _ _ _ _ _ ?e ?st0 = _ =>
      destruct (walkPages_all f Hf fuel d e _ Hw st0 eq_refl) as (st' & Hrun & Hev & Hr)
  end.
  rewrite Hrun in Hpages. injection Hpages as <- <-.
  split; [exact Hev|]. intros e He. rewrite Hr, He. reflexivity.
Qed.

(** ** The writer: the bytes it uploads *)

Lemma len_singleton {A} (x : A) : len [x] = 1.
Proof. reflexivity. Qed.

Lemma writeLoop_uploads (fuel : nat) :
  forall p n w h n' w' h',
    buffers_ordered w ->
    writeLoop fuel p n w h = Some ((n', None), w', h') ->
    exists bodies new,
      h' = h ++ map ReqUploadPart
                  (uploadInputs (w_driver w) (w_key w) (w_uploadID w)
                     (len (w_parts w) + 1) bodies)
      /\ answeredParts (S3client (w_driver w)) h
           (uploadInputs (w_driver w) (w_key w) (w_uploadID w)
              (len (w_parts w) + 1) bodies) = Some new
      /\ w_parts w' = w_parts w ++ new
      /\ concat bodies ++ w_readyPart w' ++ w_pendingPart w'
         = w_readyPart w ++ w_pendingPart w ++ p
      /\ Forall (fun body => len body = ChunkSize (w_driver w)) bodies
      /\ n' = n + len p
      /\ buffers_ordered w'
      /\ w_size w' = add64 (w_size w) n'
      /\ w_driver w' = w_driver w /\ w_key w' = w_key w
      /\ w_uploadID w' = w_uploadID w /\ flags w' = flags w.
Proof.
  assert (Hexit : forall p n w h n' w' h',
    buffers_ordered w -> len p <= 0 ->
    Some ((n, None), with_size (add64 (w_size w) n) w, h) = Some ((n', @None error), w', h') ->
    exists bodies new,
      h' = h ++ map ReqUploadPart
                  (uploadInputs (w_driver w) (w_key w) (w_uploadID w)
                     (len (w_parts w) + 1) bodies)
      /\ answeredParts (S3client (w_driver w)) h
           (uploadInputs (w_driver w) (w_key w) (w_uploadID w)
              (len (w_parts w) + 1) bodies) = Some new
      /\ w_parts w' = w_parts w ++ new
      /\ concat bodies ++ w_readyPart w' ++ w_pendingPart w'
         = w_readyPart w ++ w_pendingPart w ++ p
      /\ Forall (fun body => len body = ChunkSize (w_driver w)) bodies
      /\ n' = n + len p
      /\ buffers_ordered w'
      /\ w_size w' = add64 (w_size w) n'
      /\ w_driver w' = w_driver w /\ w_key w' = w_key w
      /\ w_uploadID w' = w_uploadID w /\ flags w' = flags w).
  { intros p n w h n' w' h' Hord Hp Hrun.
    apply len_nonpos_nil in Hp. subst p. inversion Hrun; subst n' w' h'.
    exists [], []. cbn [uploadInputs map answeredParts concat app].
    rewrite !app_nil_r, len_nil, Z.add_0_r.
    split; [done|]. split; [done|]. split; [done|]. split; [done|].
    split; [constructor|]. split; [done|]. split; [exact Hord|]. done. }
  induction fuel as [|fuel IH]; intros p n w h n' w' h' Hord;
    cbn [writeLoop]; destruct (Z.gtb_spec (len p) 0) as [Hp|Hp]; intros Hrun;
    try discriminate; try (by eapply Hexit).
  clear Hexit.
  destruct Hord as (Hcomm & Hready & Hpending).
  destruct (fillReady_spec p n w) as (t & rest & Hsplit & Hfill & Ht & Hrest & Hb).
  rewrite Hfill in Hrun. cbn [w_driver w_pendingPart with_readyPart] in Hrun.
  specialize (Hb Hready).
  pose proof (len_nonneg (w_pendingPart w)) as Hq0.
  assert (Hswap : t ++ w_pendingPart w = w_pendingPart w ++ t).
  { destruct Hcomm as [->|Hfull]; [by rewrite app_nil_r|].
    destruct t as [|b t]; [by rewrite app_nil_r|]. specialize (Ht ltac:(done)). lia. }
  revert Hrun.
  set (needed := ChunkSize (w_driver w) - len (w_pendingPart w)).
  destruct (Z.gtb_spec needed 0) as [_|Hneed]; [|unfold needed in Hneed; lia].
  destruct (Z.geb_spec (len rest) needed) as [Hlen|Hlen].
  - assert (Hrest_ne : rest <> []) by (apply len_pos_nonnil; unfold needed in *; lia).
    specialize (Hrest Hrest_ne).
    rewrite flushPart_full;
      cbn [w_driver w_pendingPart w_readyPart w_parts w_key w_uploadID
           with_pendingPart with_readyPart];
      [|rewrite len_app, len_take by (unfold needed in *; lia); unfold needed; lia
       |lia].
    destruct (UploadPart _ _ _) as [aerr|etag] eqn:Hup; [discriminate|].
    intros Hrun. apply IH in Hrun.
    + cbn [w_driver w_pendingPart w_readyPart w_parts w_key w_uploadID w_size
           with_pendingPart with_readyPart with_parts] in Hrun.
      rewrite (len_app (w_parts w)), len_singleton in Hrun.
      destruct Hrun as (bodies & new & -> & Hans & Hparts & Hdata & Hall & -> & Hord'
                        & Hsize & Hd & Hk & Hu & Hf).
      exists ((w_readyPart w ++ t) :: bodies),
             (mkPart etag (len (w_parts w) + 1) (len (w_readyPart w ++ t)) :: new).
      cbn [uploadInputs map answeredParts upi_PartNumber upi_Body].
      rewrite Hup, Hans. cbn [option_map].
      split; [by rewrite <- app_assoc|]. split; [done|].
      split; [by rewrite Hparts, <- app_assoc|].
      split.
      { cbn [concat]. rewrite <- (app_assoc (w_readyPart w ++ t)), Hdata. cbn [app].
        rewrite <- (app_assoc (w_pendingPart w)), take_drop.
        rewrite Hsplit, <- app_assoc. f_equal. rewrite !app_assoc. f_equal.
        exact Hswap. }
      split; [constructor; [rewrite len_app; lia | exact Hall]|].
      split.
      { rewrite Hsplit, len_app.
        pose proof (take_drop (Z.to_nat needed) rest) as Htd.
        apply (f_equal len) in Htd. rewrite len_app in Htd.
        rewrite len_take in Htd by (unfold needed in *; lia). lia. }
      split; [exact Hord'|]. split; [exact Hsize|]. split; [exact Hd|].
      split; [exact Hk|]. split; [exact Hu | exact Hf].
    + unfold buffers_ordered.
      cbn [w_driver w_pendingPart w_readyPart with_pendingPart with_readyPart with_parts].
      split; [by left|]. rewrite len_app, len_take by (unfold needed in *; lia).
      rewrite len_nil. unfold needed. lia.
  - intros Hrun. apply IH in Hrun.
    + destruct Hrun as (bodies & new & -> & Hans & Hparts & Hdata & Hall & -> & Hord'
                        & Hsize & Hd & Hk & Hu & Hf).
      cbn [w_driver w_pendingPart w_readyPart w_parts w_key w_uploadID w_size
           with_pendingPart with_readyPart with_parts] in *.
      exists bodies, new.
      split; [done|]. split; [done|]. split; [done|].
      split.
      { rewrite Hdata, app_nil_r, Hsplit. rewrite <- !app_assoc. f_equal.
        rewrite !app_assoc. f_equal. exact Hswap. }
      split; [done|].
      split; [rewrite Hsplit, len_app, len_nil; lia|].
      split; [exact Hord'|]. split; [exact Hsize|]. split; [exact Hd|].
      split; [exact Hk|]. split; [exact Hu | exact Hf].
    + unfold buffers_ordered.
      cbn [w_driver w_pendingPart w_readyPart with_pendingPart with_readyPart with_parts].
      split; [|split].
      * destruct rest as [|b rest]; [|right; rewrite len_app; apply Hrest; done].
        rewrite app_nil_r. destruct Hcomm as [->|Hfull]; [by left|].
        right. rewrite len_app. pose proof (len_nonneg t). lia.
      * rewrite len_app. exact Hb.
      * rewrite len_app. unfold needed in Hlen. lia.
Qed.

Lemma uploadInputs_app (d : driver) (key uploadID : string) (a b : list bytes) :
  forall k,
    uploadInputs d key uploadID k (a ++ b)
    = uploadInputs d key uploadID k a ++ uploadInputs d key uploadID (k + len a) b.
Proof.
  induction a as [|x a IH]; intros k; cbn [app uploadInputs].
  - by rewrite len_nil, Z.add_0_r.
  - rewrite IH. do 3 f_equal. unfold len. cbn [length]. lia.
Qed.

Lemma answeredParts_app (s3 : S3) (a b : list UploadPartInput) :
  forall h,
    answeredParts s3 h (a ++ b)
    = match answeredParts s3 h a with
      | Some new => option_map (app new) (answeredParts s3 (h ++ map ReqUploadPart a) b)
      | None => None
      end.
Proof.
  induction a as [|x a IH]; intros h; cbn [app answeredParts map].
  - rewrite app_nil_r. by destruct (answeredParts s3 h b).
  - destruct (UploadPart s3 h x) as [|etag]; [done|]. rewrite IH.
    destruct (answeredParts s3 (h ++ [ReqUploadPart x]) a) as [new|]; [|done].
    cbn [option_map]. rewrite <- app_assoc. cbn [app].
    by destruct (answeredParts s3 _ b).
Qed.

Lemma answeredParts_fields (s3 : S3) (inputs : list UploadPartInput) :
  forall h new,
    answeredParts s3 h inputs = Some new ->
    map part_PartNumber new = map upi_PartNumber inputs
    /\ map part_Size new = map (fun input => len (upi_Body input)) inputs.
Proof.
  induction inputs as [|x inputs IH]; intros h new; cbn [answeredParts].
  - by intros [= <-].
  - destruct (UploadPart s3 h x) as [|etag]; [done|].
    destruct (answeredParts s3 _ inputs) as [new'|] eqn:Hrest; [|done].
    intros [= <-]. destruct (IH _ _ Hrest) as [Hn Hs]. cbn [map].
    by rewrite Hn, Hs.
Qed.


Lemma uploadInputs_numbers (d : driver) (key uploadID : string) (bodies : list bytes) :
  forall k,
    StronglySorted Z.lt (map upi_PartNumber (uploadInputs d key uploadID k bodies))
    /\ Forall (fun j => k <= j) (map upi_PartNumber (uploadInputs d key uploadID k bodies)).
Proof.
  induction bodies as [|b bodies IH]; intros k; cbn [uploadInputs map upi_PartNumber].
  - split; constructor.
  - destruct (IH (k + 1)) as [Hs Hall]. split.
    + constructor; [exact Hs|]. eapply Forall_impl; [exact Hall|]. cbn. lia.
    + constructor; [lia|]. eapply Forall_impl; [exact Hall|]. cbn. lia.
Qed.

Lemma answeredParts_length (s3 : S3) (inputs : list UploadPartInput) (h : history)
    (new : list Part) :
  answeredParts s3 h inputs = Some new -> length new = length inputs.
Proof.
  intros H. apply answeredParts_fields in H as [H _].
  apply (f_equal length) in H. by rewrite !length_map in H.
Qed.

Lemma uploadInputs_length (d : driver) (key uploadID : string) (bodies : list bytes) :
  forall k, length (uploadInputs d key uploadID k bodies) = length bodies.
Proof. induction bodies as [|b bodies IH]; intros k; [done|]. cbn. by rewrite IH. Qed.




Lemma lastPartShort_large (w : writer) :
  Forall (fun part => minChunkSize <= part_Size part) (w_parts w) ->
  lastPartShort w = false.
Proof.
  unfold lastPartShort. intros Hall.
  destruct (last (w_parts w)) as [part|] eqn:Hlast; [|done].
  apply last_Some in Hlast as [l' Hl']. rewrite Hl' in Hall.
  apply Forall_app in Hall as [_ Hall]. inversion Hall; subst.
  by apply Z.ltb_ge.
Qed.

Section WholeUpload.
Variables (d : driver) (key uploadID : string) (h0 : history).
Hypothesis chunk_large : minChunkSize <= ChunkSize d.
Hypothesis uploads_succeed :
  forall h i, exists etag, UploadPart (S3client d) h i = inr etag.

Lemma writeLoop_succeeds (fuel : nat) (p : bytes) (n : Z) (w : writer) (h : history) :
  w_driver w = d ->
  len (w_pendingPart w) < ChunkSize d ->
  (length p <= fuel)%nat ->
  exists n' w' h', writeLoop fuel p n w h = Some ((n', None), w', h').
Proof.
  intros Hd Hq Hfuel.
  destruct (writeLoop_terminates fuel p n w h) as [[[r w'] h'] Hrun];
    [by rewrite Hd | done |].
  pose proof Hrun as Hexit.
  eapply writeLoop_exit in Hexit; [|apply progress_refl|done].
  destruct Hexit as (taken & new & reqs & rest & n' & w3 & h3 & _ & _ & Hcase).
  destruct Hcase as [(-> & _)|(input & aerr & _ & _ & Hup & _)]; [by eexists _, _, _|].
  rewrite Hd in Hup. destruct (uploads_succeed h3 input) as [etag Hok]. congruence.
Qed.

Lemma upload_so_far_new :
  upload_so_far d key uploadID h0 [] (newWriter d key uploadID []) h0.
Proof.
  exists []. cbn. rewrite app_nil_r. unfold buffers_ordered. cbn.
  pose proof minChunkSize_pos. rewrite len_nil.
  split; [done|]. split; [done|]. split; [done|]. split; [constructor|].
  split; [split; [by left | lia]|]. done.
Qed.

Lemma upload_so_far_parts (data : bytes) (w : writer) (h : history) :
  upload_so_far d key uploadID h0 data w h ->
  Forall (fun part => part_Size part = ChunkSize d) (w_parts w)
  /\ StronglySorted Z.lt (map part_PartNumber (w_parts w)).
Proof.
  intros (bodies & _ & Hans & _ & Hall & _).
  pose proof (answeredParts_fields _ _ _ _ Hans) as [Hn Hs].
  rewrite Hn. split; [|apply uploadInputs_numbers].
  apply (List.Forall_map part_Size (fun sz => sz = ChunkSize d)). rewrite Hs.
  apply List.Forall_map. clear Hans Hn Hs. generalize 1.
  induction Hall as [|b bodies' Hb _ IH]; intros k; constructor; [exact Hb | apply IH].
Qed.

Lemma upload_so_far_Write (fuel : nat) (p data : bytes) (w : writer) (h : history) :
  upload_so_far d key uploadID h0 data w h ->
  (length p <= fuel)%nat ->
  exists w' h',
    Write fuel p w h = Some ((len p, None), w', h')
    /\ upload_so_far d key uploadID h0 (data ++ p) w' h'.
Proof.
  intros Hso Hfuel. pose proof (upload_so_far_parts _ _ _ Hso) as [Hsizes _].
  destruct Hso as (bodies & -> & Hans & Hdata & Hall & Hord & Hd & Hk & Hu & Hterm & Hsize).
  unfold Write. unfold terminated in Hterm.
  destruct (w_closed w) eqn:Hc; [done|].
  destruct (w_committed w) eqn:Hm; [done|].
  destruct (w_cancelled w) eqn:Hx; [done|].
  rewrite lastPartShort_large
    by (eapply Forall_impl; [exact Hsizes|]; cbn; intros ? ->; exact chunk_large).
  destruct (writeLoop_succeeds fuel p 0 w
              (h0 ++ map ReqUploadPart (uploadInputs d key uploadID 1 bodies)) Hd)
    as (n' & w' & h' & Hrun); [rewrite <- Hd; apply Hord | done |].
  rewrite Hrun.
  apply writeLoop_uploads in Hrun; [|exact Hord].
  destruct Hrun as (bodies' & new & -> & Hans' & Hparts & Hdata' & Hall' & -> & Hord'
                    & Hsize' & Hd' & Hk' & Hu' & Hf').
  rewrite Hd, Hk, Hu in *.
  assert (Hlen : len (w_parts w) = len bodies).
  { unfold len. f_equal. apply answeredParts_length in Hans.
    by rewrite uploadInputs_length in Hans. }
  rewrite Hlen in *.
  eexists _, _. split; [by rewrite Z.add_0_l|].
  exists (bodies ++ bodies').
  rewrite uploadInputs_app, map_app, app_assoc, answeredParts_app, Hans.
  replace (1 + len bodies) with (len bodies + 1) by lia.
  rewrite Hans'. cbn [option_map].
  split; [done|]. split; [by rewrite Hparts|].
  split.
  { rewrite concat_app, <- app_assoc, Hdata', <- Hdata, <- !app_assoc. done. }
  split; [by apply Forall_app|].
  split; [exact Hord'|].
  split; [done|]. split; [done|]. split; [done|].
  split.
  { unfold terminated. unfold flags in Hf'. injection Hf' as -> -> ->.
    by rewrite Hc, Hm, Hx. }
  rewrite Hsize', Hsize. unfold add64.
  rewrite wrap64_add_l, len_app. f_equal; lia.
Qed.

Lemma upload_so_far_Writes (fuel : nat) (ps : list bytes) :
  Forall (fun p => (length p <= fuel)%nat) ps ->
  forall rest data w h,
    upload_so_far d key uploadID h0 data w h ->
    exists w' h',
      upload_so_far d key uploadID h0 (data ++ concat ps) w' h'
      /\ run fuel (map CallWrite ps ++ rest) w h = run fuel rest w' h'.
Proof.
  induction 1 as [|p ps Hp _ IH]; intros rest data w h Hso.
  { exists w, h. cbn. by rewrite app_nil_r. }
  destruct (upload_so_far_Write fuel p data w h Hso Hp) as (w1 & h1 & Hrun & Hso1).
  destruct (IH rest _ _ _ Hso1) as (w' & h' & Hso' & Hrest).
  exists w', h'. split.
  - cbn [concat]. by rewrite app_assoc.
  - cbn [map app run exec]. rewrite Hrun. exact Hrest.
Qed.
End WholeUpload.

Lemma newWriter_size (d : driver) (key uploadID : string) (parts : list Part) :
  Size (newWriter d key uploadID parts) = wrap64 (sumSizes parts).
Proof.
  unfold Size, newWriter. cbn [w_size].
  assert (H : forall a,
            fold_left (fun size part => add64 size (part_Size part)) parts (wrap64 a)
            = wrap64 (a + sumSizes parts)).
  { induction parts as [|part parts IH]; intros a; cbn [fold_left].
    - unfold sumSizes. cbn. by rewrite Z.add_0_r.
    - unfold add64. rewrite wrap64_add_l, IH. f_equal.
      change (sumSizes (part :: parts)) with (part_Size part + sumSizes parts). lia. }
  exact (H 0).
Qed.

Lemma answeredParts_sum (s3 : S3) (d : driver) (key uploadID : string)
    (bodies : list bytes) :
  forall k h parts,
    answeredParts s3 h (uploadInputs d key uploadID k bodies) = Some parts ->
    sumSizes parts = len (concat bodies).
Proof.
  induction bodies as [|body bodies IH]; intros k h parts;
    cbn [uploadInputs answeredParts upi_PartNumber upi_Body].
  - by intros [= <-].
  - destruct (UploadPart s3 h _) as [|etag]; [done|].
    destruct (answeredParts s3 _ _) as [parts'|] eqn:Hrest; [|done].
    intros [= <-]. cbn [concat]. rewrite len_app, <- (IH _ _ _ Hrest). reflexivity.
Qed.

Lemma flushPart_closed (w : writer) (h : history) :
  flushPart (with_closed true w) h
  = let '(err, w', h') := flushPart w h in (err, with_closed true w', h').
Proof.
  unfold flushPart.
  cbn [w_readyPart w_pendingPart w_driver w_parts w_key w_uploadID with_closed].
  destruct (_ && _); [reflexivity|].
  destruct (len (w_pendingPart w) <? ChunkSize (w_driver w));
    cbn [w_readyPart w_pendingPart w_driver w_parts w_key w_uploadID
         with_pendingPart with_readyPart];
    destruct (UploadPart _ _ _); reflexivity.
Qed.

(** The final flush of a writer none of whose uploads has failed: what is
    left in the buffers goes out as one last part. *)
Lemma upload_so_far_flush (d : driver) (key uploadID : string) (h0 : history)
    (data : bytes) (w : writer) (h : history) :
  minChunkSize <= ChunkSize d ->
  (forall h i, exists etag, UploadPart (S3client d) h i = inr etag) ->
  upload_so_far d key uploadID h0 data w h ->
  exists w' bodies,
    flushPart w h
    = (None, w', h0 ++ map ReqUploadPart (uploadInputs d key uploadID 1 bodies))
    /\ answeredParts (S3client d) h0 (uploadInputs d key uploadID 1 bodies)
       = Some (w_parts w')
    /\ concat bodies = data
    /\ Forall (fun body => 0 < len body < 2 * ChunkSize d) bodies
    /\ (forall i body,
          bodies !! i = Some body -> (S i < length bodies)%nat ->
          len body = ChunkSize d)
    /\ w_readyPart w' = [] /\ w_pendingPart w' = []
    /\ w_driver w' = d /\ w_key w' = key /\ w_uploadID w' = uploadID
    /\ w_size w' = wrap64 (len data) /\ flags w' = flags w.
Proof.
  intros Hchunk Hup Hso.
  destruct Hso as (bodies & -> & Hans & Hdata & Hall & Hord & Hd & Hk & Hu & Hterm & Hsize).
  pose proof minChunkSize_pos as Hmin.
  assert (Hbodies : Forall (fun body => 0 < len body < 2 * ChunkSize d) bodies).
  { eapply Forall_impl; [exact Hall|]. cbn. lia. }
  assert (Hlen : len (w_parts w) = len bodies).
  { unfold len. f_equal. apply answeredParts_length in Hans.
    by rewrite uploadInputs_length in Hans. }
  destruct Hord as (Hcomm & Hready & Hpending). rewrite Hd in Hcomm, Hready, Hpending.
  unfold flushPart. rewrite Hd.
  destruct ((len (w_readyPart w) =? 0) && (len (w_pendingPart w) =? 0)) eqn:Hempty.
  - apply andb_true_iff in Hempty as [Hr Hq].
    apply Z.eqb_eq, len_zero_iff in Hr, Hq. rewrite Hr, Hq, !app_nil_r in Hdata.
    exists w, bodies.
    split; [reflexivity|]. split; [exact Hans|]. split; [exact Hdata|].
    split; [exact Hbodies|].
    split; [intros i body Hi _; by eapply Forall_lookup_1 in Hall|].
    by repeat split.
  - destruct (Z.ltb_spec (len (w_pendingPart w)) (ChunkSize d)) as [_|]; [|lia].
    cbn [w_driver w_parts w_key w_uploadID w_readyPart w_pendingPart
         with_pendingPart with_readyPart]. rewrite ?Hd, ?Hk, ?Hu.
    match goal with
    | |- context [UploadPart (S3client d) ?hh ?i] =>
        destruct (Hup hh i) as [etag Hok]; rewrite Hok
    end.
    set (body := w_readyPart w ++ w_pendingPart w) in *.
    set (part := mkPart etag (len (w_parts w) + 1) (len body)).
    assert (Hans' : answeredParts (S3client d) h0
                      (uploadInputs d key uploadID 1 (bodies ++ [body]))
                    = Some (w_parts w ++ [part])).
    { rewrite uploadInputs_app, answeredParts_app, Hans.
      cbn [uploadInputs answeredParts upi_PartNumber upi_Body].
      replace (1 + len bodies) with (len (w_parts w) + 1) by lia.
      rewrite Hok. reflexivity. }
    assert (Hbody : 0 < len body < 2 * ChunkSize d).
    { subst body. rewrite len_app.
      pose proof (len_nonneg (w_readyPart w)). pose proof (len_nonneg (w_pendingPart w)).
      split; [|lia]. apply andb_false_iff in Hempty as [Hne|Hne];
        apply Z.eqb_neq in Hne; lia. }
    eexists _, (bodies ++ [body]).
    split.
    { rewrite uploadInputs_app, map_app, <- !app_assoc. cbn [uploadInputs map app].
      replace (1 + len bodies) with (len (w_parts w) + 1) by lia. reflexivity. }
    cbn [w_driver w_parts w_key w_uploadID w_readyPart w_pendingPart w_size
         with_pendingPart with_readyPart with_parts].
    split; [exact Hans'|].
    split; [rewrite concat_app; cbn [concat]; rewrite app_nil_r; subst body; exact Hdata|].
    split; [apply Forall_app; split; [exact Hbodies | by constructor]|].
    split.
    { intros i b Hi Hlt. rewrite length_app in Hlt. cbn [length] in Hlt.
      rewrite lookup_app_l in Hi by lia. by eapply Forall_lookup_1 in Hall. }
    by repeat split.
Qed.


(** X8. Close uploads what is buffered and leaves the upload open.  Under
    the same assumptions, a fresh writer given the buffers [ps] and then
    closed has issued only UploadPart requests, whose bodies concatenated are
    the buffers concatenated; it is closed, neither committed nor cancelled,
    and a writer created later on the parts it has recorded (as Writer does
    when it appends) starts with the same size. *)
Theorem Close_uploads_what_was_written (fuel : nat) (d : driver)
    (key uploadID : string) (h0 : history) (ps : list bytes) :
  minChunkSize <= ChunkSize d ->
  (forall h i, exists etag, UploadPart (S3client d) h i = inr etag) ->
  Forall (fun p => (length p <= fuel)%nat) ps ->
  exists w' bodies,
    run fuel (map CallWrite ps ++ [CallClose]) (newWriter d key uploadID []) h0
    = Some (w', h0 ++ map ReqUploadPart (uploadInputs d key uploadID 1 bodies))
    /\ answeredParts (S3client d) h0 (uploadInputs d key uploadID 1 bodies)
       = Some (w_parts w')
    /\ concat bodies = concat ps
    /\ flags w' = (true, false, false)
    /\ Size w' = wrap64 (len (concat ps))
    /\ Size w' = Size (newWriter d key uploadID (w_parts w')).
Proof.
  intros Hchunk Hup Hfuel.
  destruct (upload_so_far_Writes d key uploadID h0 Hchunk Hup fuel ps Hfuel
              [CallClose] [] _ _ (upload_so_far_new d key uploadID h0 Hchunk))
    as (w & h & Hso & ->).
  pose proof Hso as (_ & _ & _ & _ & _ & _ & _ & _ & _ & Hterm & _).
  destruct (upload_so_far_flush d key uploadID h0 _ w h Hchunk Hup Hso)
    as (w1 & bodies & Hflush & Hans & Hdata & Hbodies & Hfull & _ & _ & Hd & Hk & Hu
        & Hsize & Hflags).
  cbn [run exec]. unfold Close. unfold terminated in Hterm.
  destruct (w_closed w) eqn:Hc; [done|].
  destruct (w_committed w) eqn:Hm; [done|].
  destruct (w_cancelled w) eqn:Hx; [done|].
  rewrite flushPart_closed, Hflush.
  exists (with_closed true w1), bodies.
  split; [reflexivity|]. split; [exact Hans|]. split; [exact Hdata|].
  split.
  { unfold flags in *. cbn. injection Hflags as _ -> ->. by rewrite Hm, Hx. }
  split; [exact Hsize|].
  cbn [Size with_closed w_size w_parts]. rewrite Hsize, newWriter_size. f_equal.
  rewrite <- Hdata. symmetry. by eapply answeredParts_sum.
Qed.

(** ** Instances of the further properties on concrete inputs *)

(** X2 at a slice of three strings. *)
Lemma reverse_slice_reverses_witness :
  reverse_slice 1 ["a"; "b"; "c"]%string = Some (Returned ["c"; "b"; "a"]%string).
Proof.
  apply (reverse_slice_reverses ["a"; "b"; "c"]%string 1). vm_compute. lia.
Defined.

(** X3 at the fifth example of the comment of directoryDiff. *)
Lemma directoryDiff_terminates_witness :
  exists dirs,
    directoryDiff 27 "/" "/path/to/folder/folder/file" = Some dirs
    /\ Forall (diffDir "/" "/path/to/folder/folder/file") dirs
    /\ StronglySorted shorter dirs.
Proof.
  apply (directoryDiff_terminates 27 "/" "/path/to/folder/folder/file").
  - reflexivity.
  - vm_compute. lia.
Defined.

Lemma siblingS3_walkable :
  walkable 6 (exampleDriver siblingS3 defaultChunkSize "")
    (lvp_pages (ListObjectsV2PagesWithContext siblingS3 []
                  (walkInput (exampleDriver siblingS3 defaultChunkSize "") "/"))).
Proof.
  repeat constructor.
Qed.

(** X4 on the bucket with the keys [a-b/c] and [a/x], with a callback that
    fails at the first file. *)
Lemma Walk_stops_at_callback_error_witness :
  exists r events,
    Walk 6 (exampleDriver siblingS3 defaultChunkSize "") "/" stopAtFile []
    = Some (r, events,
            [] ++ [ReqListObjectsV2Pages
                     (walkInput (exampleDriver siblingS3 defaultChunkSize "") "/")])
    /\ (forall evs ev e,
          events = evs ++ [ev] -> stopAtFile evs ev = Some e -> e <> ErrSkipDir ->
          r = Some e).
Proof.
  destruct (Walk_stops_at_callback_error 6
              (exampleDriver siblingS3 defaultChunkSize "") "/" stopAtFile []
              siblingS3_walkable) as (r & events & Hwalk & _ & Herr & _).
  exists r, events. split; [exact Hwalk | exact Herr].
Defined.

(** X5 on the same bucket, with a callback that skips every directory. *)
Lemma Walk_skips_under_skipped_directory_witness :
  exists r events,
    Walk 6 (exampleDriver siblingS3 defaultChunkSize "") "/" skipDirs []
    = Some (r, events,
            [] ++ [ReqListObjectsV2Pages
                     (walkInput (exampleDriver siblingS3 defaultChunkSize "") "/")])
    /\ forall evs ev rest,
         events = evs ++ ev :: rest ->
         skipped skipDirs [] evs "" = ""%string
         \/ HasPrefix (fi_Path ev) (skipped skipDirs [] evs "") = false.
Proof.
  exact (Walk_skips_under_skipped_directory 6
           (exampleDriver siblingS3 defaultChunkSize "") "/" skipDirs []
           siblingS3_walkable).
Defined.

(** X6 on the same bucket, with the callback that accepts every event. *)
Lemma Walk_visits_every_object_witness :
  exists r events,
    Walk 6 (exampleDriver siblingS3 defaultChunkSize "") "/" acceptAll []
    = Some (r, events,
            [] ++ [ReqListObjectsV2Pages
                     (walkInput (exampleDriver siblingS3 defaultChunkSize "") "/")])
    /\ filter (fun ev => fi_IsDir ev = false) events
       = [mkFileInfo "/a-b/c" 1 0 false; mkFileInfo "/a/x" 1 0 false].
Proof.
  destruct (Walk_visits_every_object 6
              (exampleDriver siblingS3 defaultChunkSize "") "/" acceptAll []
              ltac:(reflexivity) siblingS3_walkable) as (r & events & Hwalk & Hev & _).
  exists r, events. split; [exact Hwalk | exact Hev].
Defined.


(** X8 at the same input, closed instead of committed. *)
Lemma Close_uploads_what_was_written_witness :
  exists w' bodies,
    fst <$> run 3 [CallWrite abc; CallWrite def; CallClose]
              (newWriter (exampleDriver emptyS3 defaultChunkSize "") "key" "upload-0" [])
              []
    = Some w'
    /\ concat bodies = abc ++ def
    /\ flags w' = (true, false, false).
Proof.
  destruct (Close_uploads_what_was_written 3
              (exampleDriver emptyS3 defaultChunkSize "") "key" "upload-0" []
              [abc; def])
    as (w' & bodies & Hrun & _ & Hdata & Hflags & _).
  - by vm_compute.
  - intros h i. eexists. reflexivity.
  - repeat constructor.
  - exists w', bodies. split; [|split; [exact Hdata | exact Hflags]].
    cbn [map app] in Hrun. rewrite Hrun. reflexivity.
Defined.

(** ** The writer: a single Write, and Commit after a failed upload *)

(** X9. Write keeps the bytes in order.  Let the writer have no status flag
    set and no short last part, and let its buffers be in the state every
    call leaves them in when no upload fails.  Then Write returns; and when
    it returns without error it has taken the whole of [p], it has issued
    only UploadPart requests, numbered on from the parts recorded, on the
    key and upload of the writer, each of exactly the chunk size; it has
    recorded one part for each; and the bodies uploaded followed by the two
    buffers are the two buffers as they were followed by [p]. *)
Theorem Write_keeps_bytes_in_order (fuel : nat) (p : bytes) (w : writer) (h : history) :
  terminated w = false ->
  lastPartShort w = false ->
  buffers_ordered w ->
  (length p <= fuel)%nat ->
  (exists res, Write fuel p w h = Some res)
  /\ forall n w' h',
       Write fuel p w h = Some ((n, None), w', h') ->
       exists bodies new,
         n = len p
         /\ h' = h ++ map ReqUploadPart
                        (uploadInputs (w_driver w) (w_key w) (w_uploadID w)
                           (len (w_parts w) + 1) bodies)
         /\ answeredParts (S3client (w_driver w)) h
              (uploadInputs (w_driver w) (w_key w) (w_uploadID w)
                 (len (w_parts w) + 1) bodies) = Some new
         /\ w_parts w' = w_parts w ++ new
         /\ concat bodies ++ w_readyPart w' ++ w_pendingPart w'
            = w_readyPart w ++ w_pendingPart w ++ p
         /\ Forall (fun body => len body = ChunkSize (w_driver w)) bodies
         /\ buffers_ordered w'
         /\ Size w' = add64 (Size w) (len p).
Proof.
  intros Hterm Hshort Hord Hfuel. unfold Write, terminated in *.
  destruct (w_closed w); [done|].
  destruct (w_committed w); [done|].
  destruct (w_cancelled w); [done|].
  rewrite Hshort. split.
  - apply writeLoop_terminates; [apply Hord | exact Hfuel].
  - intros n w' h' Hrun. apply writeLoop_uploads in Hrun; [|exact Hord].
    destruct Hrun as (bodies & new & Hh & Hans & Hparts & Hdata & Hall & Hn & Hord'
                      & Hsize & _).
    exists bodies, new. rewrite Z.add_0_l in Hn. subst n.
    split; [reflexivity|]. split; [exact Hh|]. split; [exact Hans|].
    split; [exact Hparts|]. split; [exact Hdata|]. split; [exact Hall|].
    split; [exact Hord' | exact Hsize].
Qed.



(** X9 at a chunk size of 4 bytes and 8 bytes written to a fresh writer. *)
Lemma Write_keeps_bytes_in_order_witness :
  exists w' h' bodies,
    Write 8 eightBytes
      (newWriter (exampleDriver emptyS3 4 "") "key" "upload-0" []) []
    = Some ((8, None), w', h')
    /\ concat bodies ++ w_readyPart w' ++ w_pendingPart w' = eightBytes.
Proof.
  assert (HW : exists w' h',
             Write 8 eightBytes
               (newWriter (exampleDriver emptyS3 4 "") "key" "upload-0" []) []
             = Some ((8, None), w', h')).
  { eexists _, _. vm_compute. reflexivity. }
  destruct HW as (w' & h' & HW).
  destruct (proj2 (Write_keeps_bytes_in_order 8 eightBytes
                     (newWriter (exampleDriver emptyS3 4 "") "key" "upload-0" []) []
                     eq_refl eq_refl
                     ltac:(split; [by left | split; by vm_compute])
                     ltac:(vm_compute; lia))
              _ _ _ HW)
    as (bodies & new & _ & _ & _ & _ & Hdata & _).
  exists w', h', bodies. split; [exact HW | exact Hdata].
Defined.

(** ** copy: a part that fails *)

Lemma firstError_app_Some (a b : list (option error)) (err : error) :
  firstError a = Some err -> firstError (a ++ b) = Some err.
Proof.
  induction a as [|[e|] a IH]; cbn [firstError app]; [done|done|exact IH].
Qed.

Lemma firstError_app_None (a b : list (option error)) :
  firstError a = None -> firstError (a ++ b) = firstError b.
Proof.
  induction a as [|[e|] a IH]; cbn [firstError app]; [done|done|exact IH].
Qed.

Section CopyPartsAny.
Variables (d : driver) (sourcePath destPath uploadId : string) (size : Z).

Let req (i : nat) : request :=
  ReqUploadPartCopy (copyPartInput d sourcePath destPath uploadId size (Z.of_nat i)).


Lemma copyParts_keeps_error (sched : list nat) (err : error) :
  forall slots errChan h,
    firstError errChan = Some err ->
    firstError (snd (fst (copyParts d sourcePath destPath uploadId size sched
                            slots errChan h))) = Some err.
Proof.
  induction sched as [|i rest IH]; intros slots errChan h He; cbn [copyParts];
    [exact He|].
  destruct (UploadPartCopy _ _ _); apply IH; by apply firstError_app_Some.
Qed.

Lemma copyParts_first_error (sched : list nat) :
  forall slots errChan h,
    firstError errChan = None ->
    match firstError (snd (fst (copyParts d sourcePath destPath uploadId size sched
                                  slots errChan h))) with
    | None =>
        forall pre i post,
          sched = pre ++ i :: post ->
          exists etag,
            UploadPartCopy (S3client d) (h ++ map req pre)
              (copyPartInput d sourcePath destPath uploadId size (Z.of_nat i))
            = inr etag
    | Some err =>
        exists pre i post,
          sched = pre ++ i :: post
          /\ UploadPartCopy (S3client d) (h ++ map req pre)
               (copyPartInput d sourcePath destPath uploadId size (Z.of_nat i))
             = inl err
    end.
Proof.
  induction sched as [|i rest IH]; intros slots errChan h He; cbn [copyParts].
  - cbn. rewrite He. by intros [|??] ?? [=].
  - destruct (UploadPartCopy (S3client d) h _) as [err|etag] eqn:Hup.
    + rewrite copyParts_keeps_error with (err := err).
      * exists [], i, rest. cbn. by rewrite app_nil_r.
      * rewrite firstError_app_None by exact He. reflexivity.
    + match goal with
      | |- context [copyParts _ _ _ _ _ rest ?s ?e ?hh] =>
          specialize (IH s e hh)
      end.
      rewrite firstError_app_None in IH by exact He. specialize (IH eq_refl).
      destruct (firstError _) as [err|].
      * destruct IH as (pre & j & post & -> & Hj).
        exists (i :: pre), j, post. split; [reflexivity|].
        cbn [map]. rewrite <- app_assoc in Hj. exact Hj.
      * intros [|i' pre] j post Heq; cbn [app] in Heq; injection Heq as -> ->.
        -- exists etag. cbn. by rewrite app_nil_r.
        -- destruct (IH pre j post eq_refl) as [etag' Hj].
           exists etag'. cbn [map]. rewrite <- app_assoc in Hj. exact Hj.
Qed.
End CopyPartsAny.



(** ** Writer *)

Lemma resumeUpload_none (x : S3more) (d : driver) (path key : string)
    (uploads : list MultipartUpload) (h : history) (l : log) :
  Forall (fun multi => mu_Key multi <> key) uploads ->
  resumeUpload x d path key uploads h l = (inl (PathNotFoundError path), l).
Proof.
  induction 1 as [|multi rest Hne _ IH]; [reflexivity|]. cbn [resumeUpload].
  destruct (String.eqb_spec key (mu_Key multi)) as [Heq|_]; [by destruct Hne|].
  exact IH.
Qed.

Lemma resumeUpload_first (x : S3more) (d : driver) (path key : string)
    (pre post : list MultipartUpload) (multi : MultipartUpload) (h : history) (l : log) :
  Forall (fun m => mu_Key m <> key) pre ->
  mu_Key multi = key ->
  resumeUpload x d path key (pre ++ multi :: post) h l
  = match ListParts x h l (mkListPartsInput (Bucket d) key (mu_UploadId multi)) with
    | inl err =>
        (inl (parseError path err),
         l ++ [ReqListParts (mkListPartsInput (Bucket d) key (mu_UploadId multi))])
    | inr parts =>
        (inr (newWriter d key (mu_UploadId multi) parts),
         l ++ [ReqListParts (mkListPartsInput (Bucket d) key (mu_UploadId multi))])
    end.
Proof.
  intros Hpre Hkey. induction Hpre as [|m pre Hne _ IH]; cbn [app resumeUpload].
  - rewrite Hkey, String.eqb_refl. reflexivity.
  - destruct (String.eqb_spec key (mu_Key m)) as [Heq|_]; [by destruct Hne|].
    exact IH.
Qed.

(** X12. Writer.  Without [append], Writer sends one CreateMultipartUpload
    for the key of the path, with the options of the driver; it returns the
    error of that call as it is, or a writer on the new upload with no part,
    size 0 and empty buffers.  With [append], Writer lists the uploads whose
    key begins with the key of the path and resumes the first one whose key
    is that key exactly: it sends one ListParts for it and returns a writer
    on that upload with the parts listed, whose size is the sum of their
    sizes; uploads listed before it under longer keys are passed over.  When
    no upload listed has that key, Writer returns PathNotFound for the path
    and sends no ListParts. *)
Theorem Writer_resumes_first_exact_upload (x : S3more) (d : driver) (path : string)
    (h : history) (l : log) :
  let key := s3Path d path in
  let cinput := mkCreateMultipartUploadInput (Bucket d) key (getContentType d)
                  (getACL d) (getEncryptionMode d) (getSSEKMSKeyID d)
                  (getStorageClass d) in
  let linput := mkListMultipartUploadsInput (Bucket d) key in
  (forall uploadId,
     CreateMultipartUpload (S3client d) h cinput = inr uploadId ->
     Writer x d path false h l
     = (inr (newWriter d key uploadId []), h ++ [ReqCreateMultipartUpload cinput], l)
     /\ Size (newWriter d key uploadId []) = 0)
  /\ (forall err,
        CreateMultipartUpload (S3client d) h cinput = inl err ->
        Writer x d path false h l = (inl err, h ++ [ReqCreateMultipartUpload cinput], l))
  /\ (forall uploads,
        ListMultipartUploads x h l linput = inr uploads ->
        Forall (fun multi => mu_Key multi <> key) uploads ->
        Writer x d path true h l
        = (inl (PathNotFoundError path), h, l ++ [ReqListMultipartUploads linput]))
  /\ (forall pre multi post parts,
        ListMultipartUploads x h l linput = inr (pre ++ multi :: post) ->
        Forall (fun m => mu_Key m <> key) pre ->
        mu_Key multi = key ->
        ListParts x h (l ++ [ReqListMultipartUploads linput])
          (mkListPartsInput (Bucket d) key (mu_UploadId multi)) = inr parts ->
        Writer x d path true h l
        = (inr (newWriter d key (mu_UploadId multi) parts), h,
           l ++ [ReqListMultipartUploads linput;
                 ReqListParts (mkListPartsInput (Bucket d) key (mu_UploadId multi))])
        /\ Size (newWriter d key (mu_UploadId multi) parts) = wrap64 (sumSizes parts)
        /\ w_parts (newWriter d key (mu_UploadId multi) parts) = parts
        /\ w_readyPart (newWriter d key (mu_UploadId multi) parts) = []
        /\ w_pendingPart (newWriter d key (mu_UploadId multi) parts) = []
        /\ terminated (newWriter d key (mu_UploadId multi) parts) = false).
Proof.
  intros key cinput linput. unfold Writer. fold key cinput linput. cbn [negb].
  split; [|split; [|split]].
  - intros uploadId ->. by split.
  - by intros err ->.
  - intros uploads -> Hall. by rewrite resumeUpload_none.
  - intros pre multi post parts -> Hpre Hkey Hparts.
    rewrite resumeUpload_first by done. rewrite Hparts.
    split; [by rewrite <- app_assoc|]. split; [apply newWriter_size|]. done.
Qed.

(** ** Delete *)

Lemma slice_batch {A} (s : list A) (i : Z) :
  0 <= i < len s ->
  slice s i (min (i + 1000) (len s)) = take 1000 (drop (Z.to_nat i) s).
Proof.
  intros Hi. unfold slice, min.
  destruct (Z.ltb_spec (i + 1000) (len s)) as [Hlt|Hge].
  - f_equal. lia.
  - rewrite !take_ge; [done| |]; rewrite length_drop; unfold len in *; lia.
Qed.

Section DeleteBatches.
Variables (x : S3more) (d : driver) (s3Objects : list string) (h : history).
Hypothesis deletes_succeed :
  forall l i, exists output,
    DeleteObjects x h l i = inr output /\ deo_Errors output = [].

Lemma deleteBatches_all (fuel : nat) :
  forall i l,
    0 <= i ->
    (length (drop (Z.to_nat i) s3Objects) <= fuel)%nat ->
    exists batches,
      deleteBatches fuel x d s3Objects i h l
      = Some (None, l ++ map (deleteRequest d) batches)
      /\ concat batches = drop (Z.to_nat i) s3Objects
      /\ Forall (fun batch => 0 < len batch <= 1000) batches
      /\ (forall j batch,
            batches !! j = Some batch -> (S j < length batches)%nat ->
            len batch = 1000).
Proof.
  induction fuel as [|fuel IH]; intros i l Hi Hfuel; cbn [deleteBatches];
    destruct (Z.ltb_spec i (len s3Objects)) as [Hlt|Hge].
  - rewrite length_drop in Hfuel. unfold len in Hlt. lia.
  - exists []. cbn. rewrite app_nil_r, drop_ge by (unfold len in Hge; lia).
    split; [done|]. split; [done|]. split; [constructor|]. by intros ? ? [=].
  - rewrite slice_batch by lia.
    match goal with
    | |- context [DeleteObjects x h l ?input] =>
        destruct (deletes_succeed l input) as (output & -> & ->)
    end.
    set (rest := drop (Z.to_nat i) s3Objects) in *.
    assert (Hrest : (0 < length rest)%nat).
    { subst rest. rewrite length_drop. unfold len in Hlt. lia. }
    change (ReqDeleteObjects (mkDeleteObjectsInput (Bucket d) (take 1000 rest) false))
      with (deleteRequest d (take 1000 rest)).
    destruct (IH (i + 1000) (l ++ [deleteRequest d (take 1000 rest)])) as
      (batches & -> & Hcat & Hall & Hfull).
    + lia.
    + replace (Z.to_nat (i + 1000)) with (Z.to_nat i + 1000)%nat by lia.
      rewrite <- drop_drop. fold rest. rewrite length_drop. lia.
    + replace (Z.to_nat (i + 1000)) with (Z.to_nat i + 1000)%nat in Hcat by lia.
      rewrite <- drop_drop in Hcat. fold rest in Hcat.
      exists (take 1000 rest :: batches). split; [|split; [|split]].
      * cbn [map]. by rewrite <- app_assoc.
      * cbn [concat]. by rewrite Hcat, take_drop.
      * constructor; [|exact Hall]. unfold len. rewrite length_take. lia.
      * intros [|j] batch Hj Hlen; cbn in Hj.
        -- injection Hj as <-. unfold len. rewrite length_take.
           destruct batches as [|b batches]; [cbn in Hlen; lia|].
           apply Forall_cons in Hall as [Hb _].
           assert (Hpos : (0 < length (drop 1000 rest))%nat).
           { rewrite <- Hcat. cbn [concat]. rewrite length_app.
             unfold len in Hb. lia. }
           rewrite length_drop in Hpos. lia.
        -- apply (Hfull j); [exact Hj | cbn in Hlen; lia].
  - exists []. cbn. rewrite app_nil_r, drop_ge by (unfold len in Hge; lia).
    split; [done|]. split; [done|]. split; [constructor|]. by intros ? ? [=].
Qed.
End DeleteBatches.

(** X13. Delete removes what it has collected, 1000 keys at a time.  When
    Stat succeeds, the listing loop has collected the keys [s3Objects], at
    least one, and every DeleteObjects call succeeds without an error entry,
    Delete sends the collected keys in DeleteObjects requests, in order and
    each key once: the batches concatenated are [s3Objects], no batch is
    empty or longer than 1000 keys, and every batch but the last holds
    exactly 1000; then it returns nil. *)
Theorem Delete_in_batches_of_1000 (fuel : nat) (x : S3more) (d : driver)
    (path : string) (h h1 h2 : history) (l : log) (stat : FileInfo)
    (s3Objects : list string) :
  Stat d path h = (inr stat, h1) ->
  deleteListLoop fuel d (s3Path d path +:+ "/") None
    (if negb (fi_IsDir stat) then [s3Path d path] else []) h1
  = Some (s3Objects, h2) ->
  s3Objects <> [] ->
  (forall l i, exists output,
     DeleteObjects x h2 l i = inr output /\ deo_Errors output = []) ->
  (length s3Objects <= fuel)%nat ->
  exists batches,
    Delete fuel x d path h l = Some (None, h2, l ++ map (deleteRequest d) batches)
    /\ concat batches = s3Objects
    /\ Forall (fun batch => 0 < len batch <= 1000) batches
    /\ (forall j batch,
          batches !! j = Some batch -> (S j < length batches)%nat ->
          len batch = 1000).
Proof.
  intros HStat Hlist Hne Hdel Hfuel. unfold Delete. rewrite HStat, Hlist.
  destruct (Z.eqb_spec (len s3Objects) 0) as [H0|_].
  { apply len_zero_iff in H0. done. }
  destruct (deleteBatches_all x d s3Objects h2 Hdel fuel 0 l ltac:(lia) Hfuel)
    as (batches & -> & Hcat & Hall & Hfull).
  exists batches. by repeat split.
Qed.

Lemma deleteBatches_single (fuel : nat) (x : S3more) (d : driver) (key : string)
    (h : history) (l : log) :
  deleteBatches (S fuel) x d [key] 0 h l
  = match DeleteObjects x h l (mkDeleteObjectsInput (Bucket d) [key] false) with
    | inl err => Some (Some err, l ++ [deleteRequest d [key]])
    | inr output =>
        match deo_Errors output with
        | code :: _ => Some (Some (OtherError code), l ++ [deleteRequest d [key]])
        | [] => Some (None, l ++ [deleteRequest d [key]])
        end
    end.
Proof.
  cbn [deleteBatches]. change (len [key]) with 1. change (0 <? 1) with true.
  cbv iota. change (slice [key] 0 (min (0 + 1000) 1)) with [key].
  destruct (DeleteObjects _ _ _ _) as [err|output]; [reflexivity|].
  destruct (deo_Errors output); [|reflexivity].
  destruct fuel; reflexivity.
Qed.

(** X14. Delete does not report a listing error.  When Stat succeeds and the
    first ListObjects of the listing loop fails, Delete goes on with what it
    has: for a directory that is nothing, and Delete returns PathNotFound for
    the path instead of the listing error; for a file it is the key of the
    file, which Delete removes with one DeleteObjects request, returning nil
    when that request succeeds. *)
Theorem Delete_hides_listing_error (fuel : nat) (x : S3more) (d : driver)
    (path : string) (h h1 : history) (l : log) (stat : FileInfo) (err : error) :
  let linput := mkListObjectsInput (Bucket d) (s3Path d path +:+ "/") None None None in
  let h2 := h1 ++ [ReqListObjects linput] in
  Stat d path h = (inr stat, h1) ->
  ListObjects (S3client d) h1 linput = inl err ->
  (fi_IsDir stat = true ->
   Delete (S fuel) x d path h l = Some (Some (PathNotFoundError path), h2, l))
  /\ (fi_IsDir stat = false ->
      forall output,
        DeleteObjects x h2 l (mkDeleteObjectsInput (Bucket d) [s3Path d path] false)
        = inr output ->
        deo_Errors output = [] ->
        Delete (S fuel) x d path h l
        = Some (None, h2, l ++ [deleteRequest d [s3Path d path]])).
Proof.
  intros linput h2 HStat Hlist. unfold Delete. rewrite HStat.
  cbn [deleteListLoop]. fold linput. rewrite Hlist. fold h2. split.
  - intros ->. reflexivity.
  - intros -> output Hdel Herrs. cbn [negb].
    change (len [s3Path d path] =? 0) with false. cbv iota.
    by rewrite deleteBatches_single, Hdel, Herrs.
Qed.

(** X15. A path that does not exist.  When the HEAD request for the key of
    the path fails and the listing under the key returns no object and no
    common prefix, Stat returns PathNotFound for the path after these two
    requests, and so do copy and Move from the path and Delete of the path:
    none of them sends another request, and nothing is deleted.  When
    GetObject answers NoSuchKey, GetContent returns PathNotFound for the
    path as well. *)
Theorem missing_path_is_PathNotFound (fuel : nat) (sched : nat -> list nat)
    (x : S3more) (d : driver) (path destPath : string) (h : history) (l : log)
    (herr : error) (resp : ListObjectsOutput) :
  let hinput := mkHeadObjectInput (Bucket d) (s3Path d path) in
  let linput := mkListObjectsInput (Bucket d) (s3Path d path) None (Some 1) None in
  let h2 := h ++ [ReqHeadObject hinput; ReqListObjects linput] in
  HeadObject (S3client d) h hinput = inl herr ->
  ListObjects (S3client d) (h ++ [ReqHeadObject hinput]) linput = inr resp ->
  loo_Contents resp = [] ->
  loo_CommonPrefixes resp = [] ->
  Stat d path h = (inl (PathNotFoundError path), h2)
  /\ copy sched d path destPath h
     = (Some (Returned (Some (PathNotFoundError path))), h2)
  /\ Move fuel sched x d path destPath h l
     = Some (Returned (Some (PathNotFoundError path)), h2, l)
  /\ Delete fuel x d path h l = Some (Some (PathNotFoundError path), h2, l)
  /\ (forall message,
        GetObject (S3client d) h
          (mkGetObjectInput (Bucket d) (s3Path d path) (Some "bytes=0-"%string))
        = inl (AwsError "NoSuchKey" message) ->
        fst (GetContent d path h) = ([], Some (PathNotFoundError path))).
Proof.
  intros hinput linput h2 Hhead Hlist Hc Hp.
  assert (HStat : Stat d path h = (inl (PathNotFoundError path), h2)).
  { unfold Stat. fold hinput linput. rewrite Hhead, Hlist, Hc, Hp.
    unfold h2. by rewrite <- app_assoc. }
  assert (Hcopy : copy sched d path destPath h
                  = (Some (Returned (Some (PathNotFoundError path))), h2)).
  { unfold copy. rewrite HStat. reflexivity. }
  split; [exact HStat|]. split; [exact Hcopy|].
  split; [unfold Move; by rewrite Hcopy|].
  split; [unfold Delete; by rewrite HStat|].
  intros message Hget. unfold GetContent, Reader.
  change (FormatInt 0) with "0"%string.
  change ("bytes=" +:+ "0" +:+ "-") with "bytes=0-"%string.
  rewrite Hget. reflexivity.
Qed.

(** X16. Move of a small object.  When the source is an object no larger
    than the copy threshold, nothing is listed under it, and the copy and
    the deletion succeed, Move returns nil after exactly five requests: the
    HEAD of the source, the CopyObject from the source to the key of the
    destination, the HEAD and the listing of the source by which Delete
    looks for what to remove, and one DeleteObjects for the key of the
    source alone. *)
Theorem Move_small_object (fuel : nat) (sched : nat -> list nat) (x : S3more)
    (d : driver) (sourcePath destPath : string) (h : history) (l : log)
    (size size' : Z) (mtime mtime' : option Z) (resp : ListObjectsOutput)
    (output : DeleteObjectsOutput) :
  let key := s3Path d sourcePath in
  let head := ReqHeadObject (mkHeadObjectInput (Bucket d) key) in
  let cinput := mkCopyObjectInput (Bucket d) (s3Path d destPath)
                  (getContentType d) (getACL d) (getEncryptionMode d)
                  (getSSEKMSKeyID d) (getStorageClass d) (Bucket d +:+ "/" +:+ key) in
  let linput := mkListObjectsInput (Bucket d) (key +:+ "/") None None None in
  let h4 := h ++ [head; ReqCopyObject cinput; head; ReqListObjects linput] in
  HeadObject (S3client d) h (mkHeadObjectInput (Bucket d) key)
  = inr (mkHeadObjectOutput (Some size) mtime) ->
  size <= MultipartCopyThresholdSize d ->
  CopyObject (S3client d) (h ++ [head]) cinput = inr tt ->
  HeadObject (S3client d) (h ++ [head; ReqCopyObject cinput])
    (mkHeadObjectInput (Bucket d) key)
  = inr (mkHeadObjectOutput (Some size') mtime') ->
  ListObjects (S3client d) (h ++ [head; ReqCopyObject cinput; head]) linput = inr resp ->
  loo_Contents resp = [] ->
  DeleteObjects x h4 l (mkDeleteObjectsInput (Bucket d) [key] false) = inr output ->
  deo_Errors output = [] ->
  Move (S fuel) sched x d sourcePath destPath h l
  = Some (Returned None, h4, l ++ [deleteRequest d [key]]).
Proof.
  intros key head cinput linput h4 Hhead Hsize Hcopy Hhead' Hlist Hc Hdel Herrs.
  unfold Move, copy, Stat. fold key. rewrite Hhead. cbn [hoo_ContentLength fi_Size].
  destruct (Z.leb_spec size (MultipartCopyThresholdSize d)); [|lia].
  fold cinput head. rewrite Hcopy.
  unfold Delete, Stat. fold key head.
  replace ((h ++ [head]) ++ [ReqCopyObject cinput])
    with (h ++ [head; ReqCopyObject cinput]) by (by rewrite <- app_assoc).
  rewrite Hhead'. cbn [hoo_ContentLength fi_IsDir negb deleteListLoop].
  fold linput.
  replace ((h ++ [head; ReqCopyObject cinput]) ++ [head])
    with (h ++ [head; ReqCopyObject cinput; head]) by (by rewrite <- app_assoc).
  rewrite Hlist, Hc. cbn [last].
  replace ((h ++ [head; ReqCopyObject cinput; head]) ++ [ReqListObjects linput])
    with h4 by (unfold h4; by rewrite <- app_assoc).
  change (len [key] =? 0) with false. cbv iota.
  by rewrite deleteBatches_single, Hdel, Herrs.
Qed.

(** X13 at a file under which nothing is listed: one batch of one key. *)
Lemma Delete_in_batches_of_1000_witness :
  exists batches h2,
    Delete 1 acceptingMore (exampleDriver bigObjectS3 defaultChunkSize "") "/f" [] []
    = Some (None, h2,
            [] ++ map (deleteRequest (exampleDriver bigObjectS3 defaultChunkSize ""))
                    batches)
    /\ concat batches = ["f"%string].
Proof.
  destruct (Delete_in_batches_of_1000 1 acceptingMore
              (exampleDriver bigObjectS3 defaultChunkSize "") "/f" []
              [ReqHeadObject (mkHeadObjectInput "bucket" "f")]
              [ReqHeadObject (mkHeadObjectInput "bucket" "f");
               ReqListObjects (mkListObjectsInput "bucket" "f/" None None None)]
              [] (mkFileInfo "/f" (100 * 2 ^ 20) 0 false) ["f"%string])
    as (batches & Hrun & Hcat & _).
  - reflexivity.
  - reflexivity.
  - discriminate.
  - intros l i. eexists. split; reflexivity.
  - cbn. lia.
  - exists batches. eexists. split; [exact Hrun | exact Hcat].
Defined.

(** X14 at a file of a bucket whose listings fail. *)
Lemma Delete_hides_listing_error_witness :
  exists h2,
    Delete 1 acceptingMore (exampleDriver failingListS3 defaultChunkSize "") "/f" [] []
    = Some (None, h2,
            [] ++ [deleteRequest (exampleDriver failingListS3 defaultChunkSize "")
                     ["f"%string]]).
Proof.
  eexists.
  refine (proj2 (Delete_hides_listing_error 0 acceptingMore
                   (exampleDriver failingListS3 defaultChunkSize "") "/f" []
                   [ReqHeadObject (mkHeadObjectInput "bucket" "f")] []
                   (mkFileInfo "/f" (100 * 2 ^ 20) 0 false)
                   (AwsError "InternalError" "") eq_refl eq_refl)
            eq_refl (mkDeleteObjectsOutput []) eq_refl eq_refl).
Defined.

(** X15 at an empty bucket. *)
Lemma missing_path_is_PathNotFound_witness :
  Delete 1 acceptingMore (exampleDriver emptyS3 defaultChunkSize "") "/absent" [] []
  = Some (Some (PathNotFoundError "/absent"),
          [] ++ [ReqHeadObject (mkHeadObjectInput "bucket" "absent");
                 ReqListObjects
                   (mkListObjectsInput "bucket" "absent" None (Some 1) None)],
          []).
Proof.
  exact (proj1 (proj2 (proj2 (proj2
           (missing_path_is_PathNotFound 1 lastFirst acceptingMore
              (exampleDriver emptyS3 defaultChunkSize "") "/absent" "/dst" [] []
              (AwsError "NotFound" "") (mkListObjectsOutput [] [] false None)
              eq_refl eq_refl eq_refl eq_refl))))).
Defined.

(** X16 at a 3-byte object. *)
Lemma Move_small_object_witness :
  exists h4,
    Move 1 lastFirst acceptingMore (exampleDriver smallObjectS3 defaultChunkSize "")
      "/src" "/dst" [] []
    = Some (Returned None, h4,
            [] ++ [deleteRequest (exampleDriver smallObjectS3 defaultChunkSize "")
                     ["src"%string]])
    /\ length h4 = 4%nat.
Proof.
  eexists. split.
  - refine (Move_small_object 0 lastFirst acceptingMore
              (exampleDriver smallObjectS3 defaultChunkSize "") "/src" "/dst" [] []
              3 3 (Some 0) (Some 0) (mkListObjectsOutput [] [] false None)
              (mkDeleteObjectsOutput []) eq_refl _ eq_refl eq_refl eq_refl eq_refl
              eq_refl eq_refl).
    by vm_compute.
  - reflexivity.
Defined.

(** ** Driver parameters *)

(** X17. getParameterAsInt64.  A value it returns lies between [min] and
    [max].  A key that is absent yields the default; a string yields what
    ParseInt makes of it and an int64 yields itself, each if and only if it
    lies in the range.  A uint64 above the largest int64 is converted to a
    negative number, and is therefore refused whenever [min] is not
    negative.  With no parameter given, the four integer parameters of
    FromParameters get their defaults; and whatever is given, a chunk size
    that is accepted is at least 5 MiB and at most 5 GiB. *)
Theorem getParameterAsInt64_range (ParseInt : string -> option Z)
    (parameters : gmap string parameter) (name : string) (defaultt min max : Z) :
  (forall rv,
     getParameterAsInt64 ParseInt parameters name defaultt min max = inr rv ->
     min <= rv <= max)
  /\ (parameters !! name = None ->
      min <= defaultt <= max ->
      getParameterAsInt64 ParseInt parameters name defaultt min max = inr defaultt)
  /\ (forall v vv,
        parameters !! name = Some (ParamString v) -> ParseInt v = Some vv ->
        (getParameterAsInt64 ParseInt parameters name defaultt min max = inr vv
         <-> min <= vv <= max))
  /\ (forall v,
        parameters !! name = Some (ParamInt64 v) ->
        (getParameterAsInt64 ParseInt parameters name defaultt min max = inr v
         <-> min <= v <= max))
  /\ (forall v,
        parameters !! name = Some (ParamUint64 v) ->
        int64_max < v < 2 ^ 64 -> 0 <= min ->
        getParameterAsInt64 ParseInt parameters name defaultt min max
        = inl (OutOfRange name (v - 2 ^ 64) min max))
  /\ chunkSizeParameter ParseInt ∅ = inr defaultChunkSize
  /\ multipartCopyChunkSizeParameter ParseInt ∅ = inr defaultMultipartCopyChunkSize
  /\ multipartCopyMaxConcurrencyParameter ParseInt ∅
     = inr defaultMultipartCopyMaxConcurrency
  /\ multipartCopyThresholdSizeParameter ParseInt ∅
     = inr defaultMultipartCopyThresholdSize
  /\ (forall rv,
        chunkSizeParameter ParseInt parameters = inr rv ->
        5 * 2 ^ 20 <= rv <= 5 * 2 ^ 30).
Proof.
  assert (Hrange : forall name defaultt min max rv,
            getParameterAsInt64 ParseInt parameters name defaultt min max = inr rv ->
            min <= rv <= max).
  { clear. intros name defaultt min max rv. unfold getParameterAsInt64.
    destruct (parameters !! name) as [[v|v|v|v|v|v|v|repr]|];
      try destruct (ParseInt v); try discriminate;
      match goal with
      | |- context [(?a <? min) || (?a >? max)] =>
          destruct (Z.ltb_spec a min); destruct (Z.gtb_spec a max);
          cbn [orb]; try discriminate; intros [= <-]; lia
      end. }
  split; [apply Hrange|].
  unfold getParameterAsInt64.
  split; [|split; [|split; [|split]]].
  - intros -> Hd.
    destruct (Z.ltb_spec defaultt min); [lia|].
    destruct (Z.gtb_spec defaultt max); [lia|]. reflexivity.
  - intros v vv -> ->.
    destruct (Z.ltb_spec vv min); destruct (Z.gtb_spec vv max); cbn [orb];
      split; (discriminate || lia || reflexivity || (intros; lia)).
  - intros v ->.
    destruct (Z.ltb_spec v min); destruct (Z.gtb_spec v max); cbn [orb];
      split; (discriminate || lia || reflexivity || (intros; lia)).
  - intros v -> Hv Hmin.
    assert (Hw : wrap64 v = v - 2 ^ 64).
    { unfold wrap64, int64_max in *.
      replace (v + 2 ^ 63) with ((v - 2 ^ 63) + 1 * 2 ^ 64) by lia.
      rewrite Z_mod_plus_full, Z.mod_small by lia. lia. }
    rewrite Hw. destruct (Z.ltb_spec (v - 2 ^ 64) min); [reflexivity|lia].
  - fold (getParameterAsInt64 ParseInt parameters name defaultt min max).
    repeat (split; [reflexivity|]).
    intros rv Hrv. apply Hrange in Hrv. exact Hrv.
Qed.

(** ** Listings served in pages *)

Lemma appendCommonPrefixes_named (d : driver) (cps new : list string) :
  Forall2 (fun cp dir => listedDirectory d cp = Some dir) cps new ->
  forall directories,
    appendCommonPrefixes (s3Path d "")
      (if String.eqb (s3Path d "") "" then "/" else "") cps directories
    = Some (directories ++ new).
Proof.
  induction 1 as [|cp dir cps new Hcp _ IH]; intros directories;
    cbn [appendCommonPrefixes].
  - by rewrite app_nil_r.
  - unfold listedDirectory in Hcp.
    destruct (drop_last_byte cp) as [cut|]; [|discriminate].
    injection Hcp as <-. rewrite IH, <- app_assoc. reflexivity.
Qed.

Lemma listPages_collects (d : driver) (path : string) (fuel : nat) :
  forall (rest : list ListObjectsOutput) (page : ListObjectsOutput)
         (files directories new : list string) (h : history),
    followsPage d path h page rest ->
    Forall2 (fun cp dir => listedDirectory d cp = Some dir)
      (concat (map loo_CommonPrefixes (page :: rest))) new ->
    (length rest < fuel)%nat ->
    listPages fuel d path (if String.eqb (s3Path d "") "" then "/" else "")
      page files directories h
    = Some (Returned
              (inr (files ++ map (fun o => listedName d (obj_Key o))
                               (concat (map loo_Contents (page :: rest))),
                    directories ++ new)),
            h ++ listRequests d path (loo_NextMarker page) rest).
Proof.
  induction fuel as [|fuel IH]; intros rest page files directories new h Hfollow Hdirs Hfuel;
    [lia|].
  cbn [listPages]. cbn [map concat] in Hdirs.
  apply Forall2_app_inv_l in Hdirs as (dirs1 & dirs2 & Hd1 & Hd2 & ->).
  rewrite (appendCommonPrefixes_named d _ dirs1 Hd1).
  destruct rest as [|next rest].
  - cbn in Hfollow. rewrite Hfollow. cbn in Hd2. inversion Hd2; subst.
    cbn [map concat listRequests]. by rewrite !app_nil_r.
  - destruct Hfollow as (-> & Hnext & Hfollow). rewrite Hnext.
    rewrite (IH rest next _ _ dirs2 _ Hfollow Hd2) by (cbn in Hfuel; lia).
    cbn [map concat listRequests]. rewrite !map_app, <- !app_assoc. reflexivity.
Qed.

(** X18. List returns the entries of every page.  When the backend serves
    the listing of the path in the pages [page :: rest], each but the last
    marked as truncated, List fetches each page once, the first without a
    marker and every other with the NextMarker of the page before, and
    returns the names of the objects of all pages followed by the names of
    the common prefixes of all pages, each without its last byte; for a path
    other than the root with nothing listed it returns PathNotFound. *)
Theorem List_returns_every_page (fuel : nat) (d : driver) (opath : string) (h : history)
    (page : ListObjectsOutput) (rest : list ListObjectsOutput)
    (directories : list string) :
  let path := listPath opath in
  let files := map (fun o => listedName d (obj_Key o))
                 (concat (map loo_Contents (page :: rest))) in
  opath <> ""%string ->
  ListObjects (S3client d) h (listInput d path None) = inr page ->
  followsPage d path (h ++ [ReqListObjects (listInput d path None)]) page rest ->
  Forall2 (fun cp dir => listedDirectory d cp = Some dir)
    (concat (map loo_CommonPrefixes (page :: rest))) directories ->
  (length rest < fuel)%nat ->
  List fuel d opath h
  = Some (Returned
            (if negb (String.eqb opath "/") && (len files =? 0)
                && (len directories =? 0)
             then inl (PathNotFoundError opath)
             else inr (files ++ directories)),
          h ++ listRequests d path None (page :: rest)).
Proof.
  intros path files Hne Hfirst Hfollow Hdirs Hfuel.
  unfold List, listAll. subst path. unfold listPath in *.
  destruct (last_byte opath) as [c|] eqn:Hlast;
    [|by apply last_byte_None in Hlast].
  rewrite Hfirst.
  rewrite (listPages_collects d _ fuel rest page [] [] directories _ Hfollow Hdirs Hfuel).
  cbn [app listRequests]. fold files.
  rewrite <- app_assoc. cbn [app].
  destruct (negb (String.eqb opath "/") && (len files =? 0) && (len directories =? 0));
    reflexivity.
Qed.

Lemma deleteListLoop_collects (d : driver) (prefix : string) (fuel : nat) :
  forall (rest : list ListObjectsOutput) (page : ListObjectsOutput)
         (marker : option string) (s3Objects : list string) (h : history),
    ListObjects (S3client d) h (deleteInput d prefix marker) = inr page ->
    followsDeletePage d prefix (h ++ [ReqListObjects (deleteInput d prefix marker)])
      page rest ->
    (length rest < fuel)%nat ->
    deleteListLoop fuel d prefix marker s3Objects h
    = Some (s3Objects ++ map obj_Key (concat (map loo_Contents (page :: rest))),
            h ++ deleteListRequests d prefix marker (page :: rest)).
Proof.
  induction fuel as [|fuel IH]; intros rest page marker s3Objects h Hpage Hfollow Hfuel;
    [lia|].
  cbn [deleteListLoop]. fold (deleteInput d prefix marker). rewrite Hpage.
  destruct rest as [|next rest]; cbn [followsDeletePage] in Hfollow.
  - destruct Hfollow as [Hne Htrunc].
    destruct (last (loo_Contents page)) as [lastObj|] eqn:Hlast.
    + rewrite Htrunc. cbn [map concat deleteListRequests]. by rewrite app_nil_r.
    + apply last_None in Hlast. done.
  - destruct Hfollow as (Hne & Htrunc & Hnext & Hfollow).
    unfold lastKey in Hnext, Hfollow.
    destruct (last (loo_Contents page)) as [lastObj|] eqn:Hlast.
    + rewrite Htrunc. cbn [option_map] in Hnext, Hfollow.
      rewrite (IH rest next _ _ _ Hnext Hfollow) by (cbn in Hfuel; lia).
      cbn [map concat deleteListRequests]. unfold lastKey. rewrite Hlast.
      cbn [option_map]. rewrite !map_app, <- !app_assoc. reflexivity.
    + apply last_None in Hlast. done.
Qed.

(** X19. Delete removes every key listed under the path.  When Stat
    succeeds, the backend serves the listing under the key of the path
    followed by a separator in the non-empty pages [page :: rest], each but
    the last marked as truncated, and every DeleteObjects call succeeds
    without an error entry, Delete fetches each page once, the first
    without a marker and every other from the last key of the page before,
    and returns nil after DeleteObjects requests whose keys, in order, are
    the key of the path itself if Stat found a file, followed by the keys of
    all pages. *)
Theorem Delete_removes_every_listed_key (fuel : nat) (x : S3more) (d : driver)
    (path : string) (h h1 : history) (l : log) (stat : FileInfo)
    (page : ListObjectsOutput) (rest : list ListObjectsOutput) :
  let prefix := s3Path d path +:+ "/" in
  let s3Objects :=
    (if negb (fi_IsDir stat) then [s3Path d path] else [])
    ++ map obj_Key (concat (map loo_Contents (page :: rest))) in
  let h2 := h1 ++ deleteListRequests d prefix None (page :: rest) in
  Stat d path h = (inr stat, h1) ->
  ListObjects (S3client d) h1 (deleteInput d prefix None) = inr page ->
  followsDeletePage d prefix (h1 ++ [ReqListObjects (deleteInput d prefix None)])
    page rest ->
  (forall l i, exists output,
     DeleteObjects x h2 l i = inr output /\ deo_Errors output = []) ->
  (length rest < fuel)%nat ->
  (length s3Objects <= fuel)%nat ->
  exists batches,
    Delete fuel x d path h l = Some (None, h2, l ++ map (deleteRequest d) batches)
    /\ concat batches = s3Objects.
Proof.
  intros prefix s3Objects h2 HStat Hpage Hfollow Hdel Hfuel Hfuel'.
  unfold Delete. rewrite HStat. fold prefix.
  rewrite (deleteListLoop_collects d prefix fuel rest page None _ h1 Hpage Hfollow Hfuel).
  fold s3Objects h2.
  destruct (Z.eqb_spec (len s3Objects) 0) as [H0|_].
  { apply len_zero_iff in H0. subst s3Objects.
    apply app_eq_nil in H0 as [_ H0]. cbn [map concat] in H0.
    rewrite map_app in H0. apply app_eq_nil in H0 as [H0 _].
    apply map_eq_nil in H0. destruct rest; by destruct Hfollow. }
  destruct (deleteBatches_all x d s3Objects h2 Hdel fuel 0 l ltac:(lia) Hfuel')
    as (batches & -> & Hcat & _).
  exists batches. by split.
Qed.

(** X18 on the bucket that lists in two pages. *)
Lemma List_returns_every_page_witness :
  fst <$> List 2 (exampleDriver twoPageS3 defaultChunkSize "") "/a" []
  = Some (Returned (inr ["/a/f"; "/a/g"; "/a/b"]%string)).
Proof.
  rewrite (List_returns_every_page 2 (exampleDriver twoPageS3 defaultChunkSize "")
             "/a" [] firstPage [secondPage] ["/a/b"%string]).
  - reflexivity.
  - discriminate.
  - reflexivity.
  - repeat split; reflexivity.
  - repeat constructor.
  - cbn. lia.
Defined.

(** X19 on the same bucket. *)
Lemma Delete_removes_every_listed_key_witness :
  exists batches h2,
    Delete 2 acceptingMore (exampleDriver twoPageS3 defaultChunkSize "") "/a" [] []
    = Some (None, h2,
            [] ++ map (deleteRequest (exampleDriver twoPageS3 defaultChunkSize ""))
                    batches)
    /\ concat batches = ["a/f"; "a/g"]%string.
Proof.
  destruct (Delete_removes_every_listed_key 2 acceptingMore
              (exampleDriver twoPageS3 defaultChunkSize "") "/a" []
              [ReqHeadObject (mkHeadObjectInput "bucket" "a");
               ReqListObjects (mkListObjectsInput "bucket" "a" None (Some 1) None)]
              [] (mkFileInfo "/a" 0 0 true) firstPage [secondPage])
    as (batches & Hrun & Hcat).
  - reflexivity.
  - reflexivity.
  - repeat split; (discriminate || reflexivity).
  - intros l i. eexists. split; reflexivity.
  - cbn. lia.
  - cbn. lia.
  - exists batches. eexists. split; [exact Hrun | exact Hcat].
Defined.

(** ** Walk: termination from the keys listed *)

Lemma listedName_under_root (d : driver) (key : string) :
  underRoot d key ->
  rooted (listedName d key)
  /\ (String.length (listedName d key) <= S (String.length key))%nat.
Proof.
  unfold underRoot, listedName.
  destruct (String.eqb_spec (s3Path d "") "") as [Hr|Hr].
  - intros _. rewrite Hr.
    change (Replace1 key "" "/") with (Replace1 ("" +:+ key) "" "/").
    rewrite Replace1_prefix. split; [reflexivity|].
    rewrite length_append. cbn. lia.
  - intros Hpre. apply prefix_split in Hpre as [rest ->].
    rewrite append_assoc, Replace1_prefix.
    split; [reflexivity|]. rewrite !length_append. cbn. lia.
Qed.

Lemma walkable_under_root (fuel : nat) (d : driver) (pages : list (list Object)) :
  Forall (Forall (fun o => underRoot d (obj_Key o)
                           /\ (String.length (obj_Key o) < fuel)%nat)) pages ->
  walkable fuel d pages.
Proof.
  unfold walkable. intros Hall.
  eapply Forall_impl; [exact Hall|]. intros page Hpage.
  eapply Forall_impl; [exact Hpage|]. intros o [Hroot Hlen].
  destruct (listedName_under_root d (obj_Key o) Hroot) as [Hr Hl].
  split; [exact Hr | lia].
Qed.

Lemma filter_sublist {A} (P : A -> Prop) `{forall a, Decision (P a)} (l k : list A) :
  l `sublist_of` k -> filter P l `sublist_of` filter P k.
Proof.
  induction 1 as [|a l k _ IH|a l k _ IH].
  - constructor.
  - rewrite !filter_cons. destruct (decide (P a)); [by constructor | exact IH].
  - rewrite filter_cons. destruct (decide (P a)); [by constructor | exact IH].
Qed.

Lemma deliver_sublist (f : WalkFn) (walkInfos : list FileInfo) :
  forall st b st',
    deliver f walkInfos st = (b, st') ->
    exists delivered,
      ws_events st' = ws_events st ++ delivered
      /\ delivered `sublist_of` walkInfos.
Proof.
  induction walkInfos as [|walkInfo rest IH]; intros st b st' Hrun.
  - cbn in Hrun. inversion Hrun; subst. exists []. by rewrite app_nil_r.
  - cbn [deliver] in Hrun.
    destruct (negb (String.eqb (ws_prevSkipDir st) "")
              && HasPrefix (fi_Path walkInfo) (ws_prevSkipDir st)).
    { destruct (IH _ _ _ Hrun) as (delivered & Hev & Hsub).
      exists delivered. split; [exact Hev | by constructor]. }
    assert (Hone : forall st1,
              ws_events st1 = ws_events st ++ [walkInfo] ->
              exists delivered,
                ws_events st1 = ws_events st ++ delivered
                /\ delivered `sublist_of` walkInfo :: rest).
    { intros st1 Hev. exists [walkInfo]. split; [exact Hev|].
      constructor. apply sublist_nil_l. }
    assert (Hmore : forall st1 b' st2,
              ws_events st1 = ws_events st ++ [walkInfo] ->
              deliver f rest st1 = (b', st2) ->
              exists delivered,
                ws_events st2 = ws_events st ++ delivered
                /\ delivered `sublist_of` walkInfo :: rest).
    { intros st1 b' st2 Hev Hrest.
      destruct (IH _ _ _ Hrest) as (delivered & Hev' & Hsub).
      exists (walkInfo :: delivered). split; [|by constructor].
      rewrite Hev', Hev, <- app_assoc. reflexivity. }
    destruct (f (ws_events st) walkInfo) as [e|].
    + destruct e; try (inversion Hrun; subst b st'; by apply Hone).
      destruct (fi_IsDir walkInfo).
      * eapply Hmore; [|exact Hrun]. reflexivity.
      * inversion Hrun; subst b st'. by apply Hone.
    + eapply Hmore; [|exact Hrun]. reflexivity.
Qed.

Lemma walkPages_sublist (fuel : nat) (d : driver) (f : WalkFn) (listErr : option error)
    (pages : list (list Object)) :
  let prefix := if String.eqb (s3Path d "") "" then "/"%string else ""%string in
  walkable fuel d pages ->
  forall st err st',
    walkPages fuel f (s3Path d "") prefix pages listErr st = Some (err, st') ->
    exists delivered,
      ws_events st' = ws_events st ++ delivered
      /\ filter (fun ev => fi_IsDir ev = false) delivered
         `sublist_of` map (fileEvent d) (concat pages).
Proof.
  intros prefix. induction 1 as [|page pages Hpage _ IH]; intros st err st' Hrun.
  { cbn in Hrun. inversion Hrun; subst. exists []. by rewrite app_nil_r. }
  cbn [walkPages] in Hrun.
  destruct (pageWalkInfos_total fuel d page Hpage (ws_prevDir st) [])
    as (prevDir' & new & Hinfos & Hnew).
  fold prefix in Hinfos. rewrite Hinfos in Hrun. cbn [app] in Hrun.
  destruct (deliver f new _) as [b st1] eqn:Hdel.
  apply deliver_sublist in Hdel as (delivered1 & Hev1 & Hsub1). cbn [ws_events] in Hev1.
  apply (filter_sublist (fun ev => fi_IsDir ev = false)) in Hsub1.
  rewrite Hnew in Hsub1. cbn [concat]. rewrite map_app.
  destruct b.
  - destruct (IH _ _ _ Hrun) as (delivered2 & Hev2 & Hsub2).
    exists (delivered1 ++ delivered2). split.
    + rewrite Hev2, Hev1, <- app_assoc. reflexivity.
    + rewrite filter_app. by apply sublist_app.
  - inversion Hrun; subst. exists delivered1. split; [exact Hev1|].
    by apply sublist_inserts_r.
Qed.

(** X20. Walk terminates on every listing of keys under the root.  If every
    key listed lies under the root of the driver (any key, when the root is
    empty) and is shorter than the number of iterations allowed to the loop
    of directoryDiff, then Walk returns, whatever the callback does, after
    one ListObjectsV2 request; and the file events it has delivered are
    events of listed objects, in the order of the listing and none more
    often than it is listed. *)
Theorem Walk_terminates (fuel : nat) (d : driver) (from : string) (f : WalkFn)
    (h : history) :
  Forall (Forall (fun o => underRoot d (obj_Key o)
                           /\ (String.length (obj_Key o) < fuel)%nat))
    (lvp_pages (ListObjectsV2PagesWithContext (S3client d) h (walkInput d from))) ->
  exists r events,
    Walk fuel d from f h
    = Some (r, events, h ++ [ReqListObjectsV2Pages (walkInput d from)])
    /\ filter (fun ev => fi_IsDir ev = false) events
       `sublist_of`
       map (fileEvent d)
         (concat (lvp_pages
                    (ListObjectsV2PagesWithContext (S3client d) h (walkInput d from)))).
Proof.
  intros Hkeys. apply walkable_under_root in Hkeys.
  destruct (Walk_total fuel d from f h Hkeys) as (r & events & Hwalk).
  exists r, events. split; [exact Hwalk|].
  apply Walk_inv in Hwalk as (listErr & st & Hpages & -> & _ & _).
  apply walkPages_sublist in Hpages as (delivered & Hev & Hsub); [|exact Hkeys].
  cbn [ws_events app] in Hev. by rewrite Hev.
Qed.

(** X20 on the bucket with the keys [a-b/c] and [a/x], with the callback
    that skips every directory. *)
Lemma Walk_terminates_witness :
  exists r events,
    Walk 6 (exampleDriver siblingS3 defaultChunkSize "") "/" skipDirs []
    = Some (r, events,
            [] ++ [ReqListObjectsV2Pages
                     (walkInput (exampleDriver siblingS3 defaultChunkSize "") "/")])
    /\ filter (fun ev => fi_IsDir ev = false) events
       `sublist_of` [mkFileInfo "/a-b/c" 1 0 false; mkFileInfo "/a/x" 1 0 false].
Proof.
  apply (Walk_terminates 6 (exampleDriver siblingS3 defaultChunkSize "") "/" skipDirs []).
  repeat constructor.
Defined.

(** ** Appending to a small object *)



(** ** Writers resumed on an upload *)

Section ResumedUpload.
Variables (d : driver) (key uploadID : string) (parts0 : list Part) (h0 : history).
Hypothesis chunk_large : minChunkSize <= ChunkSize d.
Hypothesis uploads_succeed :
  forall h i, exists etag, UploadPart (S3client d) h i = inr etag.
Hypothesis last_large :
  lastPartShort (newWriter d key uploadID parts0) = false.




End ResumedUpload.






(** ** The options of the upload that Write creates *)

Lemma writeLoop_requests (fuel : nat) (p : bytes) (n : Z) (w : writer) (h : history) :
  forall r w' h',
    writeLoop fuel p n w h = Some (r, w', h') ->
    exists reqs, h' = h ++ reqs /\ Forall is_UploadPart reqs.
Proof.
  intros r w' h' Hrun.
  eapply writeLoop_exit in Hrun; [|apply progress_refl|done].
  destruct Hrun as (taken & new & reqs & rest & n' & w3 & h3 & Hpg & _ & Hcase).
  pose proof (pg_history _ _ _ _ _ _ _ _ _ _ _ Hpg) as Hh.
  pose proof (pg_requests _ _ _ _ _ _ _ _ _ _ _ Hpg) as Hreqs.
  destruct Hcase as [(_ & _ & -> & _)|(input & aerr & _ & -> & _)].
  - by exists reqs.
  - exists (reqs ++ [ReqUploadPart input]). split; [by rewrite Hh, app_assoc|].
    apply Forall_app. split; [exact Hreqs|]. by constructor.
Qed.

Lemma smallTailRecovery_requests (w : writer) (h : history) :
  let d := w_driver w in
  let complete := mkCompleteMultipartUploadInput (Bucket d) (w_key w) (w_uploadID w)
                    (map Some (sortParts (completedOf (w_parts w)))) in
  let create := mkCreateMultipartUploadInput (Bucket d) (w_key w) (getContentType d)
                  (getACL d) (getEncryptionMode d) None (getStorageClass d) in
  CompleteMultipartUpload (S3client d) h complete = inr tt ->
  forall e w1 h1,
    smallTailRecovery w h = (e, w1, h1) ->
    exists tail,
      h1 = h ++ ReqCompleteMultipartUpload complete :: ReqCreateMultipartUpload create
             :: tail
      /\ Forall (fun r => ~ is_CreateMultipartUpload r) tail.
Proof.
  intros d complete create Hcomplete e w1 h1. unfold smallTailRecovery.
  fold d. fold complete. rewrite Hcomplete. fold create.
  destruct (CreateMultipartUpload _ _ _) as [|newID].
  { intros [= <- <- <-]. exists []. rewrite <- app_assoc. by split. }
  destruct (w_size (with_uploadID newID w) <? minChunkSize).
  - destruct (GetObject _ _ _) as [|body]; [|destruct (body_err body)];
      intros [= <- <- <-]; eexists [_]; rewrite <- !app_assoc;
      (split; [reflexivity | constructor; [intros [] | constructor]]).
  - destruct (UploadPartCopy _ _ _);
      intros [= <- <- <-]; eexists [_]; rewrite <- !app_assoc;
      (split; [reflexivity | constructor; [intros [] | constructor]]).
Qed.

(** X24. The upload that Write creates has no KMS key.  On a driver that
    encrypts with a KMS key, the CreateMultipartUpload request of Writer
    asks for the encryption [aws:kms] under the key of the driver.  When
    Write finds the last part of a resumed upload below 5 MiB and the old
    upload is completed, Write returns, and the second request it has issued
    is a CreateMultipartUpload for the same key that asks for [aws:kms]
    without any key; it issues no other CreateMultipartUpload. *)
Theorem Write_creates_upload_without_kms_key (fuel : nat) (x : S3more) (d : driver)
    (path uploadID : string) (parts : list Part) (p : bytes) (h : history) (l : log) :
  let key := s3Path d path in
  let w0 := newWriter d key uploadID parts in
  let complete := mkCompleteMultipartUploadInput (Bucket d) key uploadID
                    (map Some (sortParts (completedOf parts))) in
  Encrypt d = true ->
  KeyID d <> ""%string ->
  0 < ChunkSize d ->
  lastPartShort w0 = true ->
  CompleteMultipartUpload (S3client d) h complete = inr tt ->
  (length p <= fuel)%nat ->
  (exists input,
     snd (fst (Writer x d path false h l)) = h ++ [ReqCreateMultipartUpload input]
     /\ cmi_Key input = key
     /\ cmi_ServerSideEncryption input = Some "aws:kms"%string
     /\ cmi_SSEKMSKeyId input = Some (KeyID d))
  /\ exists r w' input tail,
       Write fuel p w0 h
       = Some (r, w', h ++ ReqCompleteMultipartUpload complete
                        :: ReqCreateMultipartUpload input :: tail)
       /\ cmi_Key input = key
       /\ cmi_ServerSideEncryption input = Some "aws:kms"%string
       /\ cmi_SSEKMSKeyId input = None
       /\ Forall (fun r => ~ is_CreateMultipartUpload r) tail.
Proof.
  intros key w0 complete Henc Hkey Hchunk Hshort Hcomplete Hfuel.
  assert (Hmode : getEncryptionMode d = Some "aws:kms"%string).
  { unfold getEncryptionMode. rewrite Henc. cbn [negb].
    by destruct (String.eqb_spec (KeyID d) ""). }
  assert (Hid : getSSEKMSKeyID d = Some (KeyID d)).
  { unfold getSSEKMSKeyID. by destruct (String.eqb_spec (KeyID d) ""). }
  split.
  { unfold Writer. cbn [negb]. fold key. rewrite Hmode, Hid.
    destruct (CreateMultipartUpload _ _ _); cbn [fst snd]; by eexists. }
  unfold Write. cbn [w0 newWriter w_closed w_committed w_cancelled]. fold w0.
  rewrite Hshort.
  destruct (smallTailRecovery w0 h) as [[e w1] h1] eqn:Hrec.
  pose proof (smallTailRecovery_frame _ _ _ _ _ Hrec) as (Hd & _ & _ & _ & Hq).
  apply smallTailRecovery_requests in Hrec as (tail & -> & Htail); [|exact Hcomplete].
  cbn [w0 newWriter w_driver w_key w_uploadID w_parts] in *. rewrite Hmode.
  destruct e as [err|].
  { eexists _, _, _, tail. split; [reflexivity|]. by repeat split. }
  match goal with
  | |- context [writeLoop fuel p 0 w1 ?hh] =>
      destruct (writeLoop_terminates fuel p 0 w1 hh) as [[[r w'] h'] Hrun];
        [rewrite Hq, Hd; exact Hchunk | exact Hfuel |]
  end.
  rewrite Hrun. apply writeLoop_requests in Hrun as (reqs & -> & Hreqs).
  eexists r, w', _, (tail ++ reqs). split; [by rewrite <- app_assoc|].
  split; [reflexivity|]. split; [reflexivity|]. split; [reflexivity|].
  apply Forall_app. split; [exact Htail|].
  eapply Forall_impl; [exact Hreqs|]. intros [] Hu; try done. intros [].
Qed.

(** X24 on the driver that encrypts with the key [key-1], for a writer
    resumed on one part of 3 bytes. *)
Lemma Write_creates_upload_without_kms_key_witness :
  (exists input,
     snd (fst (Writer acceptingMore kmsDriver "/key" false [] []))
     = [ReqCreateMultipartUpload input]
     /\ cmi_SSEKMSKeyId input = Some "key-1"%string)
  /\ exists r w' input tail,
       Write 3 def (newWriter kmsDriver "key" "upload-0" [mkPart "etag-a" 1 3]) []
       = Some (r, w', ReqCompleteMultipartUpload
                        (mkCompleteMultipartUploadInput "bucket" "key" "upload-0"
                           [Some (mkCompletedPart "etag-a" 1)])
                      :: ReqCreateMultipartUpload input :: tail)
       /\ cmi_SSEKMSKeyId input = None.
Proof.
  destruct (Write_creates_upload_without_kms_key 3 acceptingMore kmsDriver "/key"
              "upload-0" [mkPart "etag-a" 1 3] def [] [])
    as [(input & Hw & _ & _ & Hid) (r & w' & input' & tail & HW & _ & _ & Hnone & _)].
  - reflexivity.
  - discriminate.
  - by vm_compute.
  - reflexivity.
  - reflexivity.
  - repeat constructor.
  - split.
    + exists input. split; [exact Hw | exact Hid].
    + exists r, w', input', tail. split; [exact HW | exact Hnone].
Defined.

(** ** Stat: a path that is the beginning of a key *)

(** X26. Stat takes the beginning of a key for a directory.  When the HEAD
    request for the key of the path fails and the listing by the key as a
    prefix returns one object under another key, Stat reports the path as a
    directory.  If nothing is listed under the key followed by a separator,
    List of the same path and Delete of the same path both return
    PathNotFound, and Delete sends no DeleteObjects request. *)
Theorem Stat_takes_key_prefix_for_directory (fuel : nat) (x : S3more) (d : driver)
    (path : string) (h : history) (l : log) (herr : error)
    (resp under : ListObjectsOutput) (o : Object) :
  let key := s3Path d path in
  let head := ReqHeadObject (mkHeadObjectInput (Bucket d) key) in
  let probe := mkListObjectsInput (Bucket d) key None (Some 1) None in
  let h2 := h ++ [head; ReqListObjects probe] in
  path <> ""%string -> path <> "/"%string ->
  HeadObject (S3client d) h (mkHeadObjectInput (Bucket d) key) = inl herr ->
  ListObjects (S3client d) (h ++ [head]) probe = inr resp ->
  loo_Contents resp = [o] ->
  obj_Key o <> key ->
  ListObjects (S3client d) h (listInput d (listPath path) None)
  = inr (mkListObjectsOutput [] [] false None) ->
  ListObjects (S3client d) h2 (deleteInput d (key +:+ "/") None) = inr under ->
  loo_Contents under = [] ->
  Stat d path h = (inr (mkFileInfo path 0 0 true), h2)
  /\ List (S fuel) d path h
     = Some (Returned (inl (PathNotFoundError path)),
             h ++ [ReqListObjects (listInput d (listPath path) None)])
  /\ Delete (S fuel) x d path h l
     = Some (Some (PathNotFoundError path),
             h2 ++ [ReqListObjects (deleteInput d (key +:+ "/") None)], l).
Proof.
  intros key head probe h2 Hne Hroot Hhead Hprobe Hone Hkey Hlist Hunder Hempty.
  assert (HStat : Stat d path h = (inr (mkFileInfo path 0 0 true), h2)).
  { unfold Stat. fold key. rewrite Hhead. fold head probe. rewrite Hprobe, Hone.
    destruct (String.eqb_spec (obj_Key o) key) as [|_]; [done|]. cbn [negb].
    unfold h2. by rewrite <- app_assoc. }
  split; [exact HStat|]. split.
  - unfold List, listAll, listPath in *.
    destruct (last_byte path) as [c|] eqn:Hlast;
      [|by apply last_byte_None in Hlast].
    destruct (String.eqb_spec path "/") as [|_]; [done|].
    rewrite Hlist. reflexivity.
  - unfold Delete. rewrite HStat. cbn [fi_IsDir negb deleteListLoop]. fold key.
    unfold deleteInput in Hunder. rewrite Hunder, Hempty. cbn [last].
    reflexivity.
Qed.

(** X26 on the bucket with the single object [ab], for the path [/a]. *)
Lemma Stat_takes_key_prefix_for_directory_witness :
  fst (Stat (exampleDriver abKeyS3 defaultChunkSize "") "/a" [])
  = inr (mkFileInfo "/a" 0 0 true)
  /\ fst <$> List 1 (exampleDriver abKeyS3 defaultChunkSize "") "/a" []
     = Some (Returned (inl (PathNotFoundError "/a")))
  /\ (fun r => fst (fst r)) <$>
       Delete 1 acceptingMore (exampleDriver abKeyS3 defaultChunkSize "") "/a" [] []
     = Some (Some (PathNotFoundError "/a")).
Proof.
  destruct (Stat_takes_key_prefix_for_directory 0 acceptingMore
              (exampleDriver abKeyS3 defaultChunkSize "") "/a" [] []
              (AwsError "NotFound" "")
              (mkListObjectsOutput [mkObject "ab" 7 0] [] false None)
              (mkListObjectsOutput [] [] false None)
              (mkObject "ab" 7 0))
    as (HStat & HList & HDelete).
  - discriminate.
  - discriminate.
  - reflexivity.
  - reflexivity.
  - reflexivity.
  - by vm_compute.
  - reflexivity.
  - reflexivity.
  - reflexivity.
  - split; [by rewrite HStat|]. split; [by rewrite HList | by rewrite HDelete].
Defined.

(** ** Walk under a root directory *)

Lemma ancestors_loop_fuel (fuel : nat) :
  forall path,
    rooted path -> (String.length path <= fuel)%nat ->
    ancestors_loop fuel path = ancestors path.
Proof.
  unfold ancestors.
  induction fuel as [fuel IH] using lt_wf_ind. intros path Hroot Hfuel.
  destruct fuel as [|fuel]; [destruct path; [discriminate | cbn in Hfuel; lia]|].
  destruct (String.length path) as [|n] eqn:Hn;
    [destruct path; [discriminate | discriminate]|].
  cbn [ancestors_loop].
  destruct (Dir_rooted path Hroot) as [Hr [->|Hlen]]; [reflexivity|].
  destruct (String.eqb (Dir path) "/"); [reflexivity|]. f_equal.
  rewrite (IH fuel ltac:(lia) (Dir path) Hr ltac:(lia)).
  rewrite (IH n ltac:(lia) (Dir path) Hr ltac:(lia)). reflexivity.
Qed.

(** With a [prev] that is not absolute, the loop of directoryDiff stops at
    the root only. *)
Lemma directoryDiff_loop_relative (fuel : nat) :
  forall prev parent paths,
    first_byte prev <> Some "/"%char ->
    rooted parent -> (String.length parent <= fuel)%nat ->
    directoryDiff_loop fuel prev parent paths
    = Some (paths ++ ancestors_loop fuel parent).
Proof.
  induction fuel as [|fuel IH]; intros prev parent paths Hprev Hroot Hfuel.
  { destruct parent; [discriminate | cbn in Hfuel; lia]. }
  cbn [directoryDiff_loop ancestors_loop].
  destruct (Dir_rooted parent Hroot) as [Hr Hlen].
  destruct (String.eqb_spec (Dir parent) "/") as [Hslash|Hslash].
  { by rewrite app_nil_r. }
  destruct Hlen as [|Hlen]; [done|].
  assert (Hne : String.eqb (Dir parent) prev = false).
  { apply String.eqb_neq. intros <-. by apply Hprev. }
  assert (Hpre : HasPrefix prev (Dir parent) = false).
  { unfold HasPrefix. unfold rooted in Hr.
    destruct (Dir parent) as [|c p]; [discriminate|]. injection Hr as ->.
    destruct prev as [|c' prev']; [reflexivity|]. cbn [String.prefix].
    destruct (ascii_dec _ c') as [<-|]; [|reflexivity]. by destruct Hprev. }
  rewrite Hne, Hpre. cbn [orb].
  rewrite (IH prev (Dir parent) (paths ++ [Dir parent]) Hprev Hr ltac:(lia)).
  by rewrite <- app_assoc.
Qed.

Lemma directoryDiff_relative (fuel : nat) (prev current : string) :
  prev <> ""%string -> first_byte prev <> Some "/"%char ->
  rooted current -> (String.length current <= fuel)%nat ->
  directoryDiff fuel prev current = Some (reverse (ancestors current)).
Proof.
  intros Hne Hprev Hroot Hfuel. unfold directoryDiff.
  destruct (String.eqb_spec prev "") as [|_]; [done|].
  destruct (String.eqb_spec current "") as [->|_]; [discriminate|]. cbn [orb].
  rewrite (directoryDiff_loop_relative fuel prev current [] Hprev Hroot Hfuel).
  cbn [app option_map]. by rewrite ancestors_loop_fuel.
Qed.

(** The key of a path under a root directory that has a key of its own is
    not empty and does not begin with a separator. *)
Lemma s3Path_relative (d : driver) (path : string) :
  s3Path d "" <> ""%string ->
  s3Path d path <> ""%string /\ first_byte (s3Path d path) <> Some "/"%char.
Proof.
  intros Hroot. split; [|apply first_byte_TrimLeft].
  rewrite s3Path_root. destruct (String.eqb_spec (s3Path d "") "") as [|_]; [done|].
  destruct (s3Path d "") as [|c r]; [done|]. by rewrite append_cons.
Qed.

(** X27. Under a root directory Walk reports the directories above the walked
    path.  On a driver whose root directory has a key of its own, with a
    callback that answers nil to every event and a listing of keys under the
    root, the first events Walk delivers are the directories above the first
    object listed, all of them from the top-level directory down to the
    directory of the object, whatever the walked path is; the event of the
    object follows. *)
Theorem Walk_under_root_reports_ancestors (fuel : nat) (d : driver) (from : string)
    (f : WalkFn) (h : history) (o : Object) (page : list Object)
    (rest : list (list Object)) :
  s3Path d "" <> ""%string ->
  (forall evs ev, f evs ev = None) ->
  lvp_pages (ListObjectsV2PagesWithContext (S3client d) h (walkInput d from))
  = (o :: page) :: rest ->
  Forall (Forall (fun o => underRoot d (obj_Key o)
                           /\ (String.length (obj_Key o) < fuel)%nat))
    ((o :: page) :: rest) ->
  exists r more,
    Walk fuel d from f h
    = Some (r,
            map dirEvent (reverse (ancestors (listedName d (obj_Key o))))
            ++ fileEvent d o :: more,
            h ++ [ReqListObjectsV2Pages (walkInput d from)]).
Proof.
  intros Hroot Hf Hpages Hkeys. apply walkable_under_root in Hkeys.
  assert (Hw : walkable fuel d
                 (lvp_pages (ListObjectsV2PagesWithContext (S3client d) h
                               (walkInput d from)))) by (by rewrite Hpages).
  destruct (Walk_total fuel d from f h Hw) as (r & events & Hwalk).
  exists r. rewrite Hwalk.
  apply Walk_inv in Hwalk as (listErr & st & Hrun & -> & _ & _).
  rewrite Hpages in Hrun.
  destruct (String.eqb_spec (s3Path d "") "") as [|_]; [done|].
  rewrite append_nil_l in Hrun.
  cbn [walkPages pageWalkInfos ws_prevDir] in Hrun.
  apply Forall_cons in Hkeys as [Hpage Hrest].
  apply Forall_cons in Hpage as [[Ho Hlen] Hpage].
  destruct (s3Path_relative d (if negb (HasSuffix from "/") then from +:+ "/" else from)
              Hroot) as [Hne Hrel].
  assert (Hname : Replace1 (obj_Key o) (s3Path d "") "" = listedName d (obj_Key o)).
  { unfold listedName. by destruct (String.eqb_spec (s3Path d "") ""). }
  rewrite Hname in Hrun.
  change (lvi_Prefix (walkInput d from))
    with (s3Path d (if negb (HasSuffix from "/") then from +:+ "/" else from)) in Hrun.
  rewrite (directoryDiff_relative fuel _ _ Hne Hrel Ho Hlen) in Hrun.
  set (dirs := reverse (ancestors (listedName d (obj_Key o)))) in *.
  assert (Hpage' : Forall (fun o => rooted (listedName d (obj_Key o))
                     /\ (String.length (listedName d (obj_Key o)) <= fuel)%nat) page)
    by exact Hpage.
  match type of Hrun with
  | context [pageWalkInfos fuel _ _ page ?prevDir ?infos] =>
      destruct (pageWalkInfos_total fuel d page Hpage' prevDir infos)
        as (prevDir' & new & Hinfos & _)
  end.
  destruct (String.eqb_spec (s3Path d "") "") as [|_]; [done|].
  rewrite Hinfos in Hrun. cbn [app] in Hrun.
  match type of Hrun with
  | context [deliver f ?infos ?st0] =>
      destruct (deliver_all f Hf infos st0 eq_refl) as (st1 & Hdel & Hev & _)
  end.
  rewrite Hdel in Hrun. cbn [ws_events app] in Hev.
  pose proof (walkPages_sublist fuel d f
                (lvp_err (ListObjectsV2PagesWithContext (S3client d) h
                            (walkInput d from))) rest) as Hsub.
  destruct (String.eqb_spec (s3Path d "") "") as [|_]; [done|].
  destruct (Hsub Hrest _ _ _ Hrun) as (delivered & Hev' & _).
  exists (new ++ delivered). f_equal. f_equal.
  rewrite Hev', Hev. unfold fileEvent, dirEvent.
  rewrite <- !app_assoc. reflexivity.
Qed.

(** X27 on the bucket with the object [r/a/b/f], for the root directory [/r]
    and the walk of [/a/b]: the directories [/a] and [/a/b] are reported
    before the file. *)
Lemma Walk_under_root_reports_ancestors_witness :
  exists r more,
    Walk 9 (exampleDriver nestedS3 defaultChunkSize "/r") "/a/b" acceptAll []
    = Some (r, dirEvent "/a" :: dirEvent "/a/b" :: mkFileInfo "/a/b/f" 1 0 false :: more,
            [ReqListObjectsV2Pages
               (walkInput (exampleDriver nestedS3 defaultChunkSize "/r") "/a/b")]).
Proof.
  destruct (Walk_under_root_reports_ancestors 9
              (exampleDriver nestedS3 defaultChunkSize "/r") "/a/b" acceptAll []
              (mkObject "r/a/b/f" 1 0) [] [])
    as (r & more & Hwalk).
  - discriminate.
  - reflexivity.
  - reflexivity.
  - repeat constructor.
  - exists r, more. rewrite Hwalk. reflexivity.
Defined.

(** ** C8: PathNotFound and empty listings *)





Section WalkDelivers.
Variable f : WalkFn.



End WalkDelivers.



(** C10, counterexample.  At a chunk size of 4 bytes, a Write of 8 bytes whose
    upload fails returns 8 and the error and sets no flag, but it leaves both
    buffers full: a later Write of one byte takes no byte and never returns,
    however many iterations its loop is given.  And a Write of 12 bytes whose
    second upload fails returns 12 while only 8 of these bytes are in the
    buffers; the other 4 are in the part uploaded first. *)
Lemma failed_upload_then_Write_never_returns :
  (exists w' h',
     Write 1 eightBytes smallChunkWriter []
     = Some ((8, Some (AwsError "InternalError" "")), w', h')
     /\ flags w' = (false, false, false)
     /\ forall fuel, Write fuel [Byte.x61] w' h' = None)
  /\ (exists w' h',
        Write 2 twelveBytes
          (newWriter (exampleDriver secondUploadFailsS3 4 "") "key" "upload-0" []) []
        = Some ((12, Some (AwsError "InternalError" "")), w', h')
        /\ len (w_readyPart w') + len (w_pendingPart w') = 8
        /\ sumSizes (w_parts w') = 4).
Proof.
  split.
  - eexists _, _. split; [vm_compute; reflexivity|]. split; [reflexivity|].
    intros fuel. unfold Write. cbn [w_closed w_committed w_cancelled].
    change (lastPartShort _) with false. cbv iota.
    apply writeLoop_full_buffers_spin; [by vm_compute | by vm_compute | discriminate].
  - eexists _, _. split; [vm_compute; reflexivity|]. split; reflexivity.
Qed.

(** ** Delete: a batch that fails *)

Lemma deleteBatches_sent (x : S3more) (d : driver) (s3Objects : list string)
    (h : history) (fuel : nat) :
  forall i l,
    0 <= i ->
    (length (drop (Z.to_nat i) s3Objects) <= fuel)%nat ->
    exists err batches rest,
      deleteBatches fuel x d s3Objects i h l
      = Some (err, l ++ map (deleteRequest d) batches)
      /\ drop (Z.to_nat i) s3Objects = concat batches ++ rest
      /\ (forall sent batch later,
            batches = sent ++ batch :: later ->
            batch = take 1000 (drop (length (concat sent)) (drop (Z.to_nat i) s3Objects))
            /\ batch <> []
            /\ (later <> [] ->
                deleteAccepted (DeleteObjects x h (l ++ map (deleteRequest d) sent)
                                  (mkDeleteObjectsInput (Bucket d) batch false))))
      /\ (err = None ->
          rest = []
          /\ forall sent last,
               batches = sent ++ [last] ->
               deleteAccepted (DeleteObjects x h (l ++ map (deleteRequest d) sent)
                                 (mkDeleteObjectsInput (Bucket d) last false)))
      /\ (forall e, err = Some e ->
            exists sent last,
              batches = sent ++ [last]
              /\ deleteFailed (DeleteObjects x h (l ++ map (deleteRequest d) sent)
                                 (mkDeleteObjectsInput (Bucket d) last false)) e).
Proof.
  induction fuel as [|fuel IH]; intros i l Hi Hfuel; cbn [deleteBatches];
    destruct (Z.ltb_spec i (len s3Objects)) as [Hlt|Hge].
  - rewrite length_drop in Hfuel. unfold len in Hlt. lia.
  - exists None, [], []. cbn. rewrite app_nil_r, drop_ge by (unfold len in Hge; lia).
    split; [done|]. split; [done|].
    split; [by intros [|??] ?? [=]|]. split; [|done].
    intros _. split; [done|]. by intros [|??] ? [=].
  - rewrite slice_batch by lia.
    set (remaining := drop (Z.to_nat i) s3Objects) in *.
    assert (Hrem : (0 < length remaining)%nat).
    { subst remaining. rewrite length_drop. unfold len in Hlt. lia. }
    assert (Hbatch : take 1000 remaining <> []).
    { destruct remaining; [cbn in Hrem; lia | discriminate]. }
    change (ReqDeleteObjects (mkDeleteObjectsInput (Bucket d) (take 1000 remaining) false))
      with (deleteRequest d (take 1000 remaining)).
    assert (Hsingle : forall err,
              (err = None ->
               deleteAccepted (DeleteObjects x h l
                                 (mkDeleteObjectsInput (Bucket d) (take 1000 remaining)
                                    false))) ->
              (forall e, err = Some e ->
                 deleteFailed (DeleteObjects x h l
                                 (mkDeleteObjectsInput (Bucket d) (take 1000 remaining)
                                    false)) e) ->
              err <> None ->
              exists err' batches rest,
                Some (err, l ++ [deleteRequest d (take 1000 remaining)])
                = Some (err', l ++ map (deleteRequest d) batches)
                /\ remaining = concat batches ++ rest
                /\ (forall sent batch later,
                      batches = sent ++ batch :: later ->
                      batch = take 1000 (drop (length (concat sent)) remaining)
                      /\ batch <> []
                      /\ (later <> [] ->
                          deleteAccepted
                            (DeleteObjects x h (l ++ map (deleteRequest d) sent)
                               (mkDeleteObjectsInput (Bucket d) batch false))))
                /\ (err' = None ->
                    rest = []
                    /\ forall sent last,
                         batches = sent ++ [last] ->
                         deleteAccepted
                           (DeleteObjects x h (l ++ map (deleteRequest d) sent)
                              (mkDeleteObjectsInput (Bucket d) last false)))
                /\ (forall e, err' = Some e ->
                      exists sent last,
                        batches = sent ++ [last]
                        /\ deleteFailed
                             (DeleteObjects x h (l ++ map (deleteRequest d) sent)
                                (mkDeleteObjectsInput (Bucket d) last false)) e)).
    { intros err _ Hfailed Hsome.
      exists err, [take 1000 remaining], (drop 1000 remaining).
      split; [done|]. cbn [concat]. rewrite app_nil_r, take_drop.
      split; [done|]. split.
      { intros [|s sent] batch later Heq.
        - injection Heq as <- <-. by repeat split.
        - injection Heq as _ Heq. by destruct sent. }
      split; [done|].
      intros e ->. exists [], (take 1000 remaining). cbn [map app].
      rewrite app_nil_r. split; [done|]. by apply Hfailed. }
    destruct (DeleteObjects x h l _) as [err|output] eqn:Hdel;
      [|destruct (deo_Errors output) as [|code codes] eqn:Herrs].
    + apply (Hsingle (Some err)); [done| |done]. intros e [= <-]. by left.
    + destruct (IH (i + 1000) (l ++ [deleteRequest d (take 1000 remaining)]))
        as (err & batches & rest & -> & Hcat & Heach & Hnone & Hsome).
      * lia.
      * replace (Z.to_nat (i + 1000)) with (Z.to_nat i + 1000)%nat by lia.
        rewrite <- drop_drop. fold remaining. rewrite length_drop. lia.
      * replace (Z.to_nat (i + 1000)) with (Z.to_nat i + 1000)%nat in Hcat, Heach by lia.
        rewrite <- drop_drop in Hcat, Heach. fold remaining in Hcat, Heach.
        assert (Hfirst : deleteAccepted
                           (DeleteObjects x h l
                              (mkDeleteObjectsInput (Bucket d) (take 1000 remaining)
                                 false))).
        { exists output. by rewrite Hdel. }
        assert (Hlen : length (take 1000 remaining) = 1000%nat
                       \/ drop 1000 remaining = []).
        { destruct (decide (1000 <= length remaining)%nat).
          - left. rewrite length_take. lia.
          - right. apply drop_ge. lia. }
        exists err, (take 1000 remaining :: batches), rest.
        split; [cbn [map]; by rewrite <- app_assoc|].
        split; [cbn [concat]; by rewrite <- app_assoc, <- Hcat, take_drop|].
        split; [|split].
        -- intros [|s sent] batch later Heq.
           ++ injection Heq as <- <-. cbn [concat length drop map].
              split; [done|]. split; [exact Hbatch|]. intros _.
              rewrite app_nil_r. exact Hfirst.
           ++ injection Heq as <- ->.
              destruct (Heach sent batch later eq_refl) as (Hb & Hne & Hacc).
              destruct Hlen as [Hlen|Hlen].
              ** split; [|split; [exact Hne|]].
                 { cbn [concat]. rewrite length_app, Hlen, <- drop_drop.
                   exact Hb. }
                 intros Hl. specialize (Hacc Hl). cbn [map].
                 by rewrite <- app_assoc in Hacc.
              ** exfalso. rewrite Hlen, drop_nil, take_nil in Hb. done.
        -- intros He. destruct (Hnone He) as [-> Hlast]. split; [done|].
           intros [|s sent] last Heq.
           ++ injection Heq as <- _. cbn [map]. rewrite app_nil_r. exact Hfirst.
           ++ injection Heq as <- ->. specialize (Hlast sent last eq_refl).
              cbn [map]. by rewrite <- app_assoc in Hlast.
        -- intros e He. destruct (Hsome e He) as (sent & last & -> & Hfail).
           exists (take 1000 remaining :: sent), last. split; [done|].
           cbn [map]. by rewrite <- app_assoc in Hfail.
    + apply (Hsingle (Some (OtherError code))); [done| |done].
      intros e [= <-]. right. by exists output, code, codes.
  - exists None, [], []. cbn. rewrite app_nil_r, drop_ge by (unfold len in Hge; lia).
    split; [done|]. split; [done|].
    split; [by intros [|??] ?? [=]|]. split; [|done].
    intros _. split; [done|]. by intros [|??] ? [=].
Qed.

(** X25. Delete stops at the first batch that fails.  When Stat succeeds and
    the listing loop has collected the keys [s3Objects], at least one, Delete
    returns after DeleteObjects requests for successive batches of the keys:
    each batch is the first 1000, or what is left, of the keys that follow the
    batches before it.  Every request but the last was accepted (the call
    succeeded without an error entry).  If Delete returns nil, the last
    request was accepted as well and the batches are all of [s3Objects].  If
    it returns an error, the last request sent is one that failed, either as
    a call or with error entries, of which only the code of the first is
    returned; the keys after it are in no request. *)
Theorem Delete_stops_at_first_failed_batch (fuel : nat) (x : S3more) (d : driver)
    (path : string) (h h1 h2 : history) (l : log) (stat : FileInfo)
    (s3Objects : list string) :
  Stat d path h = (inr stat, h1) ->
  deleteListLoop fuel d (s3Path d path +:+ "/") None
    (if negb (fi_IsDir stat) then [s3Path d path] else []) h1
  = Some (s3Objects, h2) ->
  s3Objects <> [] ->
  (length s3Objects <= fuel)%nat ->
  exists err batches rest,
    Delete fuel x d path h l = Some (err, h2, l ++ map (deleteRequest d) batches)
    /\ s3Objects = concat batches ++ rest
    /\ (forall sent batch later,
          batches = sent ++ batch :: later ->
          batch = take 1000 (drop (length (concat sent)) s3Objects)
          /\ batch <> []
          /\ (later <> [] ->
              deleteAccepted (DeleteObjects x h2 (l ++ map (deleteRequest d) sent)
                                (mkDeleteObjectsInput (Bucket d) batch false))))
    /\ (err = None ->
        rest = []
        /\ forall sent last,
             batches = sent ++ [last] ->
             deleteAccepted (DeleteObjects x h2 (l ++ map (deleteRequest d) sent)
                               (mkDeleteObjectsInput (Bucket d) last false)))
    /\ (forall e, err = Some e ->
          exists sent last,
            batches = sent ++ [last]
            /\ deleteFailed (DeleteObjects x h2 (l ++ map (deleteRequest d) sent)
                               (mkDeleteObjectsInput (Bucket d) last false)) e).
Proof.
  intros HStat Hlist Hne Hfuel. unfold Delete. rewrite HStat, Hlist.
  destruct (Z.eqb_spec (len s3Objects) 0) as [H0|_].
  { apply len_zero_iff in H0. done. }
  destruct (deleteBatches_sent x d s3Objects h2 fuel 0 l ltac:(lia) Hfuel)
    as (err & batches & rest & -> & Hcat & Heach & Hnone & Hsome).
  change (drop (Z.to_nat 0) s3Objects) with s3Objects in Hcat, Heach.
  exists err, batches, rest.
  split; [reflexivity|]. split; [exact Hcat|]. split; [exact Heach|].
  split; [exact Hnone | exact Hsome].
Qed.

(** X25 on the file [a] with 1000 objects listed under it, with a client whose
    first DeleteObjects reports error entries: Delete returns the code of the
    first entry after one request, for the first 1000 of the 1001 keys. *)
Lemma Delete_stops_at_first_failed_batch_witness :
  exists h2,
    Delete 1001 refusingMore (exampleDriver thousandKeysS3 defaultChunkSize "") "/a" [] []
    = Some (Some (OtherError "AccessDenied"), h2,
            [deleteRequest (exampleDriver thousandKeysS3 defaultChunkSize "")
               ("a"%string :: replicate 999 "a/k"%string)]).
Proof.
  set (d := exampleDriver thousandKeysS3 defaultChunkSize "").
  set (h1 := [ReqHeadObject (mkHeadObjectInput "bucket" "a")]).
  set (h2 := h1 ++ [ReqListObjects (deleteInput d "a/" None)]).
  destruct (Delete_stops_at_first_failed_batch 1001 refusingMore d "/a" [] h1 h2 []
              (mkFileInfo "/a" 3 0 false) ("a"%string :: replicate 1000 "a/k"%string))
    as (err & batches & rest & Hdel & Hcat & Heach & Hnone & Hsome).
  - reflexivity.
  - by vm_compute.
  - discriminate.
  - cbn [length]. rewrite length_replicate. lia.
  - assert (Hrefused : forall batch,
              deleteAccepted (DeleteObjects refusingMore h2 []
                                (mkDeleteObjectsInput (Bucket d) batch false)) -> False).
    { intros batch (output & Hout & Herr). cbn in Hout. injection Hout as <-.
      discriminate Herr. }
    exists h2. rewrite Hdel. clear Hdel.
    destruct batches as [|b1 later].
    { destruct err as [e|].
      - destruct (Hsome e eq_refl) as (sent & last & Heq & _). by destruct sent.
      - destruct (Hnone eq_refl) as [-> _]. discriminate Hcat. }
    destruct (Heach [] b1 later eq_refl) as (Hb1 & _ & Hacc).
    destruct later as [|b2 later].
    + destruct err as [e|].
      * destruct (Hsome e eq_refl) as (sent & last & Heq & Hfail).
        destruct sent as [|s sent]; [|by destruct sent]. injection Heq as <-.
        destruct Hfail as [Hf|(output & code & codes & Hf & Herrs & ->)];
          [discriminate Hf|].
        cbn in Hf. injection Hf as <-. injection Herrs as <- _.
        rewrite Hb1. reflexivity.
      * destruct (Hnone eq_refl) as [_ Hlast]. exfalso.
        apply (Hrefused b1). apply (Hlast [] b1 eq_refl).
    + exfalso. apply (Hrefused b1). apply Hacc. discriminate.
Defined.

(** ** copy: the limiter *)


